(** * speech-to-text: the chunk transcription scheduler

    A shallow embedding of the scheduling core of the repository:

    - [src/worker.js]: the [generate] function with its three module
      variables [isCurrentlyProcessing], [lastProcessedChunkId] and
      [processingQueue];
    - [src/App.jsx]: the [onMessageReceived] handler;
    - [AudioFileComponent]: [processChunks] and the completion handler;
    - [RealTimeAudioComponent]: the completion handler that merges text.

    JavaScript runs each callback to completion; an [async] function gives
    control back at every [await].  The embedding therefore has one
    transition per callback (a message, a timer, the settling of an awaited
    promise) and keeps the suspended activations in the state. *)

From Stdlib Require Import ZArith SpecFloat String Ascii Lia.
From stdpp Require Import base option list strings gmap pretty.

Local Open Scope Z_scope.

(** ** JavaScript values used by the program *)

Module JS.

(** Numbers are IEEE 754 binary64. *)
Definition prec : Z := 53.
Definition emax : Z := 1024.
Definition number : Type := spec_float.

Definition of_Z (z : Z) : number := binary_normalize prec emax z 0 false.
Definition mul : number -> number -> number := SFmul prec emax.
Definition div : number -> number -> number := SFdiv prec emax.

(** [Math.round]: the nearest integer, a tie going towards +infinity;
    NaN and the infinities are returned as they are, and a result of
    zero keeps the sign of the argument. *)
Definition Math_round (x : number) : number :=
  match x with
  | S754_finite s m e =>
      if 0 <=? e then x
      else
        let n := if s then Z.neg m else Z.pos m in
        let r := (2 * n + 2 ^ (- e)) / 2 ^ (- e + 1) in
        if r =? 0 then S754_zero s else of_Z r
  | _ => x
  end.

(** [Math.ceil (a / b)] for a non-negative integer [a] and a positive
    integer [b]: the quotient of two array lengths is at least [1 / b]
    away from the next integer below it, far more than the rounding
    error of one division, so the result is the exact ceiling. *)
Definition ceil_div (a b : Z) : Z := (a + b - 1) / b.

(** Strings are sequences of code units; this development covers the code
    units below 256.  [White space] and line terminators in that range. *)
Definition is_white_space (c : ascii) : bool :=
  let n := nat_of_ascii c in
  ((9 <=? n) && (n <=? 13) || (n =? 32) || (n =? 160))%nat.

Definition chars (s : string) : list ascii := list_ascii_of_string s.
Definition str (l : list ascii) : string := string_of_list_ascii l.

Fixpoint skip_white_space (l : list ascii) : list ascii :=
  match l with
  | [] => []
  | c :: l' => if is_white_space c then skip_white_space l' else l
  end.

(** [String.prototype.trim]: white space is removed at both ends. *)
Definition trim (s : string) : string :=
  str (rev (skip_white_space (rev (skip_white_space (chars s))))).

(** [String.prototype.endsWith] *)
Definition endsWith (s search : string) : bool :=
  bool_decide (chars search `suffix_of` chars s).

(** Truthiness of a string: the empty string is falsy. *)
Definition truthy (s : string) : bool :=
  match s with EmptyString => false | _ => true end.

End JS.

(** ** Chunk identifiers

    [processChunks] sends the chunk index, a number; the real-time
    component sends the string ['realtime']. *)

Inductive chunk_id : Type :=
  | Index (n : Z)
  | Realtime.

#[global] Instance chunk_id_eq_dec : EqDecision chunk_id.
Proof. solve_decision. Defined.

#[global] Instance chunk_id_countable : Countable chunk_id.
Proof.
  refine (inj_countable'
            (fun c => match c with Index n => Some n | Realtime => None end)
            (fun o => match o with Some n => Index n | None => Realtime end) _).
  intros []; reflexivity.
Defined.

(** [a <= b]: two numbers compare as numbers, two strings as strings, and
    ['realtime'] against a number is converted to NaN, for which every
    comparison is false. *)
Definition js_le (a b : chunk_id) : bool :=
  match a, b with
  | Index x, Index y => x <=? y
  | Realtime, Realtime => true
  | _, _ => false
  end.

(** [a === b] *)
Definition js_strict_eq (a b : chunk_id) : bool :=
  match a, b with
  | Index x, Index y => x =? y
  | Realtime, Realtime => true
  | _, _ => false
  end.

(** Template-literal conversion [`${chunkId}`]. *)
Definition chunk_id_to_string (c : chunk_id) : string :=
  match c with
  | Index n => pretty n
  | Realtime => "realtime"
  end.

(** ** The messages of the two contexts *)

(** What the page posts to the worker with [type: 'generate']. *)
Record request : Type := Request {
  audio : list JS.number;
  language : string;
  chunkId : chunk_id;
}.

(** What the worker posts to the page, by [status].  The [chunkId] of an
    ['error'] is absent ([undefined]) when loading the model failed. *)
Inductive message : Type :=
  | Loading (data : string)
  | Initiate (file : string)
  | Progress (file : string) (progress : Z)
  | Done (file : string)
  | Ready
  | Start (id : chunk_id)
  | Update (output : string) (numTokens : Z) (id : chunk_id)
  | Complete (output : list string) (id : chunk_id)
  | Error (data : string) (id : option chunk_id).

(** How an inference call ends: the decoded texts, or the thrown error
    converted by [error.toString()]. *)
Inductive outcome : Type :=
  | Decoded (outputText : list string)
  | Thrown (error : string).

(** ** worker.js *)

Module Worker.

Record state : Type := State {
  isCurrentlyProcessing : bool;
  lastProcessedChunkId : chunk_id;
  processingQueue : list request;
  (** activations of [generate] suspended at an [await] of the [try] block *)
  calls : list request;
  (** callbacks registered with [setTimeout (.., 0)], in firing order *)
  timers : list request;
  (** the ['start'] and terminal messages given to [self.postMessage],
      oldest first; [Streaming] below adds the ['update'] messages *)
  posted : list message;
}.

Definition init : state :=
  {| isCurrentlyProcessing := false;
     lastProcessedChunkId := Index (-1);
     processingQueue := [];
     calls := [];
     timers := [];
     posted := [] |}.

(** [processingQueue.some (item => item.chunkId === chunkId)] *)
Definition queued (c : chunk_id) (q : list request) : bool :=
  existsb (fun item => js_strict_eq (chunkId item) c) q.

(** [processingQueue.push ({ audio, language, chunkId })] *)
Definition enqueue (r : request) (w : state) : state :=
  {| isCurrentlyProcessing := isCurrentlyProcessing w;
     lastProcessedChunkId := lastProcessedChunkId w;
     processingQueue := processingQueue w ++ [r];
     calls := calls w;
     timers := timers w;
     posted := posted w |}.

(** The first statements of the [try] block, up to the first [await]. *)
Definition begin (r : request) (w : state) : state :=
  {| isCurrentlyProcessing := true;
     lastProcessedChunkId := chunkId r;
     processingQueue := processingQueue w;
     calls := calls w ++ [r];
     timers := timers w;
     posted := posted w ++ [Start (chunkId r)] |}.

(** [generate], from its call to its first suspension or return. *)
Definition generate (r : request) (w : state) : state :=
  if isCurrentlyProcessing w then
    if js_le (chunkId r) (lastProcessedChunkId w)
       || queued (chunkId r) (processingQueue w)
    then w
    else enqueue r w
  else begin r w.

(** The message that ends the [try] block or the [catch] block. *)
Definition terminal (r : request) (o : outcome) : message :=
  match o with
  | Decoded outputText => Complete outputText (chunkId r)
  | Thrown error =>
      Error ("Error processing audio segment " +:+ chunk_id_to_string (chunkId r)
             +:+ ": " +:+ error)
            (Some (chunkId r))
  end.

(** The rest of the activation at index [i] of [calls]: the terminal
    message, then the [finally] block. *)
Definition settle (i : nat) (r : request) (o : outcome) (w : state) : state :=
  match processingQueue w with
  | [] =>
      {| isCurrentlyProcessing := false;
         lastProcessedChunkId := lastProcessedChunkId w;
         processingQueue := [];
         calls := delete i (calls w);
         timers := timers w;
         posted := posted w ++ [terminal r o] |}
  | nextItem :: rest =>
      {| isCurrentlyProcessing := false;
         lastProcessedChunkId := lastProcessedChunkId w;
         processingQueue := rest;
         calls := delete i (calls w);
         timers := timers w ++ [nextItem];
         posted := posted w ++ [terminal r o] |}
  end.

(** The state of the worker once the timer at the head of [timers] has been
    taken by the event loop. *)
Definition fired (w : state) : state :=
  {| isCurrentlyProcessing := isCurrentlyProcessing w;
     lastProcessedChunkId := lastProcessedChunkId w;
     processingQueue := processingQueue w;
     calls := calls w;
     timers := tail (timers w);
     posted := posted w |}.

(** One turn of the worker's event loop: a ['generate'] message of the
    page, the timer at the head of [timers], or the end of the awaited
    inference of the activation at index [i].  Loading the model and the
    ['update'] messages of the streamer touch none of the three variables
    and are left out here; [Streaming] below has the tokens of the
    streamer, and [Streaming.erase] relates the two. *)
Inductive event : Type :=
  | Message (r : request)
  | Timeout
  | Settle (i : nat) (o : outcome).

Definition step (w : state) (e : event) : option state :=
  match e with
  | Message r => Some (generate r w)
  | Timeout =>
      match timers w with
      | [] => None
      | nextItem :: _ => Some (generate nextItem (fired w))
      end
  | Settle i o =>
      match calls w !! i with
      | None => None
      | Some r => Some (settle i r o w)
      end
  end.

Fixpoint exec (evs : list event) (w : state) : option state :=
  match evs with
  | [] => Some w
  | e :: evs' =>
      match step w e with
      | None => None
      | Some w' => exec evs' w'
      end
  end.


Definition is_start (m : message) : bool :=
  match m with Start _ => true | _ => false end.

Definition is_terminal (m : message) : bool :=
  match m with Complete _ _ | Error _ _ => true | _ => false end.

Definition count (p : message -> bool) (l : list message) : nat :=
  length (List.filter p l).

End Worker.


(** ** The page: App.jsx and the two components *)

Module Page.

Definition WHISPER_SAMPLING_RATE : Z := 16000.
Definition MAX_AUDIO_LENGTH : Z := 30.
Definition MAX_SAMPLES : Z := WHISPER_SAMPLING_RATE * MAX_AUDIO_LENGTH.
Definition MAX_PARALLEL_CHUNKS : Z := 3.

(** [array.slice (start, end)] with its relative indices. *)
Definition clamp (len k : Z) : Z :=
  if k <? 0 then Z.max (len + k) 0 else Z.min k len.

Definition slice {A : Type} (l : list A) (start end_ : Z) : list A :=
  let len := Z.of_nat (length l) in
  let k := clamp len start in
  let final := clamp len end_ in
  take (Z.to_nat (final - k)) (drop (Z.to_nat k) l).

Inductive app_status : Type :=
  | StatusNull
  | StatusLoading
  | StatusReady
  | StatusError.

Inductive app_mode : Type :=
  | ModeRealtime
  | ModeFile.

(** The activation of [processChunks] suspended at
    [await Promise.all (chunkPromises)]: its arguments, the loop variable
    and the promises of the batch that are still pending.  A promise is
    named by the chunk index it was created for. *)
Record frame : Type := Frame {
  f_audio : list JS.number;
  f_totalChunks : Z;
  f_i : Z;
  f_pending : list Z;
}.

(** The effects of the page that leave no trace in its variables. *)
Inductive action : Type :=
  | SetProcessingProgress (progress : JS.number)
  | PostMessage (r : request)
  | Resolved (promise : Z).

Record state : Type := State {
  (** App *)
  status : app_status;
  loadingMessage : string;
  progressItems : list (string * option Z);
  text : string;
  language : string;
  mode : app_mode;
  (** [window.chunkResolvers]: [null], or an object from chunk ids to the
      [resolve] functions of promises *)
  chunkResolvers : option (gmap chunk_id Z);
  (** AudioFileComponent *)
  processingProgress : JS.number;
  isProcessingFullFile : bool;
  file_isProcessing : bool;
  suspended : option frame;
  (** RealTimeAudioComponent *)
  realtime_isProcessing : bool;
  (** the actions so far, oldest first *)
  log : list action;
}.

Definition set_text (t : string) (st : state) : state :=
  {| status := status st; loadingMessage := loadingMessage st;
     progressItems := progressItems st; text := t; language := language st;
     mode := mode st; chunkResolvers := chunkResolvers st;
     processingProgress := processingProgress st;
     isProcessingFullFile := isProcessingFullFile st;
     file_isProcessing := file_isProcessing st; suspended := suspended st;
     realtime_isProcessing := realtime_isProcessing st; log := log st |}.

Definition set_chunkResolvers (m : option (gmap chunk_id Z)) (st : state) : state :=
  {| status := status st; loadingMessage := loadingMessage st;
     progressItems := progressItems st; text := text st; language := language st;
     mode := mode st; chunkResolvers := m;
     processingProgress := processingProgress st;
     isProcessingFullFile := isProcessingFullFile st;
     file_isProcessing := file_isProcessing st; suspended := suspended st;
     realtime_isProcessing := realtime_isProcessing st; log := log st |}.

Definition set_suspended (f : option frame) (st : state) : state :=
  {| status := status st; loadingMessage := loadingMessage st;
     progressItems := progressItems st; text := text st; language := language st;
     mode := mode st; chunkResolvers := chunkResolvers st;
     processingProgress := processingProgress st;
     isProcessingFullFile := isProcessingFullFile st;
     file_isProcessing := file_isProcessing st; suspended := f;
     realtime_isProcessing := realtime_isProcessing st; log := log st |}.

Definition set_realtime_isProcessing (b : bool) (st : state) : state :=
  {| status := status st; loadingMessage := loadingMessage st;
     progressItems := progressItems st; text := text st; language := language st;
     mode := mode st; chunkResolvers := chunkResolvers st;
     processingProgress := processingProgress st;
     isProcessingFullFile := isProcessingFullFile st;
     file_isProcessing := file_isProcessing st; suspended := suspended st;
     realtime_isProcessing := b; log := log st |}.

Definition set_status (s : app_status) (st : state) : state :=
  {| status := s; loadingMessage := loadingMessage st;
     progressItems := progressItems st; text := text st; language := language st;
     mode := mode st; chunkResolvers := chunkResolvers st;
     processingProgress := processingProgress st;
     isProcessingFullFile := isProcessingFullFile st;
     file_isProcessing := file_isProcessing st; suspended := suspended st;
     realtime_isProcessing := realtime_isProcessing st; log := log st |}.

Definition set_loading (data : string) (st : state) : state :=
  {| status := StatusLoading; loadingMessage := data;
     progressItems := progressItems st; text := text st; language := language st;
     mode := mode st; chunkResolvers := chunkResolvers st;
     processingProgress := processingProgress st;
     isProcessingFullFile := isProcessingFullFile st;
     file_isProcessing := file_isProcessing st; suspended := suspended st;
     realtime_isProcessing := realtime_isProcessing st; log := log st |}.

Definition set_progressItems (l : list (string * option Z)) (st : state) : state :=
  {| status := status st; loadingMessage := loadingMessage st;
     progressItems := l; text := text st; language := language st;
     mode := mode st; chunkResolvers := chunkResolvers st;
     processingProgress := processingProgress st;
     isProcessingFullFile := isProcessingFullFile st;
     file_isProcessing := file_isProcessing st; suspended := suspended st;
     realtime_isProcessing := realtime_isProcessing st; log := log st |}.

Definition add_log (a : list action) (st : state) : state :=
  {| status := status st; loadingMessage := loadingMessage st;
     progressItems := progressItems st; text := text st; language := language st;
     mode := mode st; chunkResolvers := chunkResolvers st;
     processingProgress := processingProgress st;
     isProcessingFullFile := isProcessingFullFile st;
     file_isProcessing := file_isProcessing st; suspended := suspended st;
     realtime_isProcessing := realtime_isProcessing st; log := log st ++ a |}.

(** *** AudioFileComponent: processChunks *)

(** [Math.round ((i + j) / totalChunks * 100)] *)
Definition progress_at (chunkIndex totalChunks : Z) : JS.number :=
  JS.Math_round
    (JS.mul (JS.div (JS.of_Z chunkIndex) (JS.of_Z totalChunks)) (JS.of_Z 100)).

(** The body of the inner loop for [chunkIndex = i + j]: the progress is
    set, then the executor of the promise stores its [resolve] function
    and posts the chunk. *)
Definition dispatch (audio : list JS.number) (totalChunks chunkIndex : Z)
    (st : state) : state :=
  let startSample := chunkIndex * MAX_SAMPLES in
  let endSample := Z.min (startSample + MAX_SAMPLES) (Z.of_nat (length audio)) in
  let audioChunk := slice audio startSample endSample in
  let progress := progress_at chunkIndex totalChunks in
  {| status := status st; loadingMessage := loadingMessage st;
     progressItems := progressItems st; text := text st; language := language st;
     mode := mode st;
     chunkResolvers :=
       Some (<[Index chunkIndex := chunkIndex]> (default ∅ (chunkResolvers st)));
     processingProgress := progress;
     isProcessingFullFile := isProcessingFullFile st;
     file_isProcessing := file_isProcessing st; suspended := suspended st;
     realtime_isProcessing := realtime_isProcessing st;
     log := log st ++ [SetProcessingProgress progress;
                       PostMessage (Request audioChunk (language st)
                                            (Index chunkIndex))] |}.

(** The statements after the outer loop.  The change of
    [isProcessingFullFile] re-runs the effect of the component, whose
    clean-up sets [window.chunkResolvers] to [null]. *)
Definition finish (st : state) : state :=
  {| status := status st; loadingMessage := loadingMessage st;
     progressItems := progressItems st; text := text st; language := language st;
     mode := mode st; chunkResolvers := None;
     processingProgress := JS.of_Z 100;
     isProcessingFullFile := false;
     file_isProcessing := false; suspended := None;
     realtime_isProcessing := realtime_isProcessing st;
     log := log st ++ [SetProcessingProgress (JS.of_Z 100)] |}.

(** The outer loop from its test at [i] to the next [await], or to the end
    of the function. *)
Definition loop (audio : list JS.number) (totalChunks i : Z) (st : state) : state :=
  if i <? totalChunks then
    let batchSize := Z.min MAX_PARALLEL_CHUNKS (totalChunks - i) in
    let st' := foldl (fun s j => dispatch audio totalChunks (i + j) s)
                     st (seqZ 0 batchSize) in
    set_suspended
      (Some {| f_audio := audio; f_totalChunks := totalChunks; f_i := i;
               f_pending := seqZ i batchSize |})
      st'
  else finish st.

Definition processChunks (audio : list JS.number) (totalChunks : Z)
    (st : state) : state :=
  loop audio totalChunks 0 st.

(** The [resolve] function of promise [p] is called: when it was the last
    pending promise of the batch, [Promise.all] is fulfilled and the loop
    goes on with [i += MAX_PARALLEL_CHUNKS]. *)
Definition resolve (p : Z) (st : state) : state :=
  let st := add_log [Resolved p] st in
  match suspended st with
  | None => st
  | Some f =>
      match List.filter (fun q => negb (q =? p)) (f_pending f) with
      | [] => loop (f_audio f) (f_totalChunks f) (f_i f + MAX_PARALLEL_CHUNKS) st
      | pending =>
          set_suspended
            (Some {| f_audio := f_audio f; f_totalChunks := f_totalChunks f;
                     f_i := f_i f; f_pending := pending |})
            st
      end
  end.

(** [if (window.chunkResolvers && window.chunkResolvers[chunkId]) { .. }] *)
Definition resolve_chunk (id : option chunk_id) (st : state) : state :=
  match chunkResolvers st, id with
  | Some resolvers, Some c =>
      match resolvers !! c with
      | Some p => resolve p (set_chunkResolvers (Some (delete c resolvers)) st)
      | None => st
      end
  | _, _ => st
  end.

(** The [onloadend] callback of [processAudioFileWithFile] once the file is
    decoded. *)
Definition processAudioFile (audio : list JS.number) (st : state) : state :=
  let totalChunks := JS.ceil_div (Z.of_nat (length audio)) MAX_SAMPLES in
  processChunks audio totalChunks st.

(** *** AudioFileComponent: handleWorkerMessage

    An [output] without elements makes [e.data.output[0].trim ()] throw
    before anything is changed. *)
Definition file_handleWorkerMessage (m : message) (st : state) : state :=
  match m with
  | Complete output id =>
      if isProcessingFullFile st then
        match output with
        | [] => st
        | o :: _ =>
            let newOutput := JS.trim o in
            let p := text st in
            resolve_chunk (Some id)
              (set_text (if JS.truthy newOutput
                         then p +:+ " " +:+ newOutput
                         else p)
                        st)
        end
      else st
  | _ => st
  end.

(** *** RealTimeAudioComponent: handleWorkerMessage *)

Definition BLANK_AUDIO : string := "[BLANK_AUDIO]".

(** The updater passed to [setText]. *)
Definition merge (p output : string) : string :=
  let trimmed := JS.trim p in
  if negb (JS.truthy trimmed) then output
  else if negb (JS.endsWith trimmed output) && negb (String.eqb output BLANK_AUDIO)
       then trimmed +:+ " " +:+ output
       else trimmed.

(** The transcript after a completion with the first text [o]. *)
Definition realtime_text (p o : string) : string :=
  let output := JS.trim o in
  if JS.truthy output && negb (String.eqb output BLANK_AUDIO)
  then merge p output
  else p.

Definition realtime_handleWorkerMessage (m : message) (st : state) : state :=
  match m with
  | Start Realtime => set_realtime_isProcessing true st
  | Complete output Realtime =>
      let st1 := set_realtime_isProcessing false st in
      match output with
      | [] => st1
      | o :: _ => set_text (realtime_text (text st1) o) st1
      end
  | _ => st
  end.

(** The request the component posts for the captured samples: the last
    [MAX_SAMPLES] of them, under the id ['realtime']. *)
Definition realtime_request (captured : list JS.number) (lang : string) : request :=
  let len := Z.of_nat (length captured) in
  let recent :=
    if MAX_SAMPLES <? len then slice captured (- MAX_SAMPLES) len else captured in
  Request recent lang Realtime.

(** *** App: onMessageReceived *)

Definition onMessageReceived (m : message) (st : state) : state :=
  match m with
  | Loading data => set_loading data st
  | Initiate file => set_progressItems (progressItems st ++ [(file, None)]) st
  | Progress file p =>
      set_progressItems
        (List.map (fun item => if String.eqb (fst item) file
                               then (file, Some p) else item)
                  (progressItems st))
        st
  | Done file =>
      set_progressItems
        (List.filter (fun item => negb (String.eqb (fst item) file))
                     (progressItems st))
        st
  | Ready => set_status StatusReady st
  | Error data id =>
      resolve_chunk id (set_text ("Error: " +:+ data) (set_status StatusError st))
  | Start _ => st
  | Update _ _ _ => st
  | Complete _ _ => st
  end.

(** *** The listeners of the worker's ['message'] event

    A component listens while it is rendered: [status === 'ready'] and its
    mode selected.  When [status] leaves ['ready'] the components are
    unmounted, and the clean-up of AudioFileComponent sets
    [window.chunkResolvers] to [null].  The variables of an unmounted
    component stay in the record, where no listener reads them; React
    discards them, and a component rendered anew starts from its initial
    values.  That takes a ['ready'] message after the status has left
    ['ready'], and the worker posts ['ready'] at the end of [load] only. *)
Definition file_mounted (st : state) : bool :=
  match status st, mode st with
  | StatusReady, ModeFile => true
  | _, _ => false
  end.

Definition realtime_mounted (st : state) : bool :=
  match status st, mode st with
  | StatusReady, ModeRealtime => true
  | _, _ => false
  end.

Definition unmount (before after : state) : state :=
  if file_mounted before && negb (file_mounted after)
  then set_chunkResolvers None after
  else after.

Definition deliver (m : message) (st : state) : state :=
  let st1 := if file_mounted st then file_handleWorkerMessage m st else st in
  let st2 := if realtime_mounted st then realtime_handleWorkerMessage m st1 else st1 in
  unmount st (onMessageReceived m st2).

Definition exec (ms : list message) (st : state) : state :=
  foldl (fun s m => deliver m s) st ms.

(** The page once the model is loaded and the file mode selected, when
    [processAudioFileWithFile] has reset the component. *)
Definition file_page : state :=
  {| status := StatusReady; loadingMessage := ""; progressItems := [];
     text := ""; language := "en"; mode := ModeFile; chunkResolvers := None;
     processingProgress := JS.of_Z 0; isProcessingFullFile := true;
     file_isProcessing := false; suspended := None;
     realtime_isProcessing := false; log := [] |}.

(** The chunk indices posted to the worker, in order. *)
Definition sent (l : list action) : list Z :=
  omap (fun a => match a with
                 | PostMessage r =>
                     match chunkId r with Index k => Some k | Realtime => None end
                 | _ => None
                 end) l.

(** The requests posted to the worker, in order. *)
Definition requests (l : list action) : list request :=
  omap (fun a => match a with PostMessage r => Some r | _ => None end) l.

(** The posted chunk indices, cut wherever a promise was resolved between
    two posts. *)
Fixpoint batches (l : list action) (current : list Z) : list (list Z) :=
  match l with
  | [] => match current with [] => [] | _ => [current] end
  | PostMessage r :: l' =>
      match chunkId r with
      | Index k => batches l' (current ++ [k])
      | Realtime => batches l' current
      end
  | Resolved _ :: l' =>
      match current with
      | [] => batches l' []
      | _ => current :: batches l' []
      end
  | SetProcessingProgress _ :: l' => batches l' current
  end.

(** *** What holds of a batch session

    The chunk indices of the batch that starts at [i]. *)
Definition wave (totalChunks i : Z) : list Z :=
  seqZ i (Z.min MAX_PARALLEL_CHUNKS (totalChunks - i)).

(** Every chunk is posted after the promises of all earlier batches were
    resolved. *)
Definition barrier (l : list action) : Prop :=
  ∀ (a : nat) (r : request) (k j : Z),
    l !! a = Some (PostMessage r) →
    chunkId r = Index k →
    0 ≤ j < MAX_PARALLEL_CHUNKS * (k / MAX_PARALLEL_CHUNKS) →
    ∃ b : nat, (b < a)%nat ∧ l !! b = Some (Resolved j).

(** Every chunk is posted right after its progress value was set. *)
Definition progress_then_post (totalChunks : Z) (l : list action) : Prop :=
  ∀ (a : nat) (r : request),
    l !! a = Some (PostMessage r) →
    ∃ (k : Z) (b : nat),
      chunkId r = Index k ∧ a = S b ∧
      l !! b = Some (SetProcessingProgress (progress_at k totalChunks)).

(** The first chunk index that has not been posted yet. *)
Definition frontier (totalChunks : Z) (st : state) : Z :=
  match suspended st with
  | Some f => Z.min (f_i f + MAX_PARALLEL_CHUNKS) totalChunks
  | None => totalChunks
  end.

(** The first chunk index whose batch has not been awaited to the end. *)
Definition awaited (totalChunks : Z) (st : state) : Z :=
  match suspended st with
  | Some f => f_i f
  | None => totalChunks
  end.

Record session_inv (audio : list JS.number) (totalChunks : Z) (st : state) : Prop := {
  inv_mode : mode st = ModeFile;
  inv_flag : isProcessingFullFile st = bool_decide (is_Some (suspended st));
  inv_frame : ∀ f, suspended st = Some f →
    f_audio f = audio ∧ f_totalChunks f = totalChunks ∧
    0 ≤ f_i f < totalChunks ∧
    (∃ q, f_i f = MAX_PARALLEL_CHUNKS * q) ∧
    f_pending f ≠ [] ∧
    ∀ p, p ∈ f_pending f → p ∈ wave totalChunks (f_i f);
  inv_resolvers : ∀ m c p, chunkResolvers st = Some m → m !! c = Some p →
    c = Index p ∧ ∃ f, suspended st = Some f ∧ p ∈ f_pending f;
  inv_sent : sent (log st) = seqZ 0 (frontier totalChunks st);
  inv_resolved : ∀ j, 0 ≤ j < awaited totalChunks st → Resolved j ∈ log st;
  inv_resolved_wave : ∀ f j, suspended st = Some f →
    j ∈ wave totalChunks (f_i f) → j ∉ f_pending f → Resolved j ∈ log st;
  inv_barrier : barrier (log st);
  inv_progress : progress_then_post totalChunks (log st);
  inv_final : suspended st = None → processingProgress st = JS.of_Z 100;
}.

(** The state in the middle of a batch: [c] chunks of the batch that starts
    at [i] have been posted. *)
Record dispatching (totalChunks i c : Z) (st : state) : Prop := {
  dis_mode : mode st = ModeFile;
  dis_flag : isProcessingFullFile st = true;
  dis_resolvers : ∀ m c' p, chunkResolvers st = Some m → m !! c' = Some p →
    c' = Index p ∧ i ≤ p < i + c;
  dis_sent : sent (log st) = seqZ 0 (i + c);
  dis_resolved : ∀ j, 0 ≤ j < i → Resolved j ∈ log st;
  dis_barrier : barrier (log st);
  dis_progress : progress_then_post totalChunks (log st);
}.

(** The session when the waiters of the chunks below [k] have been called
    in the order of the chunks and nothing else has happened: the chunks
    from [k] to the end of the batch are pending, each with its waiter. *)
Definition on_track (audio : list JS.number) (totalChunks k : Z) (st : state) : Prop :=
  session_inv audio totalChunks st ∧
  file_mounted st = true ∧
  match suspended st with
  | Some f =>
      f_i f ≤ k < frontier totalChunks st ∧
      f_pending f = seqZ k (frontier totalChunks st - k) ∧
      ∃ m, chunkResolvers st = Some m ∧
           ∀ j, k ≤ j < frontier totalChunks st → m !! Index j = Some j
  | None => totalChunks ≤ k
  end.

(** The texts of the completions, as the handler of AudioFileComponent
    reads them: [output[0].trim ()] of each message that has one. *)
Definition first_text (m : message) : option string :=
  match m with
  | Complete (o :: _) _ => Some (JS.trim o)
  | _ => None
  end.

Definition is_complete (m : message) : bool :=
  match m with Complete _ _ => true | _ => false end.

(** The messages [generate] posts for a chunk that is decoded: ['start'],
    an ['update'] for every token and ['complete']. *)
Definition is_decoding_message (m : message) : bool :=
  match m with
  | Start _ | Update _ _ _ | Complete _ _ => true
  | _ => false
  end.

(** The messages [generate] posts: those of a chunk that is decoded, and
    ['error'] with the id of the chunk. *)
Definition is_generate_message (m : message) : bool :=
  match m with
  | Error _ (Some _) => true
  | _ => is_decoding_message m
  end.

(** The values passed to [setProcessingProgress], in order. *)
Definition progress_values (l : list action) : list JS.number :=
  omap (fun a => match a with SetProcessingProgress p => Some p | _ => None end) l.

End Page.


(** ** Concrete inputs used below *)

Module Examples.

Definition silence : list JS.number := [JS.of_Z 0; JS.of_Z 0; JS.of_Z 0; JS.of_Z 0].

(** The request [processChunks] posts for chunk [k] of a short buffer. *)
Definition chunk (k : Z) : request := Request silence "en" (Index k).

(** The request of the real-time component. *)
Definition live : request := Page.realtime_request silence "en".

(** The state of the worker after a sequence of events from [init]. *)
Definition after (evs : list Worker.event) : Worker.state :=
  default Worker.init (Worker.exec evs Worker.init).

(** Three chunks of a batch arrive; the first is started, two are queued. *)
Definition batch_arrives : list Worker.event :=
  [Worker.Message (chunk 0); Worker.Message (chunk 1); Worker.Message (chunk 2)].

(** Chunk 5 is processed to the end while nothing else is waiting. *)
Definition five_done : list Worker.event :=
  [Worker.Message (chunk 5); Worker.Settle 0 (Decoded ["five"])].

(** Chunk 5 fails while nothing else is waiting. *)
Definition five_failed : list Worker.event :=
  [Worker.Message (chunk 5); Worker.Settle 0 (Thrown "Error: device lost")].

(** Chunk 5 fails, then chunk 3 arrives and is being processed. *)
Definition five_failed_three_running : list Worker.event :=
  five_failed ++ [Worker.Message (chunk 3)].


(** A recording of 65 seconds at 16 kHz: three chunks. *)
Definition sixty_five_seconds : list JS.number :=
  repeat (JS.of_Z 0) (Z.to_nat (65 * Page.WHISPER_SAMPLING_RATE)).

(** A recording of 200 seconds at 16 kHz: seven chunks. *)
Definition two_hundred_seconds : list JS.number :=
  repeat (JS.of_Z 0) (Z.to_nat (200 * Page.WHISPER_SAMPLING_RATE)).

(** The completions of chunks [0 .. n - 1], in order, with the texts [t]. *)
Definition completions (t : Z → string) (n : Z) : list message :=
  List.map (fun k => Complete [t k] (Index k)) (seqZ 0 n).

Definition numbered (k : Z) : string := "text " +:+ pretty k.


End Examples.

(** ** More of worker.js *)

Module Drain.
Import Worker.

(** The events that end the chunk in flight with [o] and then, for every
    outcome of [os], fire the timer and end the chunk it has started. *)
Definition drain (o : outcome) (os : list outcome) : list event :=
  Settle 0 o :: flat_map (fun o' => [Timeout; Settle 0 o']) os.

(** The id of the last ['start'] message, [-1] when there is none. *)
Definition last_started (l : list message) : chunk_id :=
  foldl (fun acc m => match m with Start c => c | _ => acc end) (Index (-1)) l.

(** The requests the worker has received: one per ['generate'] message. *)
Definition received (evs : list event) : list request :=
  omap (fun e => match e with Message r => Some r | _ => None end) evs.

(** The requests held by the worker and the chunks it has started are
    among [known]. *)
Definition from_known (known : list request) (w : state) : Prop :=
  (∀ r, r ∈ calls w ++ processingQueue w ++ timers w → r ∈ known) ∧
  (∀ c, Start c ∈ posted w → ∃ r, r ∈ known ∧ chunkId r = c).

(** The worker at rest: idle, nothing queued, no timer pending and no call
    in flight. *)
Definition at_rest (w : state) : Prop :=
  isCurrentlyProcessing w = false ∧ processingQueue w = [] ∧
  timers w = [] ∧ calls w = [].

(** A bound on the events the worker can still take without a new
    request: a timer starts or re-queues its item, a queued item goes to a
    timer, and a call ends. *)
Definition effort (w : state) : nat :=
  3 * length (timers w) + 2 * length (processingQueue w) + 2 * length (calls w).

End Drain.

(** ** worker.js: the pipeline, the loading and the streamer *)

Module Loader.

Inductive component : Type :=
  | Tokenizer
  | Processor
  | Model.

(** The [progress_callback] argument of [getInstance]: [null], or the
    function of [load] that posts every event to the page. *)
Inductive progress_callback : Type :=
  | NoCallback
  | PostEvent.

(** The static fields of AutomaticSpeechRecognitionPipeline.  A field is
    [null] or the promise returned by a call of [from_pretrained]; a
    promise is named by the position of its call in [created]. *)
Record pipeline : Type := Pipeline {
  model_id : option string;
  tokenizer : option nat;
  processor : option nat;
  model : option nat;
  created : list (component * progress_callback);
}.

Definition unloaded : pipeline :=
  {| model_id := None; tokenizer := None; processor := None; model := None;
     created := [] |}.

(** [this.field ??= Auto... .from_pretrained (this.model_id, { progress_callback })] *)
Definition assign_if_null (field : option nat) (c : component)
    (cb : progress_callback) (calls : list (component * progress_callback))
    : option nat * list (component * progress_callback) :=
  match field with
  | Some promise => (Some promise, calls)
  | None => (Some (length calls), calls ++ [(c, cb)])
  end.

(** [getInstance]: the new fields and the three promises given to
    [Promise.all]. *)
Definition getInstance (cb : progress_callback) (p : pipeline)
    : pipeline * list (option nat) :=
  let '(t, calls1) := assign_if_null (tokenizer p) Tokenizer cb (created p) in
  let '(pr, calls2) := assign_if_null (processor p) Processor cb calls1 in
  let '(m, calls3) := assign_if_null (model p) Model cb calls2 in
  ({| model_id := Some "onnx-community/whisper-base";
      tokenizer := t; processor := pr; model := m; created := calls3 |},
   [t; pr; m]).

(** The pipeline after calls of [getInstance] with the callbacks [cbs]. *)
Definition after_calls (cbs : list progress_callback) (p : pipeline) : pipeline :=
  foldl (fun q cb => fst (getInstance cb q)) p cbs.

Definition instantiated (p : pipeline) : Prop :=
  is_Some (tokenizer p) ∧ is_Some (processor p) ∧ is_Some (model p).

(** How [load] ends: the model is warmed up, the instances could not be
    loaded, or the warm-up run has failed. *)
Inductive load_result : Type :=
  | Loaded
  | InstanceFailed (error : string)
  | WarmupFailed (error : string).

(** The messages [load] posts, with [events] the events the progress
    callback receives while the instances are awaited. *)
Definition load (events : list message) (res : load_result) : list message :=
  [Loading "Loading model..."] ++ events ++
  match res with
  | InstanceFailed error => [Error ("Error loading model: " +:+ error) None]
  | WarmupFailed error =>
      [Loading "Compiling shaders and warming up model...";
       Error ("Error loading model: " +:+ error) None]
  | Loaded => [Loading "Compiling shaders and warming up model..."; Ready]
  end.

(** The events of the loading of the assets that App handles. *)
Definition is_progress_event (m : message) : bool :=
  match m with
  | Initiate _ | Progress _ _ | Done _ => true
  | _ => false
  end.

(** The variables of one call of [generate] that its streamer callback
    closes over. *)
Record streamer : Type := Streamer {
  startTime : option JS.number;
  numTokens : Z;
}.

Definition fresh : streamer := {| startTime := None; numTokens := 0 |}.

Definition sub : JS.number -> JS.number -> JS.number := SFsub JS.prec JS.emax.

(** [callback_function (output)] at the time [now] of [performance.now ()]:
    the new variables, the value of [tps] ([undefined] for the first
    token) and the message posted. *)
Definition callback_function (id : chunk_id) (output : string) (now : JS.number)
    (s : streamer) : streamer * (option JS.number * message) :=
  let start := default now (startTime s) in
  let count := numTokens s + 1 in
  let tps :=
    if 0 <? numTokens s
    then Some (JS.mul (JS.div (JS.of_Z count) (sub now start)) (JS.of_Z 1000))
    else None in
  ({| startTime := Some start; numTokens := count |},
   (tps, Update output count id)).

(** The streamer called for each token of [tokens], a text and the time of
    its arrival: the final variables and what was posted, oldest first. *)
Definition stream (id : chunk_id) (tokens : list (string * JS.number))
    (s : streamer) : streamer * list (option JS.number * message) :=
  foldl (fun acc token =>
           let '(s', out) := callback_function id (fst token) (snd token) (fst acc) in
           (s', snd acc ++ [out]))
        (s, []) tokens.

(** The time of the first token. *)
Definition start_of (tokens : list (string * JS.number)) : option JS.number :=
  snd <$> head tokens.

(** What the callback posts for the token at position [k]. *)
Definition posted_for (id : chunk_id) (tokens : list (string * JS.number))
    (k : nat) (token : string * JS.number) : option JS.number * message :=
  let count := Z.of_nat k + 1 in
  (if (0 <? k)%nat
   then Some (JS.mul (JS.div (JS.of_Z count)
                             (sub (snd token) (default (snd token) (start_of tokens))))
                     (JS.of_Z 1000))
   else None,
   Update (fst token) count id).

End Loader.

(** ** worker.js: [generate] with its streamer *)

Module Streaming.

(** An activation of [generate] suspended in its [try] block: its request
    and the variables [startTime] and [numTokens] of its streamer
    callback. *)
Record activation : Type := Activation {
  act_request : request;
  act_streamer : Loader.streamer;
}.

Record state : Type := State {
  isCurrentlyProcessing : bool;
  lastProcessedChunkId : chunk_id;
  processingQueue : list request;
  calls : list activation;
  (** callbacks registered with [setTimeout (.., 0)], in firing order *)
  timers : list request;
  (** every [self.postMessage] of [generate], oldest first *)
  posted : list message;
}.

Definition init : state :=
  {| isCurrentlyProcessing := false;
     lastProcessedChunkId := Index (-1);
     processingQueue := [];
     calls := [];
     timers := [];
     posted := [] |}.

Definition enqueue (r : request) (w : state) : state :=
  {| isCurrentlyProcessing := isCurrentlyProcessing w;
     lastProcessedChunkId := lastProcessedChunkId w;
     processingQueue := processingQueue w ++ [r];
     calls := calls w;
     timers := timers w;
     posted := posted w |}.

(** The [try] block up to its first [await]; the variables of the
    callback are declared when the activation goes on, before any token. *)
Definition begin (r : request) (w : state) : state :=
  {| isCurrentlyProcessing := true;
     lastProcessedChunkId := chunkId r;
     processingQueue := processingQueue w;
     calls := calls w ++ [{| act_request := r; act_streamer := Loader.fresh |}];
     timers := timers w;
     posted := posted w ++ [Start (chunkId r)] |}.

Definition generate (r : request) (w : state) : state :=
  if isCurrentlyProcessing w then
    if js_le (chunkId r) (lastProcessedChunkId w)
       || Worker.queued (chunkId r) (processingQueue w)
    then w
    else enqueue r w
  else begin r w.

(** The streamer calls [callback_function (output)] of the activation at
    index [i] at the time [now]. *)
Definition token (i : nat) (a : activation) (output : string) (now : JS.number)
    (w : state) : state :=
  let result :=
    Loader.callback_function (chunkId (act_request a)) output now (act_streamer a) in
  {| isCurrentlyProcessing := isCurrentlyProcessing w;
     lastProcessedChunkId := lastProcessedChunkId w;
     processingQueue := processingQueue w;
     calls := <[i := {| act_request := act_request a; act_streamer := fst result |}]>
                (calls w);
     timers := timers w;
     posted := posted w ++ [snd (snd result)] |}.

(** The rest of the activation at index [i]: the terminal message, then
    the [finally] block. *)
Definition settle (i : nat) (a : activation) (o : outcome) (w : state) : state :=
  match processingQueue w with
  | [] =>
      {| isCurrentlyProcessing := false;
         lastProcessedChunkId := lastProcessedChunkId w;
         processingQueue := [];
         calls := delete i (calls w);
         timers := timers w;
         posted := posted w ++ [Worker.terminal (act_request a) o] |}
  | nextItem :: rest =>
      {| isCurrentlyProcessing := false;
         lastProcessedChunkId := lastProcessedChunkId w;
         processingQueue := rest;
         calls := delete i (calls w);
         timers := timers w ++ [nextItem];
         posted := posted w ++ [Worker.terminal (act_request a) o] |}
  end.

Definition fired (w : state) : state :=
  {| isCurrentlyProcessing := isCurrentlyProcessing w;
     lastProcessedChunkId := lastProcessedChunkId w;
     processingQueue := processingQueue w;
     calls := calls w;
     timers := tail (timers w);
     posted := posted w |}.

(** One turn of the worker's event loop: a ['generate'] message, the timer
    at the head of [timers], a token streamed to the activation at index
    [i], or the end of its awaited inference. *)
Inductive event : Type :=
  | Message (r : request)
  | Timeout
  | Token (i : nat) (output : string) (now : JS.number)
  | Settle (i : nat) (o : outcome).

Definition step (w : state) (e : event) : option state :=
  match e with
  | Message r => Some (generate r w)
  | Timeout =>
      match timers w with
      | [] => None
      | nextItem :: _ => Some (generate nextItem (fired w))
      end
  | Token i output now =>
      match calls w !! i with
      | None => None
      | Some a => Some (token i a output now w)
      end
  | Settle i o =>
      match calls w !! i with
      | None => None
      | Some a => Some (settle i a o w)
      end
  end.

Fixpoint exec (evs : list event) (w : state) : option state :=
  match evs with
  | [] => Some w
  | e :: evs' =>
      match step w e with
      | None => None
      | Some w' => exec evs' w'
      end
  end.

(** The ['update'] messages of a chunk for the texts of its tokens. *)
Definition updates (id : chunk_id) (texts : list string) : list message :=
  imap (fun k output => Update output (Z.of_nat k + 1) id) texts.

(** All messages of one chunk processed from its start to its end. *)
Definition exchange (done : request * list string * outcome) : list message :=
  let '(r, texts, o) := done in
  Start (chunkId r) :: updates (chunkId r) texts ++ [Worker.terminal r o].

(** The messages of the activations in flight: [l] is empty when there
    is none, and the start and the updates so far of the first one. *)
Definition in_flight (w : state) (l : list message) : Prop :=
  match calls w with
  | [] => l = []
  | a :: _ =>
      ∃ texts, l = Start (chunkId (act_request a))
                   :: updates (chunkId (act_request a)) texts ∧
               Loader.numTokens (act_streamer a) = Z.of_nat (length texts)
  end.

(** What holds of the worker between two events: the flag is set exactly
    when one activation is in flight, and the messages posted are the
    exchanges of the chunks done followed by those of the chunk in
    flight. *)
Definition orderly (w : state) : Prop :=
  ((isCurrentlyProcessing w = true ∧ ∃ a, calls w = [a]) ∨
   (isCurrentlyProcessing w = false ∧ calls w = [])) ∧
  ∃ done open, posted w = flat_map exchange done ++ open ∧ in_flight w open.

Definition is_update (m : message) : bool :=
  match m with Update _ _ _ => true | _ => false end.

(** The worker without its streamer: the requests of the activations and
    the messages other than ['update']. *)
Definition erase (w : state) : Worker.state :=
  {| Worker.isCurrentlyProcessing := isCurrentlyProcessing w;
     Worker.lastProcessedChunkId := lastProcessedChunkId w;
     Worker.processingQueue := processingQueue w;
     Worker.calls := List.map act_request (calls w);
     Worker.timers := timers w;
     Worker.posted := List.filter (fun m => negb (is_update m)) (posted w) |}.

(** The events other than tokens. *)
Definition skeleton (evs : list event) : list Worker.event :=
  omap (fun e => match e with
                 | Message r => Some (Worker.Message r)
                 | Timeout => Some Worker.Timeout
                 | Token _ _ _ => None
                 | Settle i o => Some (Worker.Settle i o)
                 end) evs.

(** Chunk 5 is decoded with two tokens streamed, then chunk 6 is started
    and one token streamed. *)
Definition spoken : list event :=
  [Message (Examples.chunk 5);
   Token 0 " Hello" (JS.of_Z 100); Token 0 " world" (JS.of_Z 150);
   Settle 0 (Decoded [" Hello world"]);
   Message (Examples.chunk 6); Token 0 " Bye" (JS.of_Z 400)].

Definition after (evs : list event) : state := default init (exec evs init).

End Streaming.

(** ** More of the page *)

Module Session.
Import Page.

(** The samples of chunk [k]: from [k * MAX_SAMPLES] to the end of the
    window or of the recording. *)
Definition chunk_of (audio : list JS.number) (k : Z) : list JS.number :=
  slice audio (k * MAX_SAMPLES)
        (Z.min (k * MAX_SAMPLES + MAX_SAMPLES) (Z.of_nat (length audio))).

(** The request [processChunks] posts for chunk [k]. *)
Definition request_of (audio : list JS.number) (lang : string) (k : Z) : request :=
  Request (chunk_of audio k) lang (Index k).

(** Every request posted is the request of a chunk of [audio]. *)
Definition posts_chunks_of (audio : list JS.number) (lang : string)
    (l : list action) : Prop :=
  ∀ r, PostMessage r ∈ l → ∃ k, 0 ≤ k ∧ r = request_of audio lang k.

(** The page when App is first rendered: the initial values of its
    [useState] calls, no component mounted and [window.chunkResolvers]
    not yet defined. *)
Definition initial : state :=
  {| status := StatusNull; loadingMessage := ""; progressItems := [];
     text := ""; language := "en"; mode := ModeRealtime; chunkResolvers := None;
     processingProgress := JS.of_Z 0; isProcessingFullFile := false;
     file_isProcessing := false; suspended := None;
     realtime_isProcessing := false; log := [] |}.

(** The files of the progress items, in the order of the list. *)
Definition files (st : state) : list string := (progressItems st).*1.

End Session.


(** ** The page and the worker together *)

Module System.

(** The two contexts and the two message channels between them.  Each
    channel delivers in the order of the [postMessage] calls: [taken]
    requests of the page's log have reached the worker's listener, [shown]
    messages of the worker have reached the listeners of the page. *)
Record state : Type := State {
  page : Page.state;
  worker : Worker.state;
  taken : nat;
  shown : nat;
}.

(** One turn of one of the two event loops. *)
Inductive move : Type :=
  (** the worker's listener receives the next request: [generate (data)] *)
  | Post
  (** the listeners of the page receive the next message of the worker *)
  | Tell
  (** the timer at the head of the worker's timers fires *)
  | Tick
  (** the inference awaited by the activation at index [i] ends *)
  | Finish (i : nat) (o : outcome).

Definition with_worker (s : state) (w : option Worker.state) : option state :=
  match w with
  | Some w' =>
      Some {| page := page s; worker := w'; taken := taken s; shown := shown s |}
  | None => None
  end.

Definition step (s : state) (mv : move) : option state :=
  match mv with
  | Post =>
      match Page.requests (Page.log (page s)) !! taken s with
      | Some r =>
          Some {| page := page s; worker := Worker.generate r (worker s);
                  taken := S (taken s); shown := shown s |}
      | None => None
      end
  | Tell =>
      match Worker.posted (worker s) !! shown s with
      | Some m =>
          Some {| page := Page.deliver m (page s); worker := worker s;
                  taken := taken s; shown := S (shown s) |}
      | None => None
      end
  | Tick => with_worker s (Worker.step (worker s) Worker.Timeout)
  | Finish i o => with_worker s (Worker.step (worker s) (Worker.Settle i o))
  end.

Fixpoint run (mvs : list move) (s : state) : option state :=
  match mvs with
  | [] => Some s
  | mv :: mvs' =>
      match step s mv with
      | None => None
      | Some s' => run mvs' s'
      end
  end.

(** A file has been decoded and [processChunks] has posted its first
    batch; the worker has processed nothing yet. *)
Definition start (recording : list JS.number) : state :=
  {| page := Page.processAudioFile recording Page.file_page;
     worker := Worker.init; taken := 0; shown := 0 |}.

(** The chunk in flight ends with [o]; then, for every outcome of [os],
    the timer fires and the chunk it has started ends. *)
Definition drain_moves (o : outcome) (os : list outcome) : list move :=
  Finish 0 o :: flat_map (fun o' => [Tick; Finish 0 o']) os.

(** One batch: its requests reach the worker, the worker decodes chunk
    after chunk to the texts [t], and its messages reach the page. *)
Definition wave_moves (t : Z → string) (chunks : list Z) : list move :=
  match chunks with
  | [] => []
  | i :: rest =>
      replicate (length chunks) Post ++
      drain_moves (Decoded [t i]) (List.map (fun k => Decoded [t k]) rest) ++
      replicate (2 * length chunks) Tell
  end.

(** Batch after batch for a recording of [totalChunks] chunks. *)
Definition schedule (t : Z → string) (totalChunks : Z) : list move :=
  flat_map (fun q => wave_moves t (Page.wave totalChunks (Page.MAX_PARALLEL_CHUNKS * q)))
           (seqZ 0 (JS.ceil_div totalChunks Page.MAX_PARALLEL_CHUNKS)).

(** What the worker posts for chunk [k] decoded to [t k]. *)
Definition exchange_of (t : Z → string) (k : Z) : list message :=
  [Start (Index k); Complete [t k] (Index k)].

(** Between two batches: the chunks below [i] have gone through the worker
    and their messages through the page, and the worker is at rest. *)
Definition settled (recording : list JS.number) (totalChunks : Z)
    (t : Z → string) (i : Z) (s : state) : Prop :=
  page s = Page.exec (Examples.completions t i)
                     (Page.processChunks recording totalChunks Page.file_page) ∧
  Worker.isCurrentlyProcessing (worker s) = false ∧
  Worker.processingQueue (worker s) = [] ∧
  Worker.timers (worker s) = [] ∧
  Worker.calls (worker s) = [] ∧
  Worker.lastProcessedChunkId (worker s) = Index (i - 1) ∧
  Worker.posted (worker s) = flat_map (exchange_of t) (seqZ 0 i) ∧
  taken s = Z.to_nat i ∧
  shown s = (2 * Z.to_nat i)%nat.

End System.


(** * Properties of worker.js *)

Module WorkerFacts.
Import Worker.

#[local] Arguments count : simpl never.

(** The link between the processing flag, the suspended activations and
    the messages posted so far. *)
Definition consistent (w : state) : Prop :=
  ((isCurrentlyProcessing w = true ∧
    ∃ r, calls w = [r] ∧ lastProcessedChunkId w = chunkId r) ∨
   (isCurrentlyProcessing w = false ∧ calls w = [])) ∧
  count is_start (posted w)
  = (count is_terminal (posted w) + length (calls w))%nat.

Lemma count_app p l1 l2 : count p (l1 ++ l2) = (count p l1 + count p l2)%nat.
Proof. unfold count. now rewrite List.filter_app, length_app. Qed.

Lemma count_one p m : count p [m] = if p m then 1%nat else 0%nat.
Proof. unfold count. cbn. now destruct (p m). Qed.

Lemma terminal_is_terminal r o : is_terminal (terminal r o) = true.
Proof. now destruct o. Qed.

Lemma terminal_not_start r o : is_start (terminal r o) = false.
Proof. now destruct o. Qed.

Lemma generate_busy r w :
  isCurrentlyProcessing w = true →
  generate r w = w ∨ generate r w = enqueue r w.
Proof.
  intros Hbusy. unfold generate. rewrite Hbusy.
  destruct (js_le _ _ || queued _ _); auto.
Qed.

Lemma generate_idle r w :
  isCurrentlyProcessing w = false → generate r w = begin r w.
Proof. intros Hidle. unfold generate. now rewrite Hidle. Qed.

Lemma consistent_init : consistent init.
Proof. split; [right; split; reflexivity | reflexivity]. Qed.

Lemma consistent_generate r w : consistent w → consistent (generate r w).
Proof.
  intros [Hflag Hcount].
  destruct Hflag as [[Hbusy Hcalls] | [Hidle Hcalls]].
  - destruct (generate_busy r w Hbusy) as [-> | ->];
      (split; [left; split; assumption | exact Hcount]).
  - rewrite (generate_idle r w Hidle). split.
    + left. cbn. rewrite Hcalls. split; [reflexivity |]. now exists r.
    + cbn. rewrite !count_app, !count_one, Hcount, Hcalls. cbn. lia.
Qed.

Lemma consistent_settle i r o w :
  consistent w → calls w !! i = Some r → consistent (settle i r o w).
Proof.
  intros [Hflag Hcount] Hlook.
  assert (Hone : calls w = [r] ∧ i = 0%nat).
  { destruct Hflag as [[_ (r' & Hcalls & _)] | [_ Hcalls]];
      rewrite Hcalls in Hlook.
    - destruct i; cbn in Hlook; [| discriminate].
      injection Hlook as ->. now rewrite Hcalls.
    - discriminate. }
  destruct Hone as [Hcalls ->].
  unfold settle.
  destruct (processingQueue w); (split; [right; cbn; now rewrite Hcalls |]);
    cbn; rewrite !count_app, !count_one, Hcount, Hcalls;
    rewrite terminal_is_terminal, terminal_not_start; cbn; lia.
Qed.

Lemma consistent_step w e w' : consistent w → step w e = Some w' → consistent w'.
Proof.
  intros Hw Hstep. destruct e as [r | | i o]; cbn in Hstep.
  - injection Hstep as <-. now apply consistent_generate.
  - destruct (timers w) as [| nextItem rest] eqn:Htimers; [discriminate |].
    injection Hstep as <-. apply consistent_generate. exact Hw.
  - destruct (calls w !! i) as [r |] eqn:Hlook; [| discriminate].
    injection Hstep as <-. now apply consistent_settle.
Qed.

Lemma consistent_exec evs : ∀ w w',
  consistent w → exec evs w = Some w' → consistent w'.
Proof.
  induction evs as [| e evs IH]; intros w w' Hw Hexec; cbn in Hexec.
  - now injection Hexec as <-.
  - destruct (step w e) as [w1 |] eqn:Hstep; [| discriminate].
    eapply IH; [| exact Hexec]. eapply consistent_step; eassumption.
Qed.

Lemma reachable_consistent evs w : exec evs init = Some w → consistent w.
Proof. apply consistent_exec, consistent_init. Qed.

Lemma exec_app evs1 evs2 w :
  exec (evs1 ++ evs2) w = exec evs1 w ≫= exec evs2.
Proof.
  revert w. induction evs1 as [| e evs1 IH]; intros w; cbn; [reflexivity |].
  destruct (step w e); [apply IH | reflexivity].
Qed.

(** C1.  After any sequence of events of the worker at most one
    activation of [generate] is inside its [try] block; the starts posted
    so far exceed the terminal messages by exactly the number of such
    activations; a request that finds [isCurrentlyProcessing] set is queued
    or dropped and starts nothing; and a step that starts a chunk is taken
    from a state without a chunk in flight, every earlier start having its
    terminal message. *)
Theorem single_flight (evs : list event) (w : state) :
  exec evs init = Some w →
  (length (calls w) ≤ 1)%nat ∧
  (isCurrentlyProcessing w = true ↔ calls w ≠ []) ∧
  count is_start (posted w)
  = (count is_terminal (posted w) + length (calls w))%nat ∧
  (isCurrentlyProcessing w = true →
   ∀ r, (generate r w = enqueue r w ∨ generate r w = w) ∧
        calls (generate r w) = calls w ∧
        posted (generate r w) = posted w) ∧
  (∀ e w', step w e = Some w' →
           (length (calls w) < length (calls w'))%nat →
           isCurrentlyProcessing w = false ∧ calls w = [] ∧
           count is_start (posted w) = count is_terminal (posted w)).
Proof.
  intros Hexec. pose proof (reachable_consistent evs w Hexec) as [Hflag Hcount].
  split; [| split; [| split; [exact Hcount | split]]].
  - destruct Hflag as [[_ (r & -> & _)] | [_ ->]]; cbn; lia.
  - destruct Hflag as [[-> (r & -> & _)] | [-> ->]]; split; congruence.
  - intros Hbusy r.
    destruct (generate_busy r w Hbusy) as [-> | ->]; cbn; auto.
  - intros e w' Hstep Hgrow.
    destruct Hflag as [[Hbusy (r0 & Hcalls & _)] | [Hidle Hcalls]].
    + exfalso. destruct e as [r | | i o]; cbn in Hstep.
      * injection Hstep as <-.
        destruct (generate_busy r w Hbusy) as [Heq | Heq];
          rewrite Heq in Hgrow; cbn in Hgrow; lia.
      * destruct (timers w) as [| nextItem rest]; [discriminate |].
        injection Hstep as <-.
        match type of Hgrow with
        | context [generate ?r ?u] =>
            destruct (generate_busy r u Hbusy) as [Heq | Heq];
              rewrite Heq in Hgrow; cbn in Hgrow; lia
        end.
      * destruct (calls w !! i) as [r |] eqn:Hlook; [| discriminate].
        injection Hstep as <-. unfold settle in Hgrow.
        destruct (processingQueue w); cbn in Hgrow;
          rewrite length_delete in Hgrow by (rewrite Hlook; eauto); lia.
    + rewrite Hcalls in Hcount. cbn in Hcount.
      repeat split; [exact Hidle | exact Hcalls | lia].
Qed.

Lemma queued_spec c q :
  queued c q = true ↔ ∃ item, item ∈ q ∧ chunkId item = c.
Proof.
  unfold queued. rewrite existsb_exists. split.
  - intros (item & Hin & Heq). exists item. split; [now apply list_elem_of_In |].
    destruct (chunkId item), c; cbn in Heq; try discriminate; [| reflexivity].
    apply Z.eqb_eq in Heq. now subst.
  - intros (item & Hin & <-). exists item. split; [now apply list_elem_of_In |].
    destruct (chunkId item); cbn; [apply Z.eqb_refl | reflexivity].
Qed.

Lemma js_le_refl c : js_le c c = true.
Proof. destruct c; cbn; [apply Z.leb_refl | reflexivity]. Qed.

Lemma generate_stale w r n :
  isCurrentlyProcessing w = true →
  chunkId r = Index n →
  (∃ m, lastProcessedChunkId w = Index m ∧ n ≤ m) ∨
  (∃ item, item ∈ processingQueue w ∧ chunkId item = Index n) →
  generate r w = w.
Proof.
  intros Hbusy Hid Hstale. unfold generate. rewrite Hbusy, Hid.
  destruct Hstale as [(m & -> & Hle) | Hq].
  - cbn. now rewrite (proj2 (Z.leb_le n m) Hle).
  - rewrite (proj2 (queued_spec _ _) Hq). now rewrite orb_true_r.
Qed.

(** C2 (amended).  While a chunk is being processed, a request with a
    numeric id that is at most [lastProcessedChunkId], or that is the id of
    a queued item, changes nothing: it is neither queued nor started. *)
Theorem dedup_when_busy (w : state) (r : request) (n : Z) :
  isCurrentlyProcessing w = true →
  chunkId r = Index n →
  (∃ m, lastProcessedChunkId w = Index m ∧ n ≤ m) ∨
  (∃ item, item ∈ processingQueue w ∧ chunkId item = Index n) →
  generate r w = w ∧
  processingQueue (generate r w) = processingQueue w ∧
  calls (generate r w) = calls w ∧
  posted (generate r w) = posted w.
Proof.
  intros Hbusy Hid Hstale.
  now rewrite (generate_stale w r n Hbusy Hid Hstale).
Qed.

(** C3 (amended).  A call of [generate] that finds a chunk being processed
    leaves [lastProcessedChunkId] as it is; a call that finds the worker
    idle sets it to the id of the request, whatever the previous value; so
    the value does not decrease under [<=] when the worker is busy or the
    id of the request is not below it. *)
Theorem high_water_mark_step (w : state) (r : request) :
  (isCurrentlyProcessing w = true →
   lastProcessedChunkId (generate r w) = lastProcessedChunkId w) ∧
  (isCurrentlyProcessing w = false →
   lastProcessedChunkId (generate r w) = chunkId r) ∧
  (isCurrentlyProcessing w = true ∨
   js_le (lastProcessedChunkId w) (chunkId r) = true →
   js_le (lastProcessedChunkId w) (lastProcessedChunkId (generate r w)) = true).
Proof.
  assert (Hbusy : isCurrentlyProcessing w = true →
                  lastProcessedChunkId (generate r w) = lastProcessedChunkId w).
  { intros H. now destruct (generate_busy r w H) as [-> | ->]. }
  assert (Hidle : isCurrentlyProcessing w = false →
                  lastProcessedChunkId (generate r w) = chunkId r).
  { intros H. now rewrite (generate_idle r w H). }
  split; [exact Hbusy | split; [exact Hidle |]].
  intros [H | H].
  - rewrite (Hbusy H). apply js_le_refl.
  - destruct (isCurrentlyProcessing w) eqn:Hflag.
    + rewrite (Hbusy eq_refl). apply js_le_refl.
    + now rewrite (Hidle eq_refl).
Qed.


(** C10 (amended).  [lastProcessedChunkId] is set when processing begins
    and is not touched when the call ends.  So after chunk [k] has failed,
    a new request for [k] that finds another chunk being processed is
    dropped when [lastProcessedChunkId] is a number not below [k], and a
    new request for [k] that finds the worker idle is started again. *)
Theorem failed_id_resubmission (evs : list event) (w : state) (r : request) (k : Z) :
  exec evs init = Some w →
  chunkId r = Index k →
  (∃ data, Error data (Some (Index k)) ∈ posted w) →
  (∀ u r', isCurrentlyProcessing u = false →
           lastProcessedChunkId (generate r' u) = chunkId r') ∧
  (∀ u i r' o, lastProcessedChunkId (settle i r' o u) = lastProcessedChunkId u) ∧
  (isCurrentlyProcessing w = true →
   (∃ m, lastProcessedChunkId w = Index m ∧ k ≤ m) →
   generate r w = w) ∧
  (isCurrentlyProcessing w = false →
   calls (generate r w) = [r] ∧
   posted (generate r w) = posted w ++ [Start (Index k)]).
Proof.
  intros Hexec Hid _.
  split; [| split; [| split]].
  - intros u r' Hidle. now rewrite (generate_idle r' u Hidle).
  - intros u i r' o. unfold settle. now destruct (processingQueue u).
  - intros Hbusy Hmark. eapply generate_stale; eauto.
  - intros Hidle. rewrite (generate_idle r w Hidle). cbn. rewrite Hid.
    destruct (reachable_consistent evs w Hexec) as [[[Hbusy _] | [_ ->]] _].
    + congruence.
    + split; reflexivity.
Qed.

(** ** The theorems at concrete inputs *)

Import Examples.

Lemma single_flight_witness :
  exec batch_arrives init = Some (after batch_arrives) ∧
  (length (calls (after batch_arrives)) ≤ 1)%nat ∧
  (isCurrentlyProcessing (after batch_arrives) = true
   ↔ calls (after batch_arrives) ≠ []).
Proof.
  split; [reflexivity |].
  pose proof (single_flight batch_arrives (after batch_arrives) eq_refl) as H.
  split; [exact (proj1 H) | exact (proj1 (proj2 H))].
Defined.

Lemma dedup_when_busy_witness :
  isCurrentlyProcessing (after batch_arrives) = true ∧
  chunkId (chunk 1) = Index 1 ∧
  generate (chunk 1) (after batch_arrives) = after batch_arrives.
Proof.
  split; [reflexivity | split; [reflexivity |]].
  refine (proj1 (dedup_when_busy (after batch_arrives) (chunk 1) 1 eq_refl eq_refl _)).
  right. exists (chunk 1). split; [| reflexivity].
  apply list_elem_of_In. left. reflexivity.
Defined.

(** C2 as stated fails: the worker is idle after chunk 5, its
    [lastProcessedChunkId] is 5, and a request for chunk 3 is started. *)
Lemma dedup_skipped_when_idle :
  exec five_done init = Some (after five_done) ∧
  isCurrentlyProcessing (after five_done) = false ∧
  lastProcessedChunkId (after five_done) = Index 5 ∧
  chunkId (chunk 3) = Index 3 ∧
  3 ≤ 5 ∧
  generate (chunk 3) (after five_done) ≠ after five_done ∧
  calls (generate (chunk 3) (after five_done)) = [chunk 3] ∧
  posted (generate (chunk 3) (after five_done))
  = posted (after five_done) ++ [Start (Index 3)].
Proof.
  repeat split; try reflexivity; [lia |].
  intros H. apply (f_equal isCurrentlyProcessing) in H. discriminate H.
Qed.

Lemma high_water_mark_step_witness :
  isCurrentlyProcessing (after batch_arrives) = true ∧
  lastProcessedChunkId (generate (chunk 7) (after batch_arrives))
  = lastProcessedChunkId (after batch_arrives).
Proof.
  split; [reflexivity |].
  exact (proj1 (high_water_mark_step (after batch_arrives) (chunk 7)) eq_refl).
Defined.

(** C3 as stated fails: [lastProcessedChunkId] is 5 when the worker is
    idle after chunk 5, and 3 after the call of [generate] for chunk 3;
    after the call for the real-time chunk it is the string ['realtime'],
    to which no number compares. *)
Lemma high_water_mark_decreases :
  exec five_done init = Some (after five_done) ∧
  lastProcessedChunkId (after five_done) = Index 5 ∧
  lastProcessedChunkId (generate (chunk 3) (after five_done)) = Index 3 ∧
  js_le (lastProcessedChunkId (after five_done))
        (lastProcessedChunkId (generate (chunk 3) (after five_done))) = false ∧
  ¬ (5 ≤ 3) ∧
  lastProcessedChunkId (generate live (after five_done)) = Realtime ∧
  js_le (lastProcessedChunkId (after five_done))
        (lastProcessedChunkId (generate live (after five_done))) = false.
Proof. repeat split; try reflexivity. lia. Qed.


Lemma failed_id_resubmission_witness :
  exec five_failed init = Some (after five_failed) ∧
  chunkId (chunk 5) = Index 5 ∧
  (∃ data, Error data (Some (Index 5)) ∈ posted (after five_failed)) ∧
  (isCurrentlyProcessing (after five_failed) = false →
   calls (generate (chunk 5) (after five_failed)) = [chunk 5] ∧
   posted (generate (chunk 5) (after five_failed))
   = posted (after five_failed) ++ [Start (Index 5)]).
Proof.
  assert (Hfail : ∃ data, Error data (Some (Index 5)) ∈ posted (after five_failed)).
  { eexists. apply list_elem_of_In. right. left. reflexivity. }
  split; [reflexivity | split; [reflexivity | split; [exact Hfail |]]].
  exact (proj2 (proj2 (proj2
    (failed_id_resubmission five_failed (after five_failed) (chunk 5) 5
       eq_refl eq_refl Hfail)))).
Defined.

(** C10 as stated fails: chunk 5 has failed; a new request for chunk 5 that
    finds the worker idle is started again, and one that finds chunk 3
    being processed is queued, not dropped. *)
Lemma failed_id_retried :
  exec five_failed init = Some (after five_failed) ∧
  posted (after five_failed)
  = [Start (Index 5);
     Error "Error processing audio segment 5: Error: device lost" (Some (Index 5))] ∧
  calls (generate (chunk 5) (after five_failed)) = [chunk 5] ∧
  posted (generate (chunk 5) (after five_failed))
  = posted (after five_failed) ++ [Start (Index 5)] ∧
  exec five_failed_three_running init = Some (after five_failed_three_running) ∧
  calls (after five_failed_three_running) = [chunk 3] ∧
  generate (chunk 5) (after five_failed_three_running)
  = enqueue (chunk 5) (after five_failed_three_running) ∧
  processingQueue (generate (chunk 5) (after five_failed_three_running)) = [chunk 5].
Proof. repeat split; reflexivity. Qed.


End WorkerFacts.

(** * Properties of the page *)

Module PageFacts.
Import Page Examples.

(** Reduce the projections of an updated state, and nothing else. *)
Ltac fields :=
  cbn [set_text set_chunkResolvers set_suspended set_realtime_isProcessing
       set_status set_loading set_progressItems add_log finish
       status loadingMessage progressItems text language mode chunkResolvers
       processingProgress isProcessingFullFile file_isProcessing suspended
       realtime_isProcessing log f_audio f_totalChunks f_i f_pending] in *.

Lemma sent_app l1 l2 : sent (l1 ++ l2) = sent l1 ++ sent l2.
Proof. apply omap_app. Qed.

Lemma lookup_app_two {A} (l : list A) (x y z : A) (a : nat) :
  (l ++ [x; y]) !! a = Some z →
  l !! a = Some z ∨ (a = length l ∧ z = x) ∨ (a = S (length l) ∧ z = y).
Proof.
  intros H. apply lookup_app_Some in H as [H | [Hle H]]; [now left | right].
  destruct (a - length l)%nat as [| [| n]] eqn:Hd; cbn in H; try discriminate.
  - left. split; [lia | congruence].
  - right. split; [lia | congruence].
Qed.

Lemma lookup_app_one {A} (l : list A) (x z : A) (a : nat) :
  (l ++ [x]) !! a = Some z → l !! a = Some z ∨ (a = length l ∧ z = x).
Proof.
  intros H. apply lookup_app_Some in H as [H | [Hle H]]; [now left | right].
  destruct (a - length l)%nat as [| n] eqn:Hd; cbn in H; try discriminate.
  split; [lia | congruence].
Qed.

Lemma barrier_extend l ext :
  barrier l →
  (∀ a r k j, ext !! a = Some (PostMessage r) → chunkId r = Index k →
              0 ≤ j < MAX_PARALLEL_CHUNKS * (k / MAX_PARALLEL_CHUNKS) →
              Resolved j ∈ l) →
  barrier (l ++ ext).
Proof.
  intros Hl Hext a r k j Hlook Hid Hj.
  apply lookup_app_Some in Hlook as [Hlook | [Hle Hlook]].
  - destruct (Hl a r k j Hlook Hid Hj) as (b & Hb & Hres).
    exists b. split; [exact Hb |]. now apply lookup_app_l_Some.
  - apply (Hext _ r k j Hlook Hid) in Hj.
    apply list_elem_of_lookup in Hj as [b Hb].
    exists b. split; [apply lookup_lt_Some in Hb; lia |].
    now apply lookup_app_l_Some.
Qed.

Lemma wave_index (q c : Z) :
  0 ≤ c < MAX_PARALLEL_CHUNKS →
  MAX_PARALLEL_CHUNKS * ((MAX_PARALLEL_CHUNKS * q + c) / MAX_PARALLEL_CHUNKS)
  = MAX_PARALLEL_CHUNKS * q.
Proof. unfold MAX_PARALLEL_CHUNKS. intros Hc. Z.div_mod_to_equations. lia. Qed.

Lemma seqZ_snoc (n : Z) : 0 ≤ n → seqZ 0 (n + 1) = seqZ 0 n ++ [n].
Proof.
  intros Hn. rewrite seqZ_app by lia. now f_equal.
Qed.

Lemma dispatch_step audio N i c st :
  0 ≤ i → (∃ q, i = MAX_PARALLEL_CHUNKS * q) → 0 ≤ c < MAX_PARALLEL_CHUNKS →
  dispatching N i c st →
  dispatching N i (c + 1) (dispatch audio N (i + c) st).
Proof.
  intros Hi [q Hq] Hc [Hmode Hflag Hres Hsent Hdone Hbar Hprog].
  split; cbn.
  - exact Hmode.
  - exact Hflag.
  - intros m c' p [= <-] Hlook.
    destruct (decide (c' = Index (i + c))) as [-> | Hne].
    + rewrite lookup_insert_eq in Hlook. injection Hlook as <-.
      split; [reflexivity | lia].
    + rewrite lookup_insert_ne in Hlook by congruence.
      destruct (chunkResolvers st) as [m |]; cbn in Hlook.
      * destruct (Hres m c' p eq_refl Hlook). split; [assumption | lia].
      * now rewrite lookup_empty in Hlook.
  - rewrite sent_app, Hsent. cbn.
    replace (i + (c + 1)) with ((i + c) + 1) by lia. now rewrite seqZ_snoc by lia.
  - intros j Hj. apply elem_of_app. left. now apply Hdone.
  - apply barrier_extend; [exact Hbar |].
    intros a r k j Hlook Hid Hj. apply Hdone.
    destruct a as [| [| a]]; cbn in Hlook; try discriminate.
    injection Hlook as <-. cbn in Hid. injection Hid as <-.
    rewrite Hq, wave_index in Hj by exact Hc. lia.
  - intros a r Hlook. apply lookup_app_two in Hlook as [Hlook | [[_ Heq] | [-> Heq]]].
    + destruct (Hprog a r Hlook) as (k & b & Hid & -> & Hb).
      exists k, b. repeat split; [assumption |]. now apply lookup_app_l_Some.
    + discriminate.
    + injection Heq as ->. exists (i + c), (length (log st)).
      split; [reflexivity |]. split; [reflexivity |].
      now apply list_lookup_middle.
Qed.


Lemma dispatch_fold audio N i st (n : nat) :
  0 ≤ i → (∃ q, i = MAX_PARALLEL_CHUNKS * q) → Z.of_nat n ≤ MAX_PARALLEL_CHUNKS →
  dispatching N i 0 st →
  dispatching N i (Z.of_nat n)
    (foldl (fun s j => dispatch audio N (i + j) s) st (seqZ 0 (Z.of_nat n))).
Proof.
  intros Hi Hq. induction n as [| n IH]; intros Hn Hst; [exact Hst |].
  rewrite seqZ_S, foldl_app. cbn [foldl].
  rewrite Nat2Z.inj_succ. unfold Z.succ. rewrite Z.add_0_l.
  apply dispatch_step; [assumption | assumption | lia |].
  apply IH; [lia | exact Hst].
Qed.

Lemma dispatch_fold_keeps {A} (f : state → A) audio N i st l :
  (∀ k s, f (dispatch audio N k s) = f s) →
  f (foldl (fun s j => dispatch audio N (i + j) s) st l) = f st.
Proof.
  intros Hf. revert st. induction l as [| j l IH]; intros st; cbn; [reflexivity |].
  now rewrite IH, Hf.
Qed.

Lemma progress_then_post_snoc N l a :
  (∀ r, a ≠ PostMessage r) →
  progress_then_post N l → progress_then_post N (l ++ [a]).
Proof.
  intros Ha Hl i r Hlook. apply lookup_app_one in Hlook as [Hlook | [_ Heq]].
  - destruct (Hl i r Hlook) as (k & b & Hid & -> & Hb).
    exists k, b. repeat split; [assumption |]. now apply lookup_app_l_Some.
  - symmetry in Heq. now apply Ha in Heq.
Qed.

Lemma barrier_snoc l a :
  (∀ r, a ≠ PostMessage r) → barrier l → barrier (l ++ [a]).
Proof.
  intros Ha Hl. apply barrier_extend; [exact Hl |].
  intros [| i] r k j Hlook; cbn in Hlook; [| discriminate].
  injection Hlook as Heq. now apply Ha in Heq.
Qed.

Lemma wave_elem N i p :
  p ∈ wave N i ↔ i ≤ p < Z.min (i + MAX_PARALLEL_CHUNKS) N.
Proof. unfold wave. rewrite elem_of_seqZ. lia. Qed.

(** The loop entered at [i], all earlier batches awaited. *)
Lemma loop_inv audio N i st :
  0 ≤ i → (∃ q, i = MAX_PARALLEL_CHUNKS * q) →
  mode st = ModeFile →
  isProcessingFullFile st = true →
  (∀ m c p, chunkResolvers st = Some m → m !! c = Some p → False) →
  sent (log st) = seqZ 0 (Z.min i N) →
  (∀ j, 0 ≤ j < Z.min i N → Resolved j ∈ log st) →
  barrier (log st) →
  progress_then_post N (log st) →
  session_inv audio N (loop audio N i st).
Proof.
  intros Hi Hq Hmode Hflag Hres Hsent Hdone Hbar Hprog. unfold loop.
  destruct (i <? N) eqn:Hlt.
  - apply Z.ltb_lt in Hlt.
    set (b := Z.min MAX_PARALLEL_CHUNKS (N - i)).
    assert (Hb : 1 ≤ b ≤ MAX_PARALLEL_CHUNKS) by (unfold b, MAX_PARALLEL_CHUNKS; lia).
    assert (Hdis : dispatching N i b
              (foldl (fun s j => dispatch audio N (i + j) s) st (seqZ 0 b))).
    { rewrite <- (Z2Nat.id b) by lia.
      apply dispatch_fold; [assumption | assumption | lia |].
      split; try assumption.
      - intros m c p Hm Hlook. destruct (Hres m c p Hm Hlook).
      - now rewrite Z.add_0_r, Hsent, Z.min_l by lia.
      - intros j Hj. apply Hdone. lia. }
    destruct Hdis as [Hmode' Hflag' Hres' Hsent' Hdone' Hbar' Hprog'].
    split; unfold frontier, awaited; fields.
    + exact Hmode'.
    + exact Hflag'.
    + intros f [= <-]. fields. repeat split; try lia; try assumption.
      * fold b. rewrite seqZ_cons by lia. discriminate.
      * intros p Hp. exact Hp.
    + intros m c p Hm Hlook. destruct (Hres' m c p Hm Hlook) as [-> Hp].
      split; [reflexivity |]. eexists. split; [reflexivity |]. fields.
      apply elem_of_seqZ. lia.
    + rewrite Hsent'. f_equal. unfold b. lia.
    + exact Hdone'.
    + intros f j [= <-]. fields. intros Hin Hnot. now destruct Hnot.
    + exact Hbar'.
    + exact Hprog'.
    + intros [=].
  - apply Z.ltb_ge in Hlt. split; unfold frontier, awaited; fields.
    + exact Hmode.
    + reflexivity.
    + intros f [=].
    + intros m c p [=].
    + rewrite sent_app, Hsent, Z.min_r by lia. cbn. apply app_nil_r.
    + intros j Hj. apply elem_of_app. left. apply Hdone. lia.
    + intros f j [=].
    + apply barrier_snoc; [discriminate | exact Hbar].
    + apply progress_then_post_snoc; [discriminate | exact Hprog].
    + reflexivity.
Qed.


(** The invariant reads six variables of the page only. *)
Lemma session_inv_ext audio N st st' :
  mode st' = mode st →
  processingProgress st' = processingProgress st →
  isProcessingFullFile st' = isProcessingFullFile st →
  chunkResolvers st' = chunkResolvers st →
  suspended st' = suspended st →
  log st' = log st →
  session_inv audio N st → session_inv audio N st'.
Proof.
  intros Hm Hp Hf Hr Hs Hl [].
  split; unfold frontier, awaited; rewrite ?Hm, ?Hp, ?Hf, ?Hr, ?Hs, ?Hl; assumption.
Qed.

Lemma session_inv_unmount audio N st :
  session_inv audio N st → session_inv audio N (set_chunkResolvers None st).
Proof.
  intros []. split; unfold frontier, awaited; fields; try assumption.
  intros m c p [=].
Qed.

Lemma filter_other (p q : Z) (l : list Z) :
  q ∈ List.filter (fun x => negb (x =? p)) l ↔ q ∈ l ∧ q ≠ p.
Proof.
  rewrite !list_elem_of_In, filter_In, negb_true_iff, Z.eqb_neq. tauto.
Qed.

Lemma session_inv_resolve_chunk audio N id st :
  session_inv audio N st → session_inv audio N (resolve_chunk id st).
Proof.
  intros Hinv. unfold resolve_chunk.
  destruct (chunkResolvers st) as [m |] eqn:Hm; [| exact Hinv].
  destruct id as [c |]; [| exact Hinv].
  destruct (m !! c) as [p |] eqn:Hlook; [| exact Hinv].
  destruct Hinv as [Hmode Hflag Hframe Hres Hsent Hdone Hwave Hbar Hprog Hfin].
  destruct (Hres m c p Hm Hlook) as [-> (f & Hf & Hp)].
  destruct (Hframe f Hf) as (Haudio & Htotal & Hi & [q Hq] & Hne & Hin).
  unfold frontier, awaited in *. rewrite Hf in *.
  assert (Hflag' : isProcessingFullFile st = true).
  { rewrite Hflag. apply bool_decide_eq_true. eauto. }
  remember (List.filter (fun x => negb (x =? p)) (f_pending f)) as pending' eqn:Hfil.
  assert (Hmem : ∀ x, x ∈ pending' ↔ x ∈ f_pending f ∧ x ≠ p).
  { intros x. subst pending'. apply filter_other. }
  assert (Hrest : ∀ m' c' p', Some (delete (Index p) m) = Some m' →
            m' !! c' = Some p' → c' = Index p' ∧ p' ∈ pending').
  { intros m' c' p' [= <-] Hl. apply lookup_delete_Some in Hl as [Hc Hl].
    destruct (Hres m c' p' Hm Hl) as [-> (f' & Hf' & Hp')].
    injection Hf' as <-.
    split; [reflexivity |]. apply Hmem. split; [exact Hp' | congruence]. }
  unfold resolve. fields. rewrite Hf, <- Hfil. clear Hfil.
  destruct pending' as [| p1 rest].
  - rewrite Haudio, Htotal. apply loop_inv; fields.
    + unfold MAX_PARALLEL_CHUNKS. lia.
    + exists (q + 1). rewrite Hq. unfold MAX_PARALLEL_CHUNKS. lia.
    + exact Hmode.
    + exact Hflag'.
    + intros m' c' p' Hm' Hl. destruct (Hrest m' c' p' Hm' Hl) as [_ Hnil].
      now apply elem_of_nil in Hnil.
    + rewrite sent_app, Hsent. apply app_nil_r.
    + intros j Hj. apply elem_of_app.
      destruct (decide (j = p)) as [-> | Hjp];
        [right; apply list_elem_of_singleton; reflexivity | left].
      destruct (decide (j < f_i f)) as [Hlow | Hhigh]; [apply Hdone; lia |].
      apply (Hwave f j eq_refl); [apply wave_elem; lia |].
      intros Hjin. apply (elem_of_nil j), Hmem. now split.
    + apply barrier_snoc; [discriminate | exact Hbar].
    + apply progress_then_post_snoc; [discriminate | exact Hprog].
  - split; unfold frontier, awaited; fields.
    + exact Hmode.
    + rewrite Hflag'. symmetry. apply bool_decide_eq_true. eauto.
    + intros f' [= <-]. fields. repeat split; try lia; try assumption.
      * now exists q.
      * discriminate.
      * intros x Hx. apply Hin. now apply Hmem in Hx.
    + intros m' c' p' Hm' Hl. destruct (Hrest m' c' p' Hm' Hl) as [-> Hp'].
      split; [reflexivity |]. eexists. split; [reflexivity |]. exact Hp'.
    + rewrite sent_app, Hsent. apply app_nil_r.
    + intros j Hj. apply elem_of_app. left. now apply Hdone.
    + intros f' j [= <-]. fields. intros Hj Hnot. apply elem_of_app.
      destruct (decide (j = p)) as [-> | Hjp];
        [right; apply list_elem_of_singleton; reflexivity | left].
      apply (Hwave f j eq_refl Hj). intros Hjin. apply Hnot, Hmem. now split.
    + apply barrier_snoc; [discriminate | exact Hbar].
    + apply progress_then_post_snoc; [discriminate | exact Hprog].
    + intros [=].
Qed.


Lemma session_inv_file_handler audio N m st :
  session_inv audio N st → session_inv audio N (file_handleWorkerMessage m st).
Proof.
  intros Hinv. destruct m; try exact Hinv. cbn [file_handleWorkerMessage].
  destruct (isProcessingFullFile st); [| exact Hinv].
  destruct output as [| o ?]; [exact Hinv |].
  apply session_inv_resolve_chunk.
  now apply (session_inv_ext audio N st).
Qed.

Lemma session_inv_onMessageReceived audio N m st :
  session_inv audio N st → session_inv audio N (onMessageReceived m st).
Proof.
  intros Hinv.
  destruct m; cbn [onMessageReceived]; try exact Hinv;
    try (now apply (session_inv_ext audio N st)).
  apply session_inv_resolve_chunk. now apply (session_inv_ext audio N st).
Qed.

Lemma realtime_not_mounted audio N st :
  session_inv audio N st → realtime_mounted st = false.
Proof.
  intros []. unfold realtime_mounted. rewrite inv_mode0. now destruct (status st).
Qed.

Lemma session_inv_deliver audio N m st :
  session_inv audio N st → session_inv audio N (deliver m st).
Proof.
  intros Hinv. unfold deliver.
  rewrite (realtime_not_mounted audio N st Hinv).
  assert (Hfile : session_inv audio N
            (if file_mounted st then file_handleWorkerMessage m st else st)).
  { destruct (file_mounted st); [now apply session_inv_file_handler | exact Hinv]. }
  apply (session_inv_onMessageReceived audio N m) in Hfile.
  unfold unmount.
  destruct (file_mounted st && negb (file_mounted _));
    [now apply session_inv_unmount | exact Hfile].
Qed.

Lemma session_inv_exec audio N ms : ∀ st,
  session_inv audio N st → session_inv audio N (exec ms st).
Proof.
  induction ms as [| m ms IH]; intros st Hinv; [exact Hinv |].
  apply IH. now apply session_inv_deliver.
Qed.

Lemma barrier_nil : barrier [].
Proof. intros a r k j Hlook. now rewrite lookup_nil in Hlook. Qed.

Lemma progress_then_post_nil N : progress_then_post N [].
Proof. intros a r Hlook. now rewrite lookup_nil in Hlook. Qed.

Lemma session_inv_processChunks audio N :
  session_inv audio N (processChunks audio N file_page).
Proof.
  apply loop_inv; cbn.
  - lia.
  - exists 0. reflexivity.
  - reflexivity.
  - reflexivity.
  - intros m c p [=].
  - now rewrite seqZ_nil by lia.
  - intros j Hj. lia.
  - apply barrier_nil.
  - apply progress_then_post_nil.
Qed.

Lemma session_inv_reachable audio N ms :
  session_inv audio N (exec ms (processChunks audio N file_page)).
Proof. apply session_inv_exec, session_inv_processChunks. Qed.


(** ** What the batch coordinator leaves alone *)

Lemma resolve_chunk_keeps {A} (f : state → A) :
  (∀ m st, f (set_chunkResolvers m st) = f st) →
  (∀ r st, f (set_suspended r st) = f st) →
  (∀ l st, f (add_log l st) = f st) →
  (∀ audio N k st, f (dispatch audio N k st) = f st) →
  (∀ st, f (finish st) = f st) →
  ∀ id st, f (resolve_chunk id st) = f st.
Proof.
  intros Hres Hsus Hlog Hdis Hfin id st. unfold resolve_chunk.
  destruct (chunkResolvers st) as [m |]; [| reflexivity].
  destruct id as [c |]; [| reflexivity].
  destruct (m !! c) as [p |]; [| reflexivity].
  unfold resolve. destruct (suspended (add_log _ _)) as [f0 |].
  - destruct (List.filter _ _).
    + unfold loop. destruct (_ <? _).
      * now rewrite Hsus, dispatch_fold_keeps, Hlog, Hres by apply Hdis.
      * now rewrite Hfin, Hlog, Hres.
    + now rewrite Hsus, Hlog, Hres.
  - now rewrite Hlog, Hres.
Qed.

Lemma resolve_chunk_text id st : text (resolve_chunk id st) = text st.
Proof. now apply (resolve_chunk_keeps text). Qed.

Lemma resolve_chunk_status id st : status (resolve_chunk id st) = status st.
Proof. now apply (resolve_chunk_keeps status). Qed.

Lemma resolve_chunk_mode id st : mode (resolve_chunk id st) = mode st.
Proof. now apply (resolve_chunk_keeps mode). Qed.

Lemma processChunks_keeps {A} (f : state → A) audio N st :
  (∀ r st, f (set_suspended r st) = f st) →
  (∀ audio N k st, f (dispatch audio N k st) = f st) →
  (∀ st, f (finish st) = f st) →
  f (processChunks audio N st) = f st.
Proof.
  intros Hsus Hdis Hfin. unfold processChunks, loop. destruct (_ <? _).
  - now rewrite Hsus, dispatch_fold_keeps by apply Hdis.
  - apply Hfin.
Qed.

Lemma exec_snoc ms m st : exec (ms ++ [m]) st = deliver m (exec ms st).
Proof. unfold exec. now rewrite foldl_app. Qed.

(** ** Strings *)

Lemma chars_str l : JS.chars (JS.str l) = l.
Proof. apply list_ascii_of_string_of_list_ascii. Qed.

Lemma str_chars s : JS.str (JS.chars s) = s.
Proof. apply string_of_list_ascii_of_string. Qed.

Lemma string_app_cons c s1 s2 : String c s1 +:+ s2 = String c (s1 +:+ s2).
Proof. reflexivity. Qed.

Lemma chars_app s1 s2 : JS.chars (s1 +:+ s2) = JS.chars s1 ++ JS.chars s2.
Proof.
  unfold JS.chars. induction s1 as [| c s1 IH]; [reflexivity |].
  rewrite string_app_cons. cbn. now rewrite IH.
Qed.

Lemma string_app_nil_r s : s +:+ "" = s.
Proof.
  induction s as [| c s IH]; [reflexivity |].
  now rewrite string_app_cons, IH.
Qed.

Lemma string_app_assoc s1 s2 s3 : (s1 +:+ s2) +:+ s3 = s1 +:+ (s2 +:+ s3).
Proof.
  induction s1 as [| c s1 IH]; [reflexivity |].
  now rewrite !string_app_cons, IH.
Qed.

Lemma truthy_spec s : JS.truthy s = true ↔ s ≠ "".
Proof. destruct s; cbn; split; congruence. Qed.

Lemma endsWith_spec s search :
  JS.endsWith s search = true ↔ ∃ pre, s = pre +:+ search.
Proof.
  unfold JS.endsWith. rewrite bool_decide_eq_true. split.
  - intros [k Hk]. exists (JS.str k).
    rewrite <- (str_chars s), Hk, <- (str_chars (_ +:+ _)).
    now rewrite chars_app, chars_str.
  - intros [pre ->]. exists (JS.chars pre). apply chars_app.
Qed.

Lemma skip_head l c l' :
  JS.skip_white_space l = c :: l' → JS.is_white_space c = false.
Proof.
  induction l as [| x l IH]; cbn; [discriminate |].
  destruct (JS.is_white_space x) eqn:Hx; [exact IH |].
  intros [= <- _]. exact Hx.
Qed.

Lemma skip_snoc l c :
  JS.is_white_space c = false →
  JS.skip_white_space (l ++ [c]) = JS.skip_white_space l ++ [c].
Proof.
  intros Hc. induction l as [| x l IH]; cbn; [now rewrite Hc |].
  now destruct (JS.is_white_space x).
Qed.

Lemma skip_idem l :
  JS.skip_white_space (JS.skip_white_space l) = JS.skip_white_space l.
Proof.
  destruct (JS.skip_white_space l) as [| c l'] eqn:Hl; [reflexivity |].
  cbn. now rewrite (skip_head l c l' Hl).
Qed.

(** The characters of a trimmed string: nothing, or a first and a last
    character that are not white space. *)
Lemma trim_shape s :
  JS.chars (JS.trim s) = [] ∨
  ∃ c b, JS.chars (JS.trim s) = c :: rev b ∧
         JS.is_white_space c = false ∧ JS.skip_white_space b = b.
Proof.
  unfold JS.trim. rewrite chars_str.
  destruct (JS.skip_white_space (JS.chars s)) as [| c a] eqn:Ha; [now left | right].
  pose proof (skip_head _ _ _ Ha) as Hc.
  exists c, (JS.skip_white_space (rev a)). cbn [rev].
  rewrite skip_snoc by exact Hc. rewrite rev_app_distr. cbn.
  split; [reflexivity |]. split; [exact Hc | apply skip_idem].
Qed.

Lemma trim_idem s : JS.trim (JS.trim s) = JS.trim s.
Proof.
  destruct (trim_shape s) as [Hnil | (c & b & Hs & Hc & Hb)].
  - unfold JS.trim at 1. rewrite Hnil. cbn.
    rewrite <- (str_chars (JS.trim s)), Hnil. reflexivity.
  - unfold JS.trim at 1. rewrite Hs. cbn [JS.skip_white_space]. rewrite Hc.
    cbn [rev]. rewrite rev_involutive, skip_snoc, Hb by exact Hc.
    rewrite rev_app_distr. change (rev [c] ++ rev b) with (c :: rev b).
    rewrite <- Hs. apply str_chars.
Qed.


(** ** The transcript of a batch session *)

Lemma file_mounted_spec st :
  file_mounted st = true ↔ status st = StatusReady ∧ mode st = ModeFile.
Proof.
  unfold file_mounted. destruct (status st), (mode st); split; intros H;
    try discriminate; try (destruct H; discriminate); auto.
Qed.

(** What one completion adds to the transcript. *)
Lemma deliver_complete st output id :
  file_mounted st = true →
  isProcessingFullFile st = true →
  file_mounted (deliver (Complete output id) st) = true ∧
  text (deliver (Complete output id) st)
  = text st +:+ foldr String.app ""
      (List.map (String.app " ")
         (List.filter JS.truthy (omap first_text [Complete output id]))).
Proof.
  intros Hmounted Hflag. pose proof Hmounted as Hm.
  apply file_mounted_spec in Hm as [Hstatus Hmode].
  unfold deliver. rewrite Hmounted. unfold realtime_mounted. rewrite Hstatus, Hmode.
  cbn [onMessageReceived file_handleWorkerMessage]. rewrite Hflag.
  assert (Hkeep : ∀ st', status st' = StatusReady → mode st' = ModeFile →
                         unmount st st' = st' ∧ file_mounted st' = true).
  { intros st' Hs Hmo. assert (Hst' : file_mounted st' = true).
    { apply file_mounted_spec. now split. }
    unfold unmount. now rewrite Hst', andb_false_r. }
  destruct output as [| o rest].
  - destruct (Hkeep st Hstatus Hmode) as [-> ->]. split; [reflexivity |].
    cbn. now rewrite string_app_nil_r.
  - match goal with |- context [unmount st ?u] =>
      destruct (Hkeep u) as [-> ->]
    end.
    + now rewrite resolve_chunk_status.
    + now rewrite resolve_chunk_mode.
    + split; [reflexivity |]. rewrite resolve_chunk_text. fields. cbn.
      destruct (JS.truthy (JS.trim o)); cbn;
        now rewrite ?string_app_nil_r.
Qed.

Lemma flag_stays_false output id st :
  isProcessingFullFile st = false →
  isProcessingFullFile (deliver (Complete output id) st) = false.
Proof.
  intros Hflag. unfold deliver. cbn [onMessageReceived file_handleWorkerMessage].
  rewrite Hflag.
  assert (Hsame : (if file_mounted st then st else st) = st) by now destruct (file_mounted st).
  rewrite Hsame. unfold unmount.
  destruct (realtime_mounted st).
  - destruct id; cbn [realtime_handleWorkerMessage];
      [destruct (file_mounted st && _); exact Hflag |].
    destruct output; destruct (file_mounted st && _); exact Hflag.
  - destruct (file_mounted st && _); exact Hflag.
Qed.

Lemma foldr_string_app l1 l2 :
  foldr String.app "" (l1 ++ l2) = foldr String.app "" l1 +:+ foldr String.app "" l2.
Proof.
  induction l1 as [| s l1 IH]; [reflexivity |].
  cbn [foldr app]. now rewrite IH, string_app_assoc.
Qed.

Lemma texts_app ms1 ms2 :
  List.filter JS.truthy (omap first_text (ms1 ++ ms2))
  = List.filter JS.truthy (omap first_text ms1)
    ++ List.filter JS.truthy (omap first_text ms2).
Proof. now rewrite omap_app, List.filter_app. Qed.

Lemma session_transcript audio N ms :
  Forall (fun x => is_complete x = true) ms →
  isProcessingFullFile (exec ms (processChunks audio N file_page)) = true →
  file_mounted (exec ms (processChunks audio N file_page)) = true ∧
  text (exec ms (processChunks audio N file_page))
  = foldr String.app ""
      (List.map (String.app " ") (List.filter JS.truthy (omap first_text ms))).
Proof.
  induction ms as [| m ms IH] using rev_ind; intros Hall Hflag.
  - cbn [exec foldl]. split.
    + now rewrite (processChunks_keeps file_mounted).
    + now rewrite (processChunks_keeps text).
  - apply Forall_app in Hall as [Hall Hm]. apply Forall_inv in Hm.
    destruct m; cbn in Hm; try discriminate Hm.
    rewrite exec_snoc in *.
    assert (Hbefore : isProcessingFullFile (exec ms (processChunks audio N file_page)) = true).
    { destruct (isProcessingFullFile (exec ms _)) eqn:Hb; [reflexivity |].
      now rewrite (flag_stays_false _ _ _ Hb) in Hflag. }
    destruct (IH Hall Hbefore) as [Hmounted Htext].
    destruct (deliver_complete _ output id Hmounted Hbefore) as [Hm' Ht'].
    split; [exact Hm' |].
    now rewrite Ht', Htext, texts_app, List.map_app, foldr_string_app.
Qed.


(** ** The error handler of App *)

Lemma dispatch_fold_log audio N i l : ∀ st,
  ∃ ext, log (foldl (fun s j => dispatch audio N (i + j) s) st l) = log st ++ ext ∧
         ∀ q, Resolved q ∉ ext.
Proof.
  induction l as [| j l IH]; intros st; cbn [foldl].
  - exists []. split; [now rewrite app_nil_r | intros q; apply not_elem_of_nil].
  - destruct (IH (dispatch audio N (i + j) st)) as (ext & Hlog & Hext).
    eexists. split; [rewrite Hlog; cbn [dispatch log]; now rewrite <- app_assoc |].
    intros q Hq. apply elem_of_app in Hq as [Hq | Hq]; [| now apply Hext in Hq].
    apply elem_of_cons in Hq as [Hq | Hq]; [discriminate |].
    apply list_elem_of_singleton in Hq. discriminate.
Qed.

Lemma loop_log audio N i st :
  ∃ ext, log (loop audio N i st) = log st ++ ext ∧ ∀ q, Resolved q ∉ ext.
Proof.
  unfold loop. destruct (i <? N).
  - fields. apply dispatch_fold_log.
  - fields. eexists. split; [reflexivity |].
    intros q Hq. apply list_elem_of_singleton in Hq. discriminate.
Qed.

Lemma loop_frame audio N i st f :
  suspended (loop audio N i st) = Some f → f_i f = i.
Proof.
  unfold loop. destruct (i <? N); fields; [| discriminate].
  now intros [= <-].
Qed.

(** The waiter of chunk [c] is called once and leaves the map. *)
Lemma resolve_effect audio N st m c p :
  session_inv audio N st →
  chunkResolvers st = Some m → m !! c = Some p →
  c = Index p ∧
  (∃ ext, log (resolve_chunk (Some c) st) = log st ++ Resolved p :: ext ∧
          ∀ q, Resolved q ∉ ext) ∧
  (∀ m', chunkResolvers (resolve_chunk (Some c) st) = Some m' → m' !! c = None).
Proof.
  intros Hinv Hm Hlook.
  pose proof (session_inv_resolve_chunk audio N (Some c) st Hinv) as Hinv'.
  destruct Hinv as [Hmode Hflag Hframe Hres Hsent Hdone Hwave Hbar Hprog Hfin].
  destruct (Hres m c p Hm Hlook) as [-> (f & Hf & Hp)].
  destruct (Hframe f Hf) as (Haudio & Htotal & Hi & Hq & Hne & Hin).
  split; [reflexivity |].
  revert Hinv'. unfold resolve_chunk. rewrite Hm, Hlook. unfold resolve. fields.
  rewrite Hf.
  destruct (List.filter (fun x => negb (x =? p)) (f_pending f)) as [| p1 rest].
  - intros Hinv'. split.
    + match goal with |- context [loop ?a ?n ?i ?s] =>
        destruct (loop_log a n i s) as (ext & Hlog & Hext)
      end.
      exists ext. split; [| exact Hext].
      rewrite Hlog. fields. now rewrite <- app_assoc.
    + intros m' Hm'. destruct (m' !! Index p) as [p' |] eqn:Hl; [| reflexivity].
      exfalso.
      destruct (inv_resolvers _ _ _ Hinv' m' (Index p) p' Hm' Hl)
        as [[= <-] (f' & Hf' & Hp')].
      destruct (inv_frame _ _ _ Hinv' f' Hf') as (_ & _ & _ & _ & _ & Hin').
      apply Hin', wave_elem in Hp'. apply loop_frame in Hf'.
      apply Hin, wave_elem in Hp.
      unfold MAX_PARALLEL_CHUNKS in *. lia.
  - intros _. fields. split.
    + exists []. split; [reflexivity | intros q; apply not_elem_of_nil].
    + intros m' [= <-]. apply lookup_delete_eq.
Qed.

(** ** Completions that arrive in the order of the chunks *)

Lemma fold_registered audio N i l : ∀ st j,
  j ∈ l →
  ∃ m, chunkResolvers (foldl (fun s j => dispatch audio N (i + j) s) st l) = Some m ∧
       m !! Index (i + j) = Some (i + j).
Proof.
  induction l as [| x l IH] using rev_ind; intros st j Hj.
  - now apply elem_of_nil in Hj.
  - rewrite foldl_app. cbn [foldl dispatch chunkResolvers].
    eexists. split; [reflexivity |].
    apply elem_of_app in Hj as [Hj | Hj].
    + destruct (IH st j Hj) as (m & -> & Hm). cbn [default].
      destruct (decide (i + x = i + j)) as [-> | Hne].
      * apply lookup_insert_eq.
      * rewrite lookup_insert_ne by congruence. exact Hm.
    + apply list_elem_of_singleton in Hj as ->. apply lookup_insert_eq.
Qed.

Lemma loop_started audio N i st :
  i < N →
  suspended (loop audio N i st)
  = Some {| f_audio := audio; f_totalChunks := N; f_i := i; f_pending := wave N i |} ∧
  ∃ m, chunkResolvers (loop audio N i st) = Some m ∧
       ∀ j, j ∈ wave N i → m !! Index j = Some j.
Proof.
  intros Hlt. unfold loop. rewrite (proj2 (Z.ltb_lt i N) Hlt). fields.
  split; [reflexivity |].
  set (b := Z.min MAX_PARALLEL_CHUNKS (N - i)).
  assert (Hb : 1 ≤ b) by (unfold b, MAX_PARALLEL_CHUNKS; lia).
  destruct (fold_registered audio N i (seqZ 0 b) st 0) as (m & Hm & _).
  { apply elem_of_seqZ. lia. }
  exists m. split; [exact Hm |].
  intros j Hj. apply elem_of_seqZ in Hj. fold b in Hj.
  destruct (fold_registered audio N i (seqZ 0 b) st (j - i)) as (m' & Hm' & Hl).
  { apply elem_of_seqZ. lia. }
  rewrite Hm in Hm'. injection Hm' as <-.
  now replace (i + (j - i)) with j in Hl by lia.
Qed.

Lemma loop_finished audio N i st : N ≤ i → suspended (loop audio N i st) = None.
Proof.
  intros Hle. unfold loop. now rewrite (proj2 (Z.ltb_ge i N) Hle).
Qed.

Lemma filter_keeps_all (k : Z) (l : list Z) :
  (∀ x, x ∈ l → x ≠ k) → List.filter (fun x => negb (x =? k)) l = l.
Proof.
  induction l as [| y l IH]; intros Hl; [reflexivity |]. cbn.
  rewrite (proj2 (Z.eqb_neq y k)) by (apply Hl; left). cbn.
  f_equal. apply IH. intros x Hx. apply Hl. now right.
Qed.

Lemma filter_seqZ_head (k n : Z) :
  0 < n → List.filter (fun x => negb (x =? k)) (seqZ k n) = seqZ (k + 1) (n - 1).
Proof.
  intros Hn. rewrite seqZ_cons by lia. cbn. rewrite Z.eqb_refl. cbn.
  apply filter_keeps_all. intros x Hx. apply elem_of_seqZ in Hx. lia.
Qed.


Lemma deliver_complete_eq st o rest id :
  file_mounted st = true →
  isProcessingFullFile st = true →
  deliver (Complete (o :: rest) id) st
  = resolve_chunk (Some id)
      (set_text (if JS.truthy (JS.trim o)
                 then text st +:+ " " +:+ JS.trim o else text st) st).
Proof.
  intros Hmounted Hflag. pose proof Hmounted as Hm.
  apply file_mounted_spec in Hm as [Hstatus Hmode].
  unfold deliver. rewrite Hmounted. unfold realtime_mounted. rewrite Hstatus, Hmode.
  cbn [onMessageReceived file_handleWorkerMessage]. rewrite Hflag.
  unfold unmount.
  match goal with |- context [file_mounted (resolve_chunk ?i ?u)] =>
    assert (Hafter : file_mounted (resolve_chunk i u) = true)
  end.
  { apply file_mounted_spec.
    now rewrite resolve_chunk_status, resolve_chunk_mode. }
  now rewrite Hafter, andb_false_r.
Qed.

Lemma on_track_step audio N k st o rest :
  k < N →
  on_track audio N k st →
  on_track audio N (k + 1) (deliver (Complete (o :: rest) (Index k)) st).
Proof.
  intros Hk (Hinv & Hmounted & Htrack).
  destruct (suspended st) as [f |] eqn:Hf; [| lia].
  destruct Htrack as (Hik & Hpend & m & Hm & Hreg).
  assert (Hflag : isProcessingFullFile st = true).
  { rewrite (inv_flag _ _ _ Hinv), Hf. reflexivity. }
  destruct (inv_frame _ _ _ Hinv f Hf) as (Haudio & Htotal & Hi & Hq & _ & _).
  rewrite (deliver_complete_eq st o rest (Index k) Hmounted Hflag).
  set (st1 := set_text _ st).
  assert (Hinv1 : session_inv audio N st1) by now apply (session_inv_ext audio N st).
  split; [now apply session_inv_resolve_chunk |].
  split; [apply file_mounted_spec; rewrite resolve_chunk_status, resolve_chunk_mode;
          now apply file_mounted_spec |].
  unfold frontier in *. rewrite Hf in *.
  set (top := Z.min (f_i f + MAX_PARALLEL_CHUNKS) N) in *.
  clear Hinv1. subst st1. unfold resolve_chunk. fields.
  rewrite Hm, (Hreg k) by lia. unfold resolve. fields. rewrite Hf, Hpend.
  rewrite filter_seqZ_head by lia.
  destruct (seqZ (k + 1) (top - k - 1)) as [| p1 ps] eqn:Hseq.
  - assert (Htop : top = k + 1).
    { apply (f_equal length) in Hseq. rewrite length_seqZ in Hseq. cbn in Hseq. lia. }
    rewrite Haudio, Htotal.
    destruct (decide (f_i f + MAX_PARALLEL_CHUNKS < N)) as [Hmore | Hlast].
    + match goal with |- context [loop audio N ?i ?s] =>
        destruct (loop_started audio N i s Hmore) as (Hsus & m' & Hm' & Hreg')
      end.
      rewrite Hsus. fields. unfold wave. unfold top in Htop.
      split; [unfold MAX_PARALLEL_CHUNKS in *; lia |].
      split; [f_equal; unfold MAX_PARALLEL_CHUNKS in *; lia |].
      exists m'. split; [exact Hm' |].
      intros j Hj. apply Hreg', wave_elem. unfold MAX_PARALLEL_CHUNKS in *. lia.
    + rewrite loop_finished by lia. unfold top in Htop. lia.
  - assert (Htop : k + 1 < top).
    { destruct (decide (k + 1 < top)) as [H | H]; [exact H |].
      rewrite seqZ_nil in Hseq by lia. discriminate. }
    fields. split; [lia |]. split; [rewrite <- Hseq; f_equal; lia |].
    eexists. split; [reflexivity |].
    intros j Hj. rewrite lookup_delete_ne by (intros [= ->]; lia).
    apply Hreg. lia.
Qed.

Lemma on_track_run audio N (t : Z → string) (n : nat) : ∀ k st,
  k + Z.of_nat n ≤ N →
  on_track audio N k st →
  on_track audio N (k + Z.of_nat n)
    (exec (List.map (fun j => Complete [t j] (Index j)) (seqZ k (Z.of_nat n))) st).
Proof.
  induction n as [| n IH]; intros k st Hle Hst.
  - cbn. now rewrite Z.add_0_r.
  - rewrite seqZ_cons by lia. cbn [List.map exec foldl].
    replace (k + Z.of_nat (S n)) with ((k + 1) + Z.of_nat n) by lia.
    replace (Z.pred (Z.of_nat (S n))) with (Z.of_nat n) by lia.
    change (Z.succ k) with (k + 1).
    apply IH; [lia |]. apply on_track_step; [lia | exact Hst].
Qed.

Lemma on_track_start audio N : on_track audio N 0 (processChunks audio N file_page).
Proof.
  split; [apply session_inv_processChunks |].
  split; [now rewrite (processChunks_keeps file_mounted) |].
  unfold processChunks. destruct (decide (0 < N)) as [Hpos | Hneg].
  - destruct (loop_started audio N 0 file_page Hpos) as (Hsus & m & Hm & Hreg).
    unfold frontier. rewrite Hsus. fields. unfold wave.
    split; [unfold MAX_PARALLEL_CHUNKS; lia |].
    split; [f_equal; unfold MAX_PARALLEL_CHUNKS; lia |].
    exists m. split; [exact Hm |].
    intros j Hj. apply Hreg, wave_elem. lia.
  - rewrite loop_finished by lia. lia.
Qed.

(** When the completions of all chunks arrive in the order of the chunks,
    [processChunks] runs to its end and every chunk has been posted. *)
Lemma session_completes audio N t :
  0 ≤ N →
  let st := exec (completions t N) (processChunks audio N file_page) in
  suspended st = None ∧ sent (log st) = seqZ 0 N.
Proof.
  intros HN st.
  pose proof (on_track_run audio N t (Z.to_nat N) 0 (processChunks audio N file_page))
    as Hrun.
  rewrite Z2Nat.id in Hrun by lia. cbn [Z.add] in Hrun.
  specialize (Hrun (Z.le_refl N) (on_track_start audio N)).
  fold (completions t N) in Hrun. fold st in Hrun.
  destruct Hrun as (Hinv & _ & Htrack).
  assert (Hnone : suspended st = None).
  { destruct (suspended st) as [f |] eqn:Hf; [| reflexivity].
    destruct Htrack as (Hik & _). unfold frontier in Hik. rewrite Hf in Hik. lia. }
  split; [exact Hnone |].
  rewrite (inv_sent _ _ _ Hinv). unfold frontier. now rewrite Hnone.
Qed.

Lemma transcript_after audio N ms m :
  Forall (fun x => is_complete x = true) (ms ++ [m]) →
  isProcessingFullFile (exec ms (processChunks audio N file_page)) = true →
  text (exec (ms ++ [m]) (processChunks audio N file_page))
  = foldr String.app ""
      (List.map (String.app " ")
         (List.filter JS.truthy (omap first_text (ms ++ [m])))).
Proof.
  intros Hall Hflag.
  apply Forall_app in Hall as [Hall Hm]. apply Forall_inv in Hm.
  destruct m; cbn in Hm; try discriminate Hm.
  destruct (session_transcript audio N ms Hall Hflag) as [Hmounted Htext].
  destruct (deliver_complete _ output id Hmounted Hflag) as [_ Ht].
  rewrite exec_snoc, Ht, Htext.
  now rewrite texts_app, List.map_app, foldr_string_app.
Qed.

Lemma completions_complete t n :
  Forall (fun x => is_complete x = true) (completions t n).
Proof.
  unfold completions. apply List.Forall_forall. intros x Hx.
  apply in_map_iff in Hx as (k & <- & _). reflexivity.
Qed.

Lemma completions_texts t n :
  omap first_text (completions t n) = List.map (fun k => JS.trim (t k)) (seqZ 0 n).
Proof.
  unfold completions. induction (seqZ 0 n) as [| k l IH]; [reflexivity |].
  cbn. now rewrite IH.
Qed.

Lemma completions_snoc t n :
  0 ≤ n →
  completions t (n + 1) = completions t n ++ [Complete [t n] (Index n)].
Proof.
  intros Hn. unfold completions. now rewrite seqZ_snoc, List.map_app by exact Hn.
Qed.

(** When the completions arrive in the order of the chunks, the transcript
    holds the texts in the order of the chunks. *)
Lemma transcript_in_order audio N t :
  0 ≤ N →
  text (exec (completions t N) (processChunks audio N file_page))
  = foldr String.app ""
      (List.map (String.app " ")
         (List.filter JS.truthy (List.map (fun k => JS.trim (t k)) (seqZ 0 N)))).
Proof.
  intros HN. destruct (decide (N = 0)) as [-> | Hpos].
  - unfold completions. rewrite !seqZ_nil by lia.
    cbn [List.map List.filter foldr]. unfold exec. cbn [foldl].
    now rewrite (processChunks_keeps text).
  - rewrite <- completions_texts.
    replace N with ((N - 1) + 1) at 1 3 by lia.
    rewrite completions_snoc by lia.
    apply transcript_after.
    + rewrite <- completions_snoc by lia.
      replace (N - 1 + 1) with N by lia. apply completions_complete.
    + pose proof (on_track_run audio N t (Z.to_nat (N - 1)) 0
                    (processChunks audio N file_page)) as Hrun.
      rewrite Z2Nat.id in Hrun by lia. cbn [Z.add] in Hrun.
      specialize (Hrun ltac:(lia) (on_track_start audio N)).
      fold (completions t (N - 1)) in Hrun.
      destruct Hrun as (Hinv & _ & Htrack).
      rewrite (inv_flag _ _ _ Hinv).
      destruct (suspended _); [reflexivity | lia].
Qed.

(** ** The batch coordinator *)

Lemma MAX_SAMPLES_value : MAX_SAMPLES = 480000.
Proof. reflexivity. Qed.

Lemma totalChunks_bounds (len : Z) :
  0 ≤ len →
  0 ≤ JS.ceil_div len MAX_SAMPLES ∧
  len ≤ JS.ceil_div len MAX_SAMPLES * MAX_SAMPLES ∧
  (JS.ceil_div len MAX_SAMPLES - 1) * MAX_SAMPLES < len.
Proof.
  intros Hlen. unfold JS.ceil_div. rewrite MAX_SAMPLES_value.
  Z.div_mod_to_equations. lia.
Qed.

(** C4.  For a recording of [T] samples [processAudioFile] runs the
    coordinator with [N] chunks, where [N] is the ceiling of [T] over the
    window: [(N - 1) * MAX_SAMPLES < T <= N * MAX_SAMPLES].  After any
    sequence of messages the chunks posted so far are exactly those below
    the end of the batch being awaited, at most [MAX_PARALLEL_CHUNKS]
    beyond the batches awaited to the end, whose promises are all
    resolved; and every chunk was posted after the promises of all earlier
    batches had been resolved.  When the completions of all chunks arrive,
    the coordinator runs to its end with exactly the chunks [0 .. N - 1]
    posted.  For a recording of seven chunks, completed in order, the
    batches are [0 1 2], [3 4 5] and [6], and no chunk of the second batch
    is posted while a promise of the first is pending. *)
Theorem wave_barrier (recording : list JS.number) (ms : list message) :
  let T := Z.of_nat (length recording) in
  let N := JS.ceil_div T MAX_SAMPLES in
  let st := exec ms (processAudioFile recording file_page) in
  0 ≤ N ∧ (N - 1) * MAX_SAMPLES < T ≤ N * MAX_SAMPLES ∧
  sent (log st) = seqZ 0 (frontier N st) ∧
  frontier N st ≤ N ∧
  frontier N st ≤ awaited N st + MAX_PARALLEL_CHUNKS ∧
  (∀ f, suspended st = Some f →
        (∃ q, f_i f = MAX_PARALLEL_CHUNKS * q) ∧
        f_pending f ≠ [] ∧
        ∀ p, p ∈ f_pending f → f_i f ≤ p < frontier N st) ∧
  (∀ j, 0 ≤ j < awaited N st → Resolved j ∈ log st) ∧
  barrier (log st) ∧
  (∀ t : Z → string,
     suspended (exec (completions t N) (processAudioFile recording file_page)) = None ∧
     sent (log (exec (completions t N) (processAudioFile recording file_page)))
     = seqZ 0 N) ∧
  (N = 7 →
   ∀ t : Z → string,
     batches (log (exec (completions t 7) (processAudioFile recording file_page))) []
     = [[0; 1; 2]; [3; 4; 5]; [6]] ∧
     sent (log (exec [Complete [t 0] (Index 0); Complete [t 1] (Index 1)]
                     (processAudioFile recording file_page)))
     = [0; 1; 2] ∧
     sent (log (exec [Complete [t 0] (Index 0); Complete [t 1] (Index 1);
                      Complete [t 2] (Index 2)]
                     (processAudioFile recording file_page)))
     = [0; 1; 2; 3; 4; 5]).
Proof.
  intros T N st.
  destruct (totalChunks_bounds T) as (HN & Hup & Hlow); [unfold T; lia |].
  fold N in HN, Hup, Hlow.
  change (processAudioFile recording file_page)
    with (processChunks recording N file_page) in *.
  destruct (session_inv_reachable recording N ms)
    as [Hmode Hflag Hframe Hres Hsent Hdone Hwave Hbar Hprog Hfin].
  fold st in Hmode, Hflag, Hframe, Hres, Hsent, Hdone, Hwave, Hbar, Hprog, Hfin.
  split; [exact HN |]. split; [lia |]. split; [exact Hsent |].
  split; [| split; [| split; [| split; [| split; [| split]]]]].
  - unfold frontier. destruct (suspended st); lia.
  - unfold frontier, awaited. destruct (suspended st); unfold MAX_PARALLEL_CHUNKS; lia.
  - intros f Hf. destruct (Hframe f Hf) as (_ & _ & Hi & Hq & Hne & Hin).
    split; [exact Hq |]. split; [exact Hne |].
    intros p Hp. apply Hin, wave_elem in Hp. unfold frontier. rewrite Hf. lia.
  - exact Hdone.
  - exact Hbar.
  - intros t. now apply session_completes.
  - intros H7 t. rewrite H7. repeat split; vm_compute; reflexivity.
Qed.

(** C5 (amended).  Every chunk is posted right after the progress was set
    to [Math.round (chunkIndex / totalChunks * 100)]; with three chunks the
    values set at dispatch are 0, 33 and 67.  When [processChunks] has run
    to its end the progress is 100 and the promise of every chunk has been
    resolved. *)
Theorem progress_at_dispatch (audio : list JS.number) (N : Z) (ms : list message) :
  let st := exec ms (processChunks audio N file_page) in
  (∀ (a : nat) (r : request),
     log st !! a = Some (PostMessage r) →
     ∃ (k : Z) (b : nat),
       chunkId r = Index k ∧ a = S b ∧
       log st !! b
       = Some (SetProcessingProgress
                 (JS.Math_round
                    (JS.mul (JS.div (JS.of_Z k) (JS.of_Z N)) (JS.of_Z 100))))) ∧
  (suspended st = None →
   isProcessingFullFile st = false ∧
   processingProgress st = JS.of_Z 100 ∧
   ∀ j, 0 ≤ j < N → Resolved j ∈ log st) ∧
  (N = 3 →
   progress_values (log (processChunks audio N file_page))
   = [JS.of_Z 0; JS.of_Z 33; JS.of_Z 67] ∧
   ∀ t : Z → string,
     progress_values
       (log (exec (completions t N) (processChunks audio N file_page)))
     = [JS.of_Z 0; JS.of_Z 33; JS.of_Z 67; JS.of_Z 100]).
Proof.
  intros st.
  destruct (session_inv_reachable audio N ms)
    as [Hmode Hflag Hframe Hres Hsent Hdone Hwave Hbar Hprog Hfin].
  fold st in Hmode, Hflag, Hframe, Hres, Hsent, Hdone, Hwave, Hbar, Hprog, Hfin.
  split; [exact Hprog |]. split.
  - intros Hnone. split; [| split; [now apply Hfin |]].
    + rewrite Hflag, Hnone. reflexivity.
    + intros j Hj. apply Hdone. unfold awaited. now rewrite Hnone.
  - intros ->. split; [| intros t]; vm_compute; reflexivity.
Qed.


Lemma skip_shorter l : (length (JS.skip_white_space l) ≤ length l)%nat.
Proof.
  induction l as [| c l IH]; cbn; [lia |].
  destruct (JS.is_white_space c); cbn; lia.
Qed.

Lemma skip_fixed_head c l :
  JS.skip_white_space (c :: l) = c :: l → JS.is_white_space c = false.
Proof.
  cbn. destruct (JS.is_white_space c); [| reflexivity].
  intros H. pose proof (skip_shorter l) as Hlen. rewrite H in Hlen. cbn in Hlen. lia.
Qed.

Lemma skip_fixed_app l k :
  l ≠ [] → JS.skip_white_space l = l → JS.skip_white_space (l ++ k) = l ++ k.
Proof.
  destruct l as [| c l]; [congruence |]. intros _ H.
  apply skip_fixed_head in H. cbn. now rewrite H.
Qed.

(** A string without white space at either end. *)
Lemma trim_fixed_iff s :
  JS.trim s = s ↔
  JS.skip_white_space (JS.chars s) = JS.chars s ∧
  JS.skip_white_space (rev (JS.chars s)) = rev (JS.chars s).
Proof.
  split.
  - intros Hs. destruct (trim_shape s) as [Hnil | (c & b & Hc & Hws & Hb)];
      rewrite Hs in *.
    + rewrite Hnil. split; reflexivity.
    + rewrite Hc. split; [cbn; now rewrite Hws |].
      cbn [rev]. rewrite rev_involutive, skip_snoc by exact Hws. now rewrite Hb.
  - intros [Hfront Hback]. unfold JS.trim.
    now rewrite Hfront, Hback, rev_involutive, str_chars.
Qed.

Lemma chars_nonempty s : s ≠ "" → JS.chars s ≠ [].
Proof. destruct s; [congruence | discriminate]. Qed.

Lemma trim_joined a b :
  a ≠ "" → b ≠ "" → JS.trim a = a → JS.trim b = b →
  JS.trim (a +:+ " " +:+ b) = a +:+ " " +:+ b.
Proof.
  intros Ha Hb Hta Htb.
  apply trim_fixed_iff in Hta as [Hfa _]. apply trim_fixed_iff in Htb as [_ Hbb].
  apply trim_fixed_iff. rewrite !chars_app. split.
  - apply skip_fixed_app; [now apply chars_nonempty | exact Hfa].
  - rewrite !rev_app_distr, <- app_assoc. apply skip_fixed_app; [| exact Hbb].
    intros Hnil. apply (f_equal (@rev ascii)) in Hnil.
    rewrite rev_involutive in Hnil. now apply chars_nonempty in Hnil.
Qed.












(** ** The real-time transcript *)

(** C7 (amended).  With [r'] the result trimmed and [t'] the transcript
    trimmed: when [r'] is empty or the blank marker the transcript stays
    [t]; otherwise it becomes [r'] when [t'] is empty, [t'] when [t'] ends
    with [r'], and [t'], a space and [r'] in the remaining case.  The three
    examples of the claim hold, and the handler of a completion for
    ['realtime'] stores this text. *)
Theorem realtime_merge (t r : string) :
  let r' := JS.trim r in
  let t' := JS.trim t in
  (r' = "" ∨ r' = BLANK_AUDIO → realtime_text t r = t) ∧
  (r' ≠ "" → r' ≠ BLANK_AUDIO →
   (t' = "" → realtime_text t r = r') ∧
   (t' ≠ "" → (∃ pre, t' = pre +:+ r') → realtime_text t r = t') ∧
   (t' ≠ "" → ¬ (∃ pre, t' = pre +:+ r') →
    realtime_text t r = t' +:+ " " +:+ r')) ∧
  realtime_text "hello" "[BLANK_AUDIO]" = "hello" ∧
  realtime_text "hello world" "world" = "hello world" ∧
  realtime_text "hello" "there" = "hello there" ∧
  (∀ st rest,
     text (realtime_handleWorkerMessage (Complete (r :: rest) Realtime) st)
     = realtime_text (text st) r).
Proof.
  cbv zeta. split; [| split; [| repeat split]].
  - unfold realtime_text. intros [H | H]; rewrite H; [reflexivity |].
    now rewrite (proj2 (String.eqb_eq _ _) eq_refl), andb_false_r.
  - intros Hr Hb. unfold realtime_text, merge.
    rewrite (proj2 (truthy_spec _) Hr), (proj2 (String.eqb_neq _ _) Hb).
    cbn [andb negb]. split; [| split].
    + intros H. rewrite H. reflexivity.
    + intros Ht Hsuffix. rewrite (proj2 (truthy_spec _) Ht). cbn [negb].
      now rewrite (proj2 (endsWith_spec _ _) Hsuffix).
    + intros Ht Hsuffix. rewrite (proj2 (truthy_spec _) Ht). cbn [negb].
      destruct (JS.endsWith (JS.trim t) (JS.trim r)) eqn:He; [| reflexivity].
      now apply endsWith_spec in He.
Qed.

(** C9.  The handler of an ['error'] message sets the status to ['error']
    and the transcript to the error text, whatever the transcript was.
    When a waiter is registered for the chunk of the message, it is called
    exactly once and is no longer in the map afterwards, so that a second
    error for the same chunk calls nothing.  The message the worker posts
    when the inference of a chunk fails carries the id of that chunk. *)
Theorem error_replaces_transcript
    (audio : list JS.number) (N : Z) (ms : list message)
    (data : string) (id : chunk_id) (m : gmap chunk_id Z) (p : Z) :
  let st := exec ms (processChunks audio N file_page) in
  chunkResolvers st = Some m →
  m !! id = Some p →
  let st' := onMessageReceived (Error data (Some id)) st in
  status st' = StatusError ∧
  text st' = "Error: " +:+ data ∧
  id = Index p ∧
  (∃ ext, log st' = log st ++ Resolved p :: ext ∧ ∀ q, Resolved q ∉ ext) ∧
  (∀ m', chunkResolvers st' = Some m' → m' !! id = None) ∧
  (∀ data', log (onMessageReceived (Error data' (Some id)) st') = log st') ∧
  (∀ r error, chunkId r = id →
     Worker.terminal r (Thrown error)
     = Error ("Error processing audio segment " +:+ chunk_id_to_string id
              +:+ ": " +:+ error)
             (Some id)).
Proof.
  intros st Hm Hlook st'.
  pose proof (session_inv_reachable audio N ms) as Hinv. fold st in Hinv.
  set (st1 := set_text ("Error: " +:+ data) (set_status StatusError st)).
  assert (Hinv1 : session_inv audio N st1) by now apply (session_inv_ext audio N st).
  destruct (resolve_effect audio N st1 m id p Hinv1 Hm Hlook) as (Hid & Hlog & Hgone).
  change st' with (resolve_chunk (Some id) st1).
  split; [now rewrite resolve_chunk_status |].
  split; [now rewrite resolve_chunk_text |].
  split; [exact Hid |]. split; [exact Hlog |]. split; [exact Hgone |].
  split.
  - intros data'. cbn [onMessageReceived]. unfold resolve_chunk at 1. fields.
    destruct (chunkResolvers (resolve_chunk (Some id) st1)) as [m' |] eqn:Hm';
      [| reflexivity].
    now rewrite (Hgone m' eq_refl).
  - intros r error <-. reflexivity.
Qed.

(** ** The theorems at concrete inputs *)

Lemma sixty_five_seconds_chunks :
  JS.ceil_div (Z.of_nat (length sixty_five_seconds)) MAX_SAMPLES = 3.
Proof.
  unfold sixty_five_seconds. rewrite repeat_length, Z2Nat.id by (vm_compute; discriminate).
  reflexivity.
Qed.

Lemma three_chunks_progress audio :
  progress_values (log (processChunks audio 3 file_page))
  = [JS.of_Z 0; JS.of_Z 33; JS.of_Z 67].
Proof. vm_compute. reflexivity. Qed.


Lemma two_hundred_seconds_chunks :
  JS.ceil_div (Z.of_nat (length two_hundred_seconds)) MAX_SAMPLES = 7.
Proof.
  unfold two_hundred_seconds. rewrite repeat_length, Z2Nat.id by (vm_compute; discriminate).
  reflexivity.
Qed.

Lemma wave_barrier_witness :
  JS.ceil_div (Z.of_nat (length two_hundred_seconds)) MAX_SAMPLES = 7 ∧
  batches (log (exec (completions numbered 7)
                     (processAudioFile two_hundred_seconds file_page))) []
  = [[0; 1; 2]; [3; 4; 5]; [6]] ∧
  sent (log (exec [Complete [numbered 0] (Index 0); Complete [numbered 1] (Index 1)]
                  (processAudioFile two_hundred_seconds file_page)))
  = [0; 1; 2].
Proof.
  split; [exact two_hundred_seconds_chunks |].
  destruct (wave_barrier two_hundred_seconds [])
    as (_ & _ & _ & _ & _ & _ & _ & _ & _ & H).
  destruct (H two_hundred_seconds_chunks numbered) as (H1 & H2 & _).
  split; [exact H1 | exact H2].
Defined.

Lemma progress_at_dispatch_witness :
  progress_values (log (processChunks silence 3 file_page))
  = [JS.of_Z 0; JS.of_Z 33; JS.of_Z 67].
Proof.
  destruct (progress_at_dispatch silence 3 []) as (_ & _ & H).
  exact (proj1 (H eq_refl)).
Defined.

(** C5 as stated fails: for a recording of 65 seconds, three chunks, the
    values set at the dispatch of the chunks are 0, 33 and 67, not 0, 33
    and 66. *)
Lemma progress_rounds_to_nearest :
  JS.ceil_div (Z.of_nat (length sixty_five_seconds)) MAX_SAMPLES = 3 ∧
  progress_values (log (processAudioFile sixty_five_seconds file_page))
  = [JS.of_Z 0; JS.of_Z 33; JS.of_Z 67] ∧
  progress_at 2 3 = JS.of_Z 67 ∧
  JS.of_Z 67 ≠ JS.of_Z 66.
Proof.
  split; [exact sixty_five_seconds_chunks |]. split; [| split].
  - unfold processAudioFile. rewrite sixty_five_seconds_chunks.
    apply three_chunks_progress.
  - vm_compute. reflexivity.
  - vm_compute. discriminate.
Qed.



Lemma realtime_merge_witness :
  (JS.trim "[BLANK_AUDIO]" = "" ∨ JS.trim "[BLANK_AUDIO]" = BLANK_AUDIO) ∧
  realtime_text "hello" "[BLANK_AUDIO]" = "hello".
Proof.
  assert (H : JS.trim "[BLANK_AUDIO]" = "" ∨ JS.trim "[BLANK_AUDIO]" = BLANK_AUDIO).
  { right. reflexivity. }
  split; [exact H |].
  exact (proj1 (realtime_merge "hello" "[BLANK_AUDIO]") H).
Defined.

(** C7 as stated fails: the result [ there], with a space in front, is not
    empty, is not the blank marker and is not the end of [hello], and the
    transcript becomes [hello there], not [hello], a space and the result;
    and the transcript [hello ], with a space at the end, becomes
    [hello there] as well. *)
Lemma realtime_merge_trims :
  JS.trim " there" ≠ "" ∧
  JS.trim " there" ≠ BLANK_AUDIO ∧
  JS.endsWith "hello" " there" = false ∧
  realtime_text "hello" " there" = "hello there" ∧
  "hello" +:+ " " +:+ " there" ≠ "hello there" ∧
  JS.endsWith "hello " "there" = false ∧
  realtime_text "hello " "there" = "hello there" ∧
  "hello " +:+ " " +:+ "there" ≠ "hello there" ∧
  JS.endsWith "hello " "hello" = false ∧
  realtime_text "hello " "hello" = "hello" ∧
  "hello " ≠ "hello".
Proof. repeat split; try reflexivity; vm_compute; discriminate. Qed.

Lemma error_replaces_transcript_witness :
  chunkResolvers (exec [] (processChunks silence 3 file_page))
  = Some (<[Index 2 := 2]> (<[Index 1 := 1]> (<[Index 0 := 0]> ∅))) ∧
  (<[Index 2 := 2]> (<[Index 1 := 1]> (<[Index 0 := 0]> (∅ : gmap chunk_id Z))))
    !! Index 1 = Some 1 ∧
  status (onMessageReceived (Error "Error: device lost" (Some (Index 1)))
            (exec [] (processChunks silence 3 file_page))) = StatusError ∧
  text (onMessageReceived (Error "Error: device lost" (Some (Index 1)))
          (exec [] (processChunks silence 3 file_page)))
  = "Error: Error: device lost".
Proof.
  assert (Hm : chunkResolvers (exec [] (processChunks silence 3 file_page))
               = Some (<[Index 2 := 2]> (<[Index 1 := 1]> (<[Index 0 := 0]> ∅))))
    by reflexivity.
  assert (Hlook : (<[Index 2 := 2]> (<[Index 1 := 1]> (<[Index 0 := 0]>
                     (∅ : gmap chunk_id Z)))) !! Index 1 = Some 1)
    by reflexivity.
  split; [exact Hm |]. split; [exact Hlook |].
  destruct (error_replaces_transcript silence 3 [] "Error: device lost" (Index 1)
              _ 1 Hm Hlook) as (H1 & H2 & _).
  split; [exact H1 | exact H2].
Defined.

(** ** The worker and the page together

    Three chunks: the worker receives the requests the page has posted,
    processes them one at a time in the order received, and the page
    receives the messages of the worker in the order posted. *)
Example three_chunks_end_to_end (audio : list JS.number) :
  let page := processChunks audio 3 file_page in
  let events :=
    List.map Worker.Message (requests (log page))
    ++ [Worker.Settle 0 (Decoded [" Hello"]); Worker.Timeout;
        Worker.Settle 0 (Decoded [" [BLANK_AUDIO]"]); Worker.Timeout;
        Worker.Settle 0 (Decoded [" world."])] in
  ∃ w, Worker.exec events Worker.init = Some w ∧
       Worker.posted w
       = [Start (Index 0); Complete [" Hello"] (Index 0);
          Start (Index 1); Complete [" [BLANK_AUDIO]"] (Index 1);
          Start (Index 2); Complete [" world."] (Index 2)] ∧
       text (exec (Worker.posted w) page) = " Hello [BLANK_AUDIO] world." ∧
       suspended (exec (Worker.posted w) page) = None ∧
       processingProgress (exec (Worker.posted w) page) = JS.of_Z 100.
Proof. eexists. repeat split; vm_compute; reflexivity. Qed.

End PageFacts.


(** * More properties of worker.js *)

Module WorkerMore.
Import Worker WorkerFacts Drain Examples.

Lemma flat_map_snoc {A B} (f : A → list B) l x :
  flat_map f (l ++ [x]) = flat_map f l ++ f x.
Proof. rewrite flat_map_app. cbn. now rewrite app_nil_r. Qed.


(** A property kept by [generate], by the firing of a timer and by the end
    of a call holds after every run from a state where it holds. *)
Lemma exec_invariant (P : state → Prop) :
  (∀ r w, P w → P (generate r w)) →
  (∀ w, P w → P (fired w)) →
  (∀ i r o w, P w → P (settle i r o w)) →
  ∀ evs w w', P w → exec evs w = Some w' → P w'.
Proof.
  intros Hgen Hfire Hsettle.
  induction evs as [| e evs IH]; intros w w' Hw Hexec; cbn in Hexec.
  - now injection Hexec as <-.
  - destruct (step w e) as [w1 |] eqn:Hstep; [| discriminate].
    apply (IH w1 w'); [| exact Hexec].
    destruct e as [r | | i o]; cbn in Hstep.
    + injection Hstep as <-. now apply Hgen.
    + destruct (timers w); [discriminate |]. injection Hstep as <-.
      now apply Hgen, Hfire.
    + destruct (calls w !! i); [| discriminate]. injection Hstep as <-.
      now apply Hsettle.
Qed.

Lemma exec_cons e evs w w1 :
  step w e = Some w1 → exec (e :: evs) w = exec evs w1.
Proof. intros Hstep. cbn. now rewrite Hstep. Qed.

Lemma default_last {A} (l : list A) : ∀ d a,
  default d (last (a :: l)) = default a (last l).
Proof.
  induction l as [| b l IH]; intros d a; [reflexivity |].
  change (last (a :: b :: l)) with (last (b :: l)).
  now rewrite (IH d b), (IH a b).
Qed.

Lemma last_started_snoc l m :
  last_started (l ++ [m])
  = match m with Start c => c | _ => last_started l end.
Proof. unfold last_started. now rewrite foldl_app. Qed.

(** X2.  [lastProcessedChunkId] is the id of the chunk started last: the
    id of the last ['start'] message posted, and [-1] before the first. *)
Theorem last_processed_is_last_started (evs : list event) (w : state) :
  exec evs init = Some w →
  lastProcessedChunkId w = last_started (posted w).
Proof.
  apply (exec_invariant (fun w => lastProcessedChunkId w = last_started (posted w))).
  - intros r u Hu. unfold generate.
    destruct (isCurrentlyProcessing u); [destruct (_ || _); exact Hu |].
    cbn. now rewrite last_started_snoc.
  - intros u Hu. exact Hu.
  - intros i r o u Hu. unfold settle.
    destruct (processingQueue u); cbn; rewrite last_started_snoc, <- Hu;
      now destruct o.
  - reflexivity.
Qed.

Lemma not_queued c q : queued c q = false → c ∉ List.map chunkId q.
Proof.
  intros Hq Hin. apply list_elem_of_In, in_map_iff in Hin as (item & Hid & Hin).
  assert (Htrue : queued c q = true).
  { apply queued_spec. exists item. split; [now apply list_elem_of_In | exact Hid]. }
  congruence.
Qed.

(** X3.  No two items of the queue have the same chunk id. *)
Theorem queue_ids_distinct (evs : list event) (w : state) :
  exec evs init = Some w →
  NoDup (List.map chunkId (processingQueue w)).
Proof.
  apply (exec_invariant (fun w => NoDup (List.map chunkId (processingQueue w)))).
  - intros r u Hu. unfold generate.
    destruct (isCurrentlyProcessing u); [| exact Hu].
    destruct (js_le _ _ || queued _ _) eqn:Hskip; [exact Hu |].
    apply orb_false_iff in Hskip as [_ Hq]. cbn. rewrite List.map_app. cbn.
    apply NoDup_app. split; [exact Hu |]. split.
    + intros c Hc Hc'. apply list_elem_of_singleton in Hc' as ->.
      now apply not_queued in Hq.
    + apply NoDup_singleton.
  - intros u Hu. exact Hu.
  - intros i r o u Hu. unfold settle.
    destruct (processingQueue u) as [| nextItem rest]; cbn; [constructor |].
    cbn in Hu. now apply NoDup_cons in Hu as [_ Hu].
  - constructor.
Qed.

(** The state of the worker when the chunk in flight and the whole queue
    have been processed. *)
Lemma drain_state (q : list request) : ∀ (os : list outcome) (w : state)
    (r : request) (o : outcome),
  calls w = [r] →
  timers w = [] →
  processingQueue w = q →
  length os = length q →
  exec (drain o os) w
  = Some {| isCurrentlyProcessing := false;
            lastProcessedChunkId :=
              default (lastProcessedChunkId w) (last (List.map chunkId q));
            processingQueue := [];
            calls := [];
            timers := [];
            posted :=
              posted w ++ [terminal r o]
              ++ flat_map (fun d => [Start (chunkId (fst d)); terminal (fst d) (snd d)])
                          (zip q os) |}.
Proof.
  induction q as [| x q IH]; intros os w r o Hcalls Htimers Hq Hlen.
  - destruct os; [| discriminate].
    cbn. rewrite Hcalls. cbn. unfold settle. now rewrite Hq, Hcalls, Htimers.
  - destruct os as [| o1 os]; [discriminate |]. injection Hlen as Hlen.
    set (w2 := begin x (fired (settle 0 r o w))).
    change (drain o (o1 :: os)) with (Settle 0 o :: Timeout :: drain o1 os).
    rewrite (exec_cons (Settle 0 o) _ w (settle 0 r o w))
      by (cbn; now rewrite Hcalls).
    rewrite (exec_cons Timeout _ _ w2)
      by (unfold w2, step, settle; now rewrite Hq, Htimers).
    rewrite (IH os w2 x o1); try exact Hlen;
      try (unfold w2, settle; rewrite Hq, ?Hcalls, ?Htimers; reflexivity).
    f_equal. f_equal.
    + unfold w2. cbn [begin lastProcessedChunkId List.map].
      symmetry. apply default_last.
    + unfold w2, settle. rewrite Hq. cbn. now rewrite <- !app_assoc.
Qed.

(** X4.  The queue is drained to the end in the order of arrival, whatever
    the outcomes: when the chunk in flight ends and then, one queued item
    after the other, the timer fires and the item ends, the worker posts
    the terminal message of the chunk in flight and then the start and the
    terminal message of every queued item in the order of the queue, and
    is left idle with nothing queued. *)
Theorem queue_drains_in_order
    (q : list request) (os : list outcome) (w : state) (r : request) (o : outcome) :
  calls w = [r] →
  timers w = [] →
  processingQueue w = q →
  length os = length q →
  ∃ w', exec (drain o os) w = Some w' ∧
        isCurrentlyProcessing w' = false ∧
        processingQueue w' = [] ∧ timers w' = [] ∧ calls w' = [] ∧
        posted w'
        = posted w ++ [terminal r o]
          ++ flat_map (fun d => [Start (chunkId (fst d)); terminal (fst d) (snd d)])
                      (zip q os) ∧
        lastProcessedChunkId w'
        = default (lastProcessedChunkId w) (last (List.map chunkId q)).
Proof.
  intros Hcalls Htimers Hq Hlen. eexists.
  split; [now apply (drain_state q os w r o) |].
  cbn [isCurrentlyProcessing processingQueue timers calls posted
       lastProcessedChunkId].
  repeat split.
Qed.


(** X5.  A request that arrives after the [finally] block has handed an
    item to a timer and before the timer fires is started at once; when
    the timer fires the item finds the worker busy: it is dropped when its
    id is not above the id of the request, and put at the end of the queue
    when its id is above and not queued. *)
Theorem overtaken_item
    (w : state) (nextItem r : request) (later : list request) (a b : Z) :
  isCurrentlyProcessing w = false →
  timers w = nextItem :: later →
  chunkId nextItem = Index a →
  chunkId r = Index b →
  ∃ w', exec [Message r; Timeout] w = Some w' ∧
        calls w' = calls w ++ [r] ∧
        timers w' = later ∧
        posted w' = posted w ++ [Start (Index b)] ∧
        (a ≤ b → processingQueue w' = processingQueue w) ∧
        (b < a → queued (Index a) (processingQueue w) = false →
         processingQueue w' = processingQueue w ++ [nextItem]).
Proof.
  intros Hidle Htimers Ha Hb.
  exists (generate nextItem (fired (begin r w))).
  assert (Hexec : exec [Message r; Timeout] w
                  = Some (generate nextItem (fired (begin r w)))).
  { cbn. rewrite (generate_idle r w Hidle). cbn. now rewrite Htimers. }
  split; [exact Hexec |].
  assert (Hgen : generate nextItem (fired (begin r w))
                 = if (a <=? b) || queued (Index a) (processingQueue w)
                   then fired (begin r w)
                   else enqueue nextItem (fired (begin r w))).
  { unfold generate. cbn. now rewrite Ha, Hb. }
  rewrite Hgen.
  destruct (a <=? b) eqn:Hle; cbn [orb].
  - apply Z.leb_le in Hle. cbn. rewrite Htimers, Hb.
    repeat split. intros; lia.
  - apply Z.leb_gt in Hle.
    destruct (queued (Index a) (processingQueue w)) eqn:Hq; cbn;
      rewrite Htimers, Hb; repeat split; try (intros; lia); try discriminate.
Qed.

Lemma received_app evs1 evs2 : received (evs1 ++ evs2) = received evs1 ++ received evs2.
Proof. apply omap_app. Qed.

Lemma from_known_mono known known' w :
  (∀ r, r ∈ known → r ∈ known') → from_known known w → from_known known' w.
Proof.
  intros Hsub [Hheld Hstarted]. split.
  - intros r Hr. now apply Hsub, Hheld.
  - intros c Hc. destruct (Hstarted c Hc) as (r & Hr & Hid). exists r. auto.
Qed.

Lemma held_spec (known : list request) w :
  (∀ r, r ∈ calls w ++ processingQueue w ++ timers w → r ∈ known) ↔
  (∀ r, r ∈ calls w ∨ r ∈ processingQueue w ∨ r ∈ timers w → r ∈ known).
Proof.
  split; intros H r Hr; apply H.
  - rewrite !elem_of_app. exact Hr.
  - rewrite !elem_of_app in Hr. exact Hr.
Qed.

Lemma from_known_generate known r w :
  r ∈ known → from_known known w → from_known known (generate r w).
Proof.
  intros Hr [Hheld Hstarted]. rewrite held_spec in Hheld. unfold generate.
  destruct (isCurrentlyProcessing w); [destruct (_ || _) |]; split;
    try rewrite held_spec; cbn; try assumption.
  - intros x Hx. rewrite elem_of_app, list_elem_of_singleton in Hx.
    destruct Hx as [Hx | [[Hx | ->] | Hx]]; auto.
  - intros x Hx. rewrite elem_of_app, list_elem_of_singleton in Hx.
    destruct Hx as [[Hx | ->] | [Hx | Hx]]; auto.
  - intros c Hc. apply elem_of_app in Hc as [Hc | Hc]; [now apply Hstarted |].
    apply list_elem_of_singleton in Hc. injection Hc as ->. now exists r.
Qed.

Lemma from_known_step known w e w' :
  from_known known w → step w e = Some w' →
  from_known (known ++ received [e]) w'.
Proof.
  intros Hw Hstep. destruct e as [r | | i o]; cbn in Hstep.
  - injection Hstep as <-. cbn. apply from_known_generate.
    + apply elem_of_app. right. apply list_elem_of_singleton. reflexivity.
    + apply (from_known_mono known); [| exact Hw].
      intros x Hx. apply elem_of_app. now left.
  - destruct (timers w) as [| nextItem rest] eqn:Htimers; [discriminate |].
    injection Hstep as <-. cbn. rewrite app_nil_r.
    destruct Hw as [Hheld Hstarted]. rewrite held_spec in Hheld.
    apply from_known_generate.
    + apply Hheld. rewrite Htimers. right. right. left.
    + split; [| exact Hstarted]. rewrite held_spec. cbn. rewrite Htimers. cbn.
      intros x Hx. apply Hheld. rewrite Htimers, elem_of_cons. tauto.
  - destruct (calls w !! i) as [r |] eqn:Hlook; [| discriminate].
    injection Hstep as <-. cbn. rewrite app_nil_r.
    destruct Hw as [Hheld Hstarted]. rewrite held_spec in Hheld. unfold settle.
    destruct (processingQueue w) as [| nextItem rest] eqn:Hq; split;
      try rewrite held_spec; cbn.
    + intros x [Hx | [Hx | Hx]]; apply Hheld; auto.
      left. now apply list_elem_of_delete_inv in Hx.
    + intros c Hc. apply elem_of_app in Hc as [Hc | Hc]; [now apply Hstarted |].
      apply list_elem_of_singleton in Hc. destruct o; discriminate.
    + intros x Hx. rewrite elem_of_app, list_elem_of_singleton in Hx.
      apply Hheld. rewrite elem_of_cons.
      destruct Hx as [Hx | [Hx | [Hx | ->]]]; auto.
      left. now apply list_elem_of_delete_inv in Hx.
    + intros c Hc. apply elem_of_app in Hc as [Hc | Hc]; [now apply Hstarted |].
      apply list_elem_of_singleton in Hc. destruct o; discriminate.
Qed.

Lemma from_known_exec evs : ∀ known w w',
  from_known known w → exec evs w = Some w' →
  from_known (known ++ received evs) w'.
Proof.
  induction evs as [| e evs IH]; intros known w w' Hw Hexec; cbn in Hexec.
  - injection Hexec as <-. cbn. now rewrite app_nil_r.
  - destruct (step w e) as [w1 |] eqn:Hstep; [| discriminate].
    change (e :: evs) with ([e] ++ evs). rewrite received_app, app_assoc.
    apply (IH _ w1); [| exact Hexec]. now apply (from_known_step known w e).
Qed.

(** X6.  The worker holds and starts only what it was sent: every request
    in flight, queued or waiting for its timer is one of the requests
    received, with its samples and language, and every ['start'] message
    carries the id of a request received. *)
Theorem only_received_requests (evs : list event) (w : state) :
  exec evs init = Some w →
  (∀ r, r ∈ calls w ++ processingQueue w ++ timers w → r ∈ received evs) ∧
  (∀ c, Start c ∈ posted w → ∃ r, r ∈ received evs ∧ chunkId r = c).
Proof.
  intros Hexec. apply (from_known_exec evs [] init w); [| exact Hexec].
  split; cbn; intros x Hx; now apply elem_of_nil in Hx.
Qed.

Lemma realtime_only_exec evs : ∀ w w',
  (∀ r, r ∈ received evs → chunkId r = Realtime) →
  processingQueue w = [] ∧ timers w = [] ∧
    (isCurrentlyProcessing w = true → lastProcessedChunkId w = Realtime) →
  exec evs w = Some w' →
  processingQueue w' = [] ∧ timers w' = [] ∧
    (isCurrentlyProcessing w' = true → lastProcessedChunkId w' = Realtime).
Proof.
  induction evs as [| e evs IH]; intros w w' Hids Hw Hexec; cbn in Hexec.
  - now injection Hexec as <-.
  - destruct (step w e) as [w1 |] eqn:Hstep; [| discriminate].
    destruct Hw as (Hq & Ht & Hlast).
    destruct e as [r | | i o]; cbn in Hstep.
    + injection Hstep as <-.
      assert (Hr : chunkId r = Realtime) by (apply Hids; cbn; apply list_elem_of_here).
      apply (IH (generate r w) w'); [| | exact Hexec].
      * intros r' Hr'. apply Hids. cbn. now apply list_elem_of_further.
      * unfold generate. destruct (isCurrentlyProcessing w) eqn:Hbusy.
        -- rewrite Hr, (Hlast eq_refl). cbn. auto.
        -- cbn. auto.
    + rewrite Ht in Hstep. discriminate.
    + destruct (calls w !! i) as [r |]; [| discriminate]. injection Hstep as <-.
      apply (IH (settle i r o w) w'); [exact Hids | | exact Hexec].
      unfold settle. rewrite Hq. cbn. repeat split; auto. discriminate.
Qed.

(** X18.  Real-time requests are never queued: while the worker receives
    only requests with the id ['realtime'], its queue stays empty, no timer
    is set, and a request that arrives while a chunk is processed is
    dropped without a trace. *)
Theorem realtime_requests_never_queued (evs : list event) (w : state) :
  exec evs init = Some w →
  (∀ r, r ∈ received evs → chunkId r = Realtime) →
  processingQueue w = [] ∧ timers w = [] ∧
  (∀ r, chunkId r = Realtime → isCurrentlyProcessing w = true → generate r w = w).
Proof.
  intros Hexec Hids.
  destruct (realtime_only_exec evs init w Hids) as (Hq & Ht & Hlast);
    [cbn; repeat split; auto; discriminate | exact Hexec |].
  repeat split; [exact Hq | exact Ht |].
  intros r Hr Hbusy. unfold generate. now rewrite Hbusy, Hr, (Hlast Hbusy).
Qed.

Lemma generate_leaves_busy r w : isCurrentlyProcessing (generate r w) = true.
Proof.
  destruct (isCurrentlyProcessing w) eqn:Hflag.
  - destruct (generate_busy r w Hflag) as [-> | ->]; exact Hflag.
  - now rewrite (generate_idle r w Hflag).
Qed.

Lemma settle_wakes i r o w :
  processingQueue (settle i r o w) ≠ [] → timers (settle i r o w) ≠ [].
Proof.
  unfold settle. destruct (processingQueue w) as [| x rest]; cbn; [congruence |].
  intros _ Hnil. now apply app_eq_nil in Hnil as [_ Hnil].
Qed.

Lemma comes_to_rest (o : outcome) (n : nat) : ∀ w,
  consistent w →
  (isCurrentlyProcessing w = false → processingQueue w ≠ [] → timers w ≠ []) →
  (2 * (length (processingQueue w) + length (timers w)) + length (calls w) ≤ n)%nat →
  ∃ more w', Forall (fun e => e = Timeout ∨ e = Settle 0 o) more ∧
             exec more w = Some w' ∧ at_rest w'.
Proof.
  induction n as [| n IH]; intros w Hcons Hwake Hsize.
  - exists [], w.
    destruct (processingQueue w) eqn:Hq, (timers w) eqn:Ht, (calls w) eqn:Hc;
      cbn in Hsize; try lia.
    destruct Hcons as [[[_ (r & Hcalls & _)] | [Hidle _]] _]; [congruence |].
    split; [constructor |]. unfold at_rest. repeat split; assumption.
  - pose proof Hcons as [[[Hbusy (r & Hcalls & _)] | [Hidle Hcalls]] _].
    + assert (Hstep : step w (Settle 0 o) = Some (settle 0 r o w))
        by (cbn; now rewrite Hcalls).
      destruct (IH (settle 0 r o w)) as (more & w' & Hmore & Hexec & Hrest).
      * exact (consistent_step _ _ _ Hcons Hstep).
      * intros _. apply settle_wakes.
      * unfold settle. rewrite Hcalls in *.
        destruct (processingQueue w); cbn in *; rewrite ?length_app; cbn; lia.
      * exists (Settle 0 o :: more), w'.
        split; [constructor; auto | split; [| exact Hrest]].
        now rewrite (exec_cons _ _ _ _ Hstep).
    + destruct (timers w) as [| x rest] eqn:Ht.
      * exists [], w. split; [constructor |]. split; [reflexivity |].
        unfold at_rest.
        destruct (processingQueue w) eqn:Hq; [now rewrite Ht |].
        now destruct (Hwake Hidle).
      * assert (Hstep : step w Timeout = Some (generate x (fired w)))
          by (cbn; now rewrite Ht).
        destruct (IH (generate x (fired w))) as (more & w' & Hmore & Hexec & Hrest).
        -- exact (consistent_step _ _ _ Hcons Hstep).
        -- rewrite generate_leaves_busy. discriminate.
        -- rewrite generate_idle by exact Hidle. cbn. rewrite Ht, Hcalls. cbn in *. lia.
        -- exists (Timeout :: more), w'.
           split; [constructor; auto | split; [| exact Hrest]].
           now rewrite (exec_cons _ _ _ _ Hstep).
Qed.

Lemma wake_exec evs : ∀ w w',
  (isCurrentlyProcessing w = false → processingQueue w ≠ [] → timers w ≠ []) →
  exec evs w = Some w' →
  isCurrentlyProcessing w' = false → processingQueue w' ≠ [] → timers w' ≠ [].
Proof.
  induction evs as [| e evs IH]; intros w w' Hw Hexec; cbn in Hexec.
  - now injection Hexec as <-.
  - destruct (step w e) as [w1 |] eqn:Hstep; [| discriminate].
    apply (IH w1 w'); [| exact Hexec].
    destruct e as [r | | i o]; cbn in Hstep.
    + injection Hstep as <-. rewrite generate_leaves_busy. discriminate.
    + destruct (timers w); [discriminate |]. injection Hstep as <-.
      rewrite generate_leaves_busy. discriminate.
    + destruct (calls w !! i); [| discriminate]. injection Hstep as <-.
      intros _. apply settle_wakes.
Qed.

(** Every event other than a message brings the worker nearer to rest. *)
Lemma step_effort w e w' :
  received [e] = [] → step w e = Some w' → (effort w' < effort w)%nat.
Proof.
  destruct e as [r | | i o]; intros Hnone Hstep; cbn in Hnone, Hstep;
    [discriminate Hnone | |].
  - destruct (timers w) as [| x rest] eqn:Ht; [discriminate |].
    injection Hstep as <-.
    destruct (isCurrentlyProcessing w) eqn:Hflag.
    + destruct (generate_busy x (fired w) Hflag) as [-> | ->];
        unfold effort; cbn [fired enqueue timers processingQueue calls];
        rewrite Ht; cbn [tail length]; rewrite ?length_app; cbn [length]; lia.
    + rewrite (generate_idle x (fired w) Hflag).
      unfold effort; cbn [fired begin timers processingQueue calls].
      rewrite Ht; cbn [tail length]; rewrite ?length_app; cbn [length]; lia.
  - destruct (calls w !! i) as [r |] eqn:Hlook; [| discriminate].
    injection Hstep as <-.
    pose proof (lookup_lt_Some _ _ _ Hlook) as Hlt.
    assert (Hdel : length (delete i (calls w)) = (length (calls w) - 1)%nat)
      by (apply length_delete; eauto).
    unfold settle, effort. destruct (processingQueue w);
      cbn [timers processingQueue calls]; rewrite Hdel, ?length_app;
      cbn [length]; lia.
Qed.

Lemma exec_effort more : ∀ w w',
  received more = [] → exec more w = Some w' →
  (length more + effort w' ≤ effort w)%nat.
Proof.
  induction more as [| e more IH]; intros w w' Hnone Hexec; cbn in Hexec.
  - injection Hexec as <-. cbn [length]. lia.
  - destruct (step w e) as [w1 |] eqn:Hstep; [| discriminate].
    assert (He : received [e] = [] ∧ received more = []).
    { destruct e; cbn in *; [discriminate | auto | auto]. }
    destruct He as [He Hmore].
    pose proof (step_effort w e w1 He Hstep).
    pose proof (IH w1 w' Hmore Hexec). cbn [length]. lia.
Qed.

Lemma rest_or_step w :
  consistent w →
  (isCurrentlyProcessing w = false → processingQueue w ≠ [] → timers w ≠ []) →
  at_rest w ∨ is_Some (step w Timeout) ∨ ∀ o, is_Some (step w (Settle 0 o)).
Proof.
  intros [[[Hbusy (r & Hcalls & _)] | [Hidle Hcalls]] _] Hwake.
  - right. right. intros o. cbn. rewrite Hcalls. cbn. eauto.
  - destruct (timers w) as [| x rest] eqn:Ht.
    + left. unfold at_rest. rewrite Ht.
      destruct (processingQueue w) eqn:Hq; [auto |].
      now destruct (Hwake Hidle).
    + right. left. cbn. rewrite Ht. eauto.
Qed.

(** X20.  Without further requests the worker always comes to rest,
    whatever the outcomes of the inferences and the order of the events.
    From every state it reaches, every sequence of timers firing and calls
    ending is bounded by three times the timers plus twice the queue plus
    twice the calls; after such a sequence no wake-up is lost (an idle
    worker with a queue that is not empty has a timer pending), and the
    worker is at rest (idle, nothing queued, no timer, no call), or a
    timer can fire, or the call in flight can end with any outcome; at
    rest nothing but a request restarts it.  In particular, with every
    inference ending in [o], some such sequence leads to rest. *)
Theorem worker_comes_to_rest (evs : list event) (w : state) :
  exec evs init = Some w →
  (∀ more w', received more = [] → exec more w = Some w' →
     (length more + effort w' ≤ effort w)%nat ∧
     (isCurrentlyProcessing w' = false → processingQueue w' ≠ [] → timers w' ≠ []) ∧
     (at_rest w' ∨ is_Some (step w' Timeout) ∨ ∀ o, is_Some (step w' (Settle 0 o))) ∧
     (at_rest w' → step w' Timeout = None ∧ ∀ i o, step w' (Settle i o) = None)) ∧
  (∀ o, ∃ more w', Forall (fun e => e = Timeout ∨ e = Settle 0 o) more ∧
                   exec more w = Some w' ∧ at_rest w').
Proof.
  intros Hexec.
  pose proof (reachable_consistent evs w Hexec) as Hcons.
  assert (Hwake : isCurrentlyProcessing w = false →
                  processingQueue w ≠ [] → timers w ≠ []).
  { apply (wake_exec evs init w); [| exact Hexec]. intros _ Hq. now cbn in Hq. }
  split.
  - intros more w' Hnone Hmore.
    pose proof (consistent_exec more w w' Hcons Hmore) as Hcons'.
    pose proof (wake_exec more w w' Hwake Hmore) as Hwake'.
    split; [now apply exec_effort |]. split; [exact Hwake' |].
    split; [now apply rest_or_step |].
    intros (_ & _ & Ht & Hc). cbn. rewrite Ht, Hc. split; [reflexivity |].
    intros i o. now rewrite lookup_nil.
  - intros o. apply (comes_to_rest o _ w Hcons Hwake (le_n _)).
Qed.

(** ** The properties above at concrete inputs *)

Lemma last_processed_is_last_started_witness :
  exec five_failed_three_running init = Some (after five_failed_three_running) ∧
  lastProcessedChunkId (after five_failed_three_running)
  = last_started (posted (after five_failed_three_running)).
Proof.
  split; [reflexivity |].
  exact (last_processed_is_last_started five_failed_three_running
           (after five_failed_three_running) eq_refl).
Defined.

Lemma queue_ids_distinct_witness :
  exec batch_arrives init = Some (after batch_arrives) ∧
  NoDup (List.map chunkId (processingQueue (after batch_arrives))).
Proof.
  split; [reflexivity |].
  exact (queue_ids_distinct batch_arrives (after batch_arrives) eq_refl).
Defined.

Lemma queue_drains_in_order_witness :
  calls (after batch_arrives) = [chunk 0] ∧
  timers (after batch_arrives) = [] ∧
  processingQueue (after batch_arrives) = [chunk 1; chunk 2] ∧
  ∃ w', exec (drain (Decoded ["zero"]) [Thrown "Error: device lost"; Decoded ["two"]])
             (after batch_arrives) = Some w' ∧
        isCurrentlyProcessing w' = false ∧
        processingQueue w' = [] ∧
        lastProcessedChunkId w' = Index 2.
Proof.
  split; [reflexivity | split; [reflexivity | split; [reflexivity |]]].
  destruct (queue_drains_in_order [chunk 1; chunk 2]
              [Thrown "Error: device lost"; Decoded ["two"]]
              (after batch_arrives) (chunk 0) (Decoded ["zero"])
              eq_refl eq_refl eq_refl eq_refl)
    as (w' & Hexec & Hidle & Hqueue & _ & _ & _ & Hlast).
  exists w'. repeat split; assumption.
Defined.

Lemma overtaken_item_witness :
  isCurrentlyProcessing (after (batch_arrives ++ [Settle 0 (Decoded ["zero"])])) = false ∧
  timers (after (batch_arrives ++ [Settle 0 (Decoded ["zero"])])) = [chunk 1] ∧
  ∃ w', exec [Message (chunk 5); Timeout]
             (after (batch_arrives ++ [Settle 0 (Decoded ["zero"])])) = Some w' ∧
        calls w' = [chunk 5] ∧
        timers w' = [] ∧
        (1 ≤ 5 → processingQueue w' = [chunk 2]).
Proof.
  split; [reflexivity | split; [reflexivity |]].
  destruct (overtaken_item (after (batch_arrives ++ [Settle 0 (Decoded ["zero"])]))
              (chunk 1) (chunk 5) [] 1 5 eq_refl eq_refl eq_refl eq_refl)
    as (w' & Hexec & Hcalls & Htimers & _ & Hdropped & _).
  exists w'. repeat split; assumption.
Defined.

Lemma only_received_requests_witness :
  exec batch_arrives init = Some (after batch_arrives) ∧
  (∀ r, r ∈ calls (after batch_arrives) ++ processingQueue (after batch_arrives)
            ++ timers (after batch_arrives) →
        r ∈ received batch_arrives) ∧
  (∀ c, Start c ∈ posted (after batch_arrives) →
        ∃ r, r ∈ received batch_arrives ∧ chunkId r = c).
Proof.
  split; [reflexivity |].
  exact (only_received_requests batch_arrives (after batch_arrives) eq_refl).
Defined.

Lemma realtime_requests_never_queued_witness :
  exec [Message live; Message live; Settle 0 (Decoded ["hello"]); Message live] init
  = Some (after [Message live; Message live; Settle 0 (Decoded ["hello"]); Message live]) ∧
  processingQueue
    (after [Message live; Message live; Settle 0 (Decoded ["hello"]); Message live]) = [] ∧
  timers
    (after [Message live; Message live; Settle 0 (Decoded ["hello"]); Message live]) = [].
Proof.
  split; [reflexivity |].
  assert (Hids : ∀ r, r ∈ received [Message live; Message live;
                                     Settle 0 (Decoded ["hello"]); Message live] →
                      chunkId r = Realtime).
  { intros r Hr. cbn in Hr.
    repeat (apply elem_of_cons in Hr as [-> | Hr]; [reflexivity |]).
    now apply elem_of_nil in Hr. }
  destruct (realtime_requests_never_queued
              [Message live; Message live; Settle 0 (Decoded ["hello"]); Message live]
              (after [Message live; Message live; Settle 0 (Decoded ["hello"]);
                      Message live])
              eq_refl Hids) as (Hq & Ht & _).
  split; [exact Hq | exact Ht].
Defined.

Lemma worker_comes_to_rest_witness :
  exec batch_arrives init = Some (after batch_arrives) ∧
  effort (after batch_arrives) = 6%nat ∧
  ∃ more w', Forall (fun e => e = Timeout ∨ e = Settle 0 (Thrown "Error: device lost"))
                    more ∧
             exec more (after batch_arrives) = Some w' ∧ at_rest w'.
Proof.
  split; [reflexivity | split; [reflexivity |]].
  exact (proj2 (worker_comes_to_rest batch_arrives (after batch_arrives) eq_refl)
               (Thrown "Error: device lost")).
Defined.

End WorkerMore.


(** * Properties of the pipeline, the loading and the streamer *)

Module LoaderFacts.
Import Loader.

Lemma getInstance_instantiated cb p :
  instantiated p →
  created (fst (getInstance cb p)) = created p ∧
  tokenizer (fst (getInstance cb p)) = tokenizer p ∧
  processor (fst (getInstance cb p)) = processor p ∧
  model (fst (getInstance cb p)) = model p ∧
  snd (getInstance cb p) = [tokenizer p; processor p; model p].
Proof.
  intros ([t Ht] & [pr Hpr] & [m Hm]). unfold getInstance.
  rewrite Ht, Hpr, Hm. cbn. repeat split.
Qed.

Lemma getInstance_first cb :
  created (fst (getInstance cb unloaded))
  = [(Tokenizer, cb); (Processor, cb); (Model, cb)] ∧
  tokenizer (fst (getInstance cb unloaded)) = Some 0%nat ∧
  processor (fst (getInstance cb unloaded)) = Some 1%nat ∧
  model (fst (getInstance cb unloaded)) = Some 2%nat.
Proof. repeat split. Qed.

Lemma after_calls_instantiated cbs : ∀ p,
  instantiated p →
  created (after_calls cbs p) = created p ∧
  tokenizer (after_calls cbs p) = tokenizer p ∧
  processor (after_calls cbs p) = processor p ∧
  model (after_calls cbs p) = model p.
Proof.
  induction cbs as [| cb cbs IH]; intros p Hp; [repeat split |].
  destruct (getInstance_instantiated cb p Hp) as (Hc & Ht & Hpr & Hm & _).
  destruct (IH (fst (getInstance cb p))) as (Hc' & Ht' & Hpr' & Hm').
  { destruct Hp as (H1 & H2 & H3). unfold instantiated. now rewrite Ht, Hpr, Hm. }
  cbn [after_calls foldl]. fold (after_calls cbs (fst (getInstance cb p))).
  now rewrite Hc', Ht', Hpr', Hm', Hc, Ht, Hpr, Hm.
Qed.

(** X7.  The pipeline is a singleton: however often [getInstance] is
    called and with whatever callbacks, [from_pretrained] is called three
    times only, once for each component and with the callback of the first
    call, and every call returns the three promises of the first call. *)
Theorem pipeline_is_singleton
    (first : progress_callback) (others : list progress_callback)
    (cb : progress_callback) :
  let p := after_calls (first :: others) unloaded in
  created p = [(Tokenizer, first); (Processor, first); (Model, first)] ∧
  snd (getInstance cb p) = [Some 0%nat; Some 1%nat; Some 2%nat] ∧
  snd (getInstance first unloaded) = [Some 0%nat; Some 1%nat; Some 2%nat] ∧
  created (fst (getInstance cb p)) = created p.
Proof.
  intros p. destruct (getInstance_first first) as (Hc & Ht & Hpr & Hm).
  assert (Hinst : instantiated (fst (getInstance first unloaded))).
  { unfold instantiated. rewrite Ht, Hpr, Hm. eauto. }
  destruct (after_calls_instantiated others _ Hinst) as (Hc' & Ht' & Hpr' & Hm').
  change (after_calls others (fst (getInstance first unloaded))) with p in *.
  assert (Hp : instantiated p).
  { unfold instantiated. rewrite Ht', Hpr', Hm', Ht, Hpr, Hm. eauto. }
  destruct (getInstance_instantiated cb p Hp) as (Hc2 & _ & _ & _ & Hret).
  split; [now rewrite Hc' |]. split; [| split; [reflexivity | exact Hc2]].
  now rewrite Hret, Ht', Hpr', Hm', Ht, Hpr, Hm.
Qed.


Lemma stream_snoc id tokens token s :
  stream id (tokens ++ [token]) s
  = (fst (callback_function id (fst token) (snd token) (fst (stream id tokens s))),
     snd (stream id tokens s)
     ++ [snd (callback_function id (fst token) (snd token) (fst (stream id tokens s)))]).
Proof.
  unfold stream. rewrite foldl_app. cbn [foldl].
  now destruct (callback_function _ _ _ _).
Qed.

Lemma start_of_snoc tokens token :
  start_of (tokens ++ [token]) = Some (default (snd token) (start_of tokens)).
Proof. now destruct tokens. Qed.

(** X8.  The streamer counts the tokens of one call of [generate]: the
    message for the token at position [k] carries [numTokens = k + 1] and
    its text, the first message has no [tps] and every later one has a
    [tps] measured from the time of the first token. *)
Theorem streamer_counts_tokens (id : chunk_id) (tokens : list (string * JS.number)) :
  numTokens (fst (stream id tokens fresh)) = Z.of_nat (length tokens) ∧
  startTime (fst (stream id tokens fresh)) = start_of tokens ∧
  snd (stream id tokens fresh) = imap (posted_for id tokens) tokens.
Proof.
  induction tokens as [| token tokens IH] using rev_ind; [repeat split |].
  destruct IH as (Hcount & Hstart & Hposted).
  rewrite stream_snoc. unfold callback_function.
  cbn [fst snd numTokens startTime]. rewrite Hcount, Hstart, Hposted.
  split; [rewrite length_app; cbn; lia |].
  split; [now rewrite start_of_snoc |].
  rewrite imap_app. cbn [imap]. f_equal.
  - apply imap_ext. intros k x Hx. unfold posted_for.
    destruct tokens as [| t0 tokens]; [now rewrite lookup_nil in Hx | reflexivity].
  - unfold posted_for. rewrite Nat.add_0_r, start_of_snoc. cbn [default fst snd].
    destruct tokens as [| t0 tokens]; reflexivity.
Qed.

End LoaderFacts.


(** * [generate] with its streamer *)

Module StreamingFacts.
Import Streaming.

Lemma updates_snoc id texts output :
  updates id (texts ++ [output])
  = updates id texts ++ [Update output (Z.of_nat (length texts) + 1) id].
Proof.
  unfold updates. rewrite imap_app. cbn. now rewrite Nat.add_0_r.
Qed.

Lemma orderly_init : orderly init.
Proof.
  split; [right; split; reflexivity |]. exists [], []. split; reflexivity.
Qed.

Lemma orderly_fired w : orderly w → orderly (fired w).
Proof. intros Hw. exact Hw. Qed.

Lemma orderly_generate r w : orderly w → orderly (generate r w).
Proof.
  intros [Hflag (done & open & Hposted & Hopen)]. unfold generate.
  destruct Hflag as [[Hbusy Hcalls] | [Hidle Hcalls]].
  - rewrite Hbusy. destruct (_ || _);
      (split; [left; split; assumption | exists done, open; split; assumption]).
  - rewrite Hidle. unfold in_flight in Hopen. rewrite Hcalls in Hopen. subst open.
    split.
    + left. split; [reflexivity |]. cbn. rewrite Hcalls. eauto.
    + exists done, [Start (chunkId r)]. cbn [begin posted]. split.
      * now rewrite Hposted, app_nil_r.
      * unfold in_flight. cbn [begin calls]. rewrite Hcalls. cbn.
        exists []. split; reflexivity.
Qed.

Lemma orderly_token i a output now w :
  orderly w → calls w !! i = Some a → orderly (token i a output now w).
Proof.
  intros [Hflag (done & open & Hposted & Hopen)] Hlook.
  destruct Hflag as [[Hbusy [a' Hcalls]] | [_ Hcalls]];
    rewrite Hcalls in Hlook; [| discriminate].
  destruct i; cbn in Hlook; [| discriminate]. injection Hlook as ->.
  unfold in_flight in Hopen. rewrite Hcalls in Hopen.
  destruct Hopen as (texts & -> & Hcount).
  split.
  - left. split; [exact Hbusy |]. cbn [token calls]. rewrite Hcalls. cbn. eauto.
  - exists done, (Start (chunkId (act_request a))
                  :: updates (chunkId (act_request a)) (texts ++ [output])).
    split.
    + cbn [token posted]. rewrite Hposted, updates_snoc.
      unfold Loader.callback_function. cbn [snd]. rewrite Hcount.
      now rewrite <- app_assoc.
    + unfold in_flight. cbn [token calls]. rewrite Hcalls.
      cbn [list_insert insert act_request act_streamer].
      exists (texts ++ [output]). split; [reflexivity |].
      unfold Loader.callback_function. cbn [fst Loader.numTokens].
      rewrite Hcount, length_app. cbn. lia.
Qed.

Lemma orderly_settle i a o w :
  orderly w → calls w !! i = Some a → orderly (settle i a o w).
Proof.
  intros [Hflag (done & open & Hposted & Hopen)] Hlook.
  destruct Hflag as [[Hbusy [a' Hcalls]] | [_ Hcalls]];
    rewrite Hcalls in Hlook; [| discriminate].
  destruct i; cbn in Hlook; [| discriminate]. injection Hlook as ->.
  unfold in_flight in Hopen. rewrite Hcalls in Hopen.
  destruct Hopen as (texts & -> & _).
  assert (Hposted' : posted (settle 0 a o w)
                     = flat_map exchange (done ++ [(act_request a, texts, o)]) ++ []).
  { rewrite WorkerMore.flat_map_snoc, app_nil_r.
    unfold settle. destruct (processingQueue w); cbn [posted exchange];
      rewrite Hposted, <- !app_assoc; reflexivity. }
  assert (Hnone : calls (settle 0 a o w) = []).
  { unfold settle. destruct (processingQueue w); cbn [calls]; now rewrite Hcalls. }
  split.
  - right. split; [| exact Hnone]. unfold settle. now destruct (processingQueue w).
  - eexists _, []. split; [exact Hposted' |]. unfold in_flight. now rewrite Hnone.
Qed.

Lemma orderly_step w e w' : orderly w → step w e = Some w' → orderly w'.
Proof.
  intros Hw Hstep. destruct e as [r | | i output now | i o]; cbn in Hstep.
  - injection Hstep as <-. now apply orderly_generate.
  - destruct (timers w); [discriminate |]. injection Hstep as <-.
    now apply orderly_generate, orderly_fired.
  - destruct (calls w !! i) as [a |] eqn:Hlook; [| discriminate].
    injection Hstep as <-. now apply orderly_token.
  - destruct (calls w !! i) as [a |] eqn:Hlook; [| discriminate].
    injection Hstep as <-. now apply orderly_settle.
Qed.

Lemma orderly_exec evs : ∀ w w', orderly w → exec evs w = Some w' → orderly w'.
Proof.
  induction evs as [| e evs IH]; intros w w' Hw Hexec; cbn in Hexec.
  - now injection Hexec as <-.
  - destruct (step w e) as [w1 |] eqn:Hstep; [| discriminate].
    apply (IH w1 w'); [| exact Hexec]. now apply (orderly_step w e).
Qed.

(** X1.  The messages [generate] has posted are, chunk after chunk in the
    order of processing: the start of the chunk, one update for each of
    its tokens, numbered from 1, and its one terminal message; and at the
    end, for the chunk in flight if there is one, its start and its
    updates so far, as many as its streamer has counted.  At most one
    chunk is in flight. *)
Theorem posted_in_exchanges (evs : list event) (w : state) :
  exec evs init = Some w →
  (length (calls w) ≤ 1)%nat ∧
  ∃ (done : list (request * list string * outcome)) (open : list message),
    posted w = flat_map exchange done ++ open ∧
    match calls w with
    | [] => open = []
    | a :: _ =>
        ∃ texts, open = Start (chunkId (act_request a))
                        :: updates (chunkId (act_request a)) texts ∧
                 Loader.numTokens (act_streamer a) = Z.of_nat (length texts)
    end.
Proof.
  intros Hexec.
  destruct (orderly_exec evs init w orderly_init Hexec)
    as [Hflag (done & open & Hposted & Hopen)].
  split.
  - destruct Hflag as [[_ [a ->]] | [_ ->]]; cbn; lia.
  - exists done, open. split; [exact Hposted | exact Hopen].
Qed.

(** *** The worker without its streamer *)

Lemma erase_generate r w : erase (generate r w) = Worker.generate r (erase w).
Proof.
  unfold generate, Worker.generate.
  change (Worker.isCurrentlyProcessing (erase w)) with (isCurrentlyProcessing w).
  change (Worker.lastProcessedChunkId (erase w)) with (lastProcessedChunkId w).
  change (Worker.processingQueue (erase w)) with (processingQueue w).
  destruct (isCurrentlyProcessing w) eqn:Hflag; [destruct (_ || _); reflexivity |].
  unfold erase, begin, Worker.begin. cbn.
  now rewrite List.map_app, List.filter_app.
Qed.

Lemma erase_settle i a o w :
  calls w !! i = Some a →
  erase (settle i a o w) = Worker.settle i (act_request a) o (erase w).
Proof.
  intros Hlook. unfold settle, Worker.settle, erase. cbn.
  assert (Hterminal : is_update (Worker.terminal (act_request a) o) = false)
    by now destruct o.
  destruct (processingQueue w); cbn;
    rewrite List.filter_app; cbn; rewrite Hterminal; cbn;
    now rewrite list_fmap_delete.
Qed.

Lemma erase_token i a output now w :
  calls w !! i = Some a → erase (token i a output now w) = erase w.
Proof.
  intros Hlook. unfold token, erase. cbn. f_equal.
  - change (List.map act_request ?l) with (act_request <$> l).
    rewrite list_fmap_insert. cbn. apply list_insert_id.
    now rewrite list_lookup_fmap, Hlook.
  - rewrite List.filter_app. cbn. apply app_nil_r.
Qed.

Lemma erase_exec evs : ∀ w w',
  exec evs w = Some w' →
  Worker.exec (skeleton evs) (erase w) = Some (erase w').
Proof.
  induction evs as [| e evs IH]; intros w w' Hexec; cbn in Hexec.
  - now injection Hexec as <-.
  - destruct (step w e) as [w1 |] eqn:Hstep; [| discriminate].
    specialize (IH w1 w' Hexec).
    destruct e as [r | | i output now | i o]; cbn in Hstep; cbn [skeleton omap].
    + injection Hstep as <-. cbn. now rewrite <- erase_generate.
    + destruct (timers w) as [| x rest] eqn:Ht; [discriminate |].
      injection Hstep as <-. cbn. rewrite Ht.
      now rewrite erase_generate in IH.
    + destruct (calls w !! i) as [a |] eqn:Hlook; [| discriminate].
      injection Hstep as <-. now rewrite (erase_token i a output now w Hlook) in IH.
    + destruct (calls w !! i) as [a |] eqn:Hlook; [| discriminate].
      injection Hstep as <-. cbn.
      change (List.map act_request (calls w)) with (act_request <$> calls w).
      rewrite list_lookup_fmap, Hlook. cbn.
      now rewrite (erase_settle i a o w Hlook) in IH.
Qed.

(** X21.  The streamer does not disturb the scheduling: leaving the
    tokens out of any run of [generate] with its streamer gives a run of
    the worker without it, with the same flag, [lastProcessedChunkId],
    queue and timers, the same requests in flight, and the same messages
    apart from the updates, in the same order. *)
Theorem streamer_leaves_scheduling (evs : list event) (w : state) :
  exec evs init = Some w →
  Worker.exec (skeleton evs) Worker.init = Some (erase w) ∧
  Worker.posted (erase w)
  = List.filter (fun m => Worker.is_start m || Worker.is_terminal m) (posted w).
Proof.
  intros Hexec. split; [exact (erase_exec evs init w Hexec) |].
  destruct (orderly_exec evs init w orderly_init Hexec)
    as [_ (done & open & Hposted & Hopen)].
  cbn [erase Worker.posted]. apply List.filter_ext_in. intros m Hm.
  rewrite Hposted in Hm. apply in_app_or in Hm as [Hm | Hm].
  - apply in_flat_map in Hm as ([[r texts] o] & _ & Hm). cbn in Hm.
    destruct Hm as [<- | Hm]; [reflexivity |].
    apply in_app_or in Hm as [Hm | [<- | []]]; [| now destruct o].
    unfold updates in Hm. rewrite <- list_elem_of_In in Hm.
    apply elem_of_lookup_imap in Hm as (k & t & -> & _). reflexivity.
  - unfold in_flight in Hopen. destruct (calls w) as [| a l].
    + subst open. destruct Hm.
    + destruct Hopen as (texts & -> & _). destruct Hm as [<- | Hm]; [reflexivity |].
      unfold updates in Hm. rewrite <- list_elem_of_In in Hm.
      apply elem_of_lookup_imap in Hm as (k & t & -> & _). reflexivity.
Qed.

Lemma posted_in_exchanges_witness :
  exec spoken init = Some (after spoken) ∧
  posted (after spoken)
  = [Start (Index 5); Update " Hello" 1 (Index 5); Update " world" 2 (Index 5);
     Complete [" Hello world"] (Index 5);
     Start (Index 6); Update " Bye" 1 (Index 6)] ∧
  ∃ (done : list (request * list string * outcome)) (open : list message),
    posted (after spoken) = flat_map exchange done ++ open ∧
    match calls (after spoken) with
    | [] => open = []
    | a :: _ =>
        ∃ texts, open = Start (chunkId (act_request a))
                        :: updates (chunkId (act_request a)) texts ∧
                 Loader.numTokens (act_streamer a) = Z.of_nat (length texts)
    end.
Proof.
  split; [reflexivity | split; [reflexivity |]].
  exact (proj2 (posted_in_exchanges spoken (after spoken) eq_refl)).
Defined.

Lemma streamer_leaves_scheduling_witness :
  exec spoken init = Some (after spoken) ∧
  Worker.exec (skeleton spoken) Worker.init = Some (erase (after spoken)).
Proof.
  split; [reflexivity |].
  exact (proj1 (streamer_leaves_scheduling spoken (after spoken) eq_refl)).
Defined.

End StreamingFacts.


(** * More properties of the page *)

Module PageMore.
Import Page PageFacts Session Examples.

(** ** The chunks of a recording *)

Lemma slice_inside {A} (l : list A) (s e : Z) :
  0 ≤ s → s ≤ e → e ≤ Z.of_nat (length l) →
  slice l s e = take (Z.to_nat (e - s)) (drop (Z.to_nat s) l).
Proof.
  intros Hs He Hlen. unfold slice, clamp.
  rewrite (proj2 (Z.ltb_ge s 0)) by lia. rewrite (proj2 (Z.ltb_ge e 0)) by lia.
  now rewrite !Z.min_l by lia.
Qed.

Lemma window_take {A} (l : list A) (w k : Z) :
  0 < w → 0 ≤ k →
  slice l (k * w) (Z.min (k * w + w) (Z.of_nat (length l)))
  = take (Z.to_nat w) (drop (Z.to_nat (k * w)) l).
Proof.
  intros Hw Hk. assert (Hkw : 0 ≤ k * w) by nia.
  destruct (decide (k * w ≤ Z.of_nat (length l))) as [Hin | Hout].
  - rewrite slice_inside by lia.
    destruct (decide (k * w + w ≤ Z.of_nat (length l))) as [Hfull | Hpart].
    + rewrite Z.min_l by lia. f_equal. lia.
    + rewrite Z.min_r by lia.
      rewrite !take_ge; [reflexivity | |]; rewrite length_drop; lia.
  - unfold slice, clamp.
    rewrite (proj2 (Z.ltb_ge (k * w) 0)) by lia.
    rewrite (proj2 (Z.ltb_ge (Z.min _ _) 0)) by lia.
    rewrite !drop_ge by lia. now rewrite !take_nil.
Qed.

Lemma windows_concat {A} (l : list A) (w : Z) (n : nat) :
  0 < w →
  concat (List.map (fun k => take (Z.to_nat w) (drop (Z.to_nat (k * w)) l))
                   (seqZ 0 (Z.of_nat n)))
  = take (Z.to_nat (Z.of_nat n * w)) l.
Proof.
  intros Hw. induction n as [| n IH]; [reflexivity |].
  rewrite seqZ_S, List.map_app, concat_app, IH. cbn [List.map concat].
  rewrite app_nil_r, Z.add_0_l, take_take_drop. f_equal. nia.
Qed.

Lemma chunk_of_take audio k :
  0 ≤ k →
  chunk_of audio k
  = take (Z.to_nat MAX_SAMPLES) (drop (Z.to_nat (k * MAX_SAMPLES)) audio).
Proof. intros Hk. apply window_take; [reflexivity | exact Hk]. Qed.

Lemma chunk_length audio k :
  0 ≤ k →
  Z.of_nat (length (chunk_of audio k))
  = Z.max 0 (Z.min MAX_SAMPLES (Z.of_nat (length audio) - k * MAX_SAMPLES)).
Proof.
  intros Hk. rewrite chunk_of_take, length_take, length_drop by exact Hk.
  rewrite MAX_SAMPLES_value in *. lia.
Qed.

Lemma chunks_concat audio :
  concat (List.map (chunk_of audio)
            (seqZ 0 (JS.ceil_div (Z.of_nat (length audio)) MAX_SAMPLES)))
  = audio.
Proof.
  destruct (totalChunks_bounds (Z.of_nat (length audio))) as (HN & Hup & _);
    [lia |].
  set (N := JS.ceil_div (Z.of_nat (length audio)) MAX_SAMPLES) in *.
  rewrite (map_ext_in _ (fun k => take (Z.to_nat MAX_SAMPLES)
                                    (drop (Z.to_nat (k * MAX_SAMPLES)) audio))).
  - rewrite <- (Z2Nat.id N) at 1 by exact HN.
    rewrite windows_concat by reflexivity. apply take_ge.
    rewrite Z2Nat.id by exact HN. rewrite MAX_SAMPLES_value in *. lia.
  - intros k Hk. apply list_elem_of_In, elem_of_seqZ in Hk.
    apply chunk_of_take. lia.
Qed.

(** X9.  The chunks of a recording are a partition of it: put one after
    the other in the order of their indices they give back the recording;
    every chunk has at most [MAX_SAMPLES] samples and at least one, and
    every chunk but the last has [MAX_SAMPLES]; there is no chunk at all
    exactly when the recording is empty. *)
Theorem chunks_partition_recording (audio : list JS.number) :
  let N := JS.ceil_div (Z.of_nat (length audio)) MAX_SAMPLES in
  concat (List.map (chunk_of audio) (seqZ 0 N)) = audio ∧
  (∀ k, 0 ≤ k < N →
        1 ≤ Z.of_nat (length (chunk_of audio k)) ≤ MAX_SAMPLES) ∧
  (∀ k, 0 ≤ k < N - 1 →
        Z.of_nat (length (chunk_of audio k)) = MAX_SAMPLES) ∧
  (N = 0 ↔ audio = []).
Proof.
  intros N.
  destruct (totalChunks_bounds (Z.of_nat (length audio))) as (HN & Hup & Hlow);
    [lia |]. fold N in HN, Hup, Hlow.
  split; [apply chunks_concat | split; [| split]].
  - intros k Hk. rewrite chunk_length by lia. rewrite MAX_SAMPLES_value in *. lia.
  - intros k Hk. rewrite chunk_length by lia. rewrite MAX_SAMPLES_value in *. lia.
  - split.
    + intros H0. rewrite H0 in Hup. apply length_zero_iff_nil. lia.
    + intros ->. reflexivity.
Qed.

(** ** What is posted to the worker *)

Lemma posts_chunks_of_app audio lang l ext :
  posts_chunks_of audio lang l → posts_chunks_of audio lang ext →
  posts_chunks_of audio lang (l ++ ext).
Proof.
  intros Hl Hext r Hr. apply elem_of_app in Hr as [Hr | Hr]; auto.
Qed.

Lemma posts_chunks_of_other audio lang a :
  (∀ r, a ≠ PostMessage r) → posts_chunks_of audio lang [a].
Proof.
  intros Ha r Hr. apply list_elem_of_singleton in Hr. symmetry in Hr.
  now apply Ha in Hr.
Qed.

Lemma dispatch_posts audio N k st :
  0 ≤ k →
  posts_chunks_of audio (language st) (log st) →
  posts_chunks_of audio (language st) (log (dispatch audio N k st)).
Proof.
  intros Hk Hst. cbn [dispatch log]. apply posts_chunks_of_app; [exact Hst |].
  intros r Hr. apply elem_of_cons in Hr as [Hr | Hr]; [discriminate |].
  apply list_elem_of_singleton in Hr. injection Hr as ->. now exists k.
Qed.

Lemma dispatch_fold_posts audio N i l : ∀ st,
  0 ≤ i → (∀ j, j ∈ l → 0 ≤ j) →
  posts_chunks_of audio (language st) (log st) →
  posts_chunks_of audio (language st)
    (log (foldl (fun s j => dispatch audio N (i + j) s) st l)).
Proof.
  induction l as [| j l IH]; intros st Hi Hl Hst; [exact Hst |]. cbn [foldl].
  change (language st) with (language (dispatch audio N (i + j) st)).
  apply (IH (dispatch audio N (i + j) st));
    [exact Hi | intros x Hx; apply Hl; now right |].
  change (language (dispatch audio N (i + j) st)) with (language st).
  apply dispatch_posts; [| exact Hst].
  assert (0 ≤ j) by (apply Hl; left). lia.
Qed.

Lemma loop_posts audio N i st :
  0 ≤ i →
  posts_chunks_of audio (language st) (log st) →
  posts_chunks_of audio (language st) (log (loop audio N i st)).
Proof.
  intros Hi Hst. unfold loop. destruct (i <? N); fields.
  - apply dispatch_fold_posts; [exact Hi | | exact Hst].
    intros j Hj. apply elem_of_seqZ in Hj. lia.
  - apply posts_chunks_of_app; [exact Hst |].
    now apply posts_chunks_of_other.
Qed.

Lemma resolve_chunk_language id st : language (resolve_chunk id st) = language st.
Proof. now apply (resolve_chunk_keeps language). Qed.

Lemma resolve_chunk_posts audio N id st :
  session_inv audio N st →
  posts_chunks_of audio (language st) (log st) →
  posts_chunks_of audio (language st) (log (resolve_chunk id st)).
Proof.
  intros Hinv Hst. unfold resolve_chunk.
  destruct (chunkResolvers st) as [m |] eqn:Hm; [| exact Hst].
  destruct id as [c |]; [| exact Hst].
  destruct (m !! c) as [p |] eqn:Hlook; [| exact Hst].
  destruct (inv_resolvers _ _ _ Hinv m c p Hm Hlook) as [_ (f & Hf & _)].
  destruct (inv_frame _ _ _ Hinv f Hf) as (Haudio & _ & Hi & _).
  unfold resolve. fields. rewrite Hf.
  assert (Hlogged : posts_chunks_of audio (language st) (log st ++ [Resolved p])).
  { apply posts_chunks_of_app; [exact Hst |]. now apply posts_chunks_of_other. }
  destruct (List.filter _ _); fields; [| exact Hlogged].
  rewrite Haudio.
  match goal with |- context [loop audio ?n ?i ?s] =>
    change (language st) with (language s); apply loop_posts
  end; [unfold MAX_PARALLEL_CHUNKS; lia | exact Hlogged].
Qed.

Lemma deliver_language m st : language (deliver m st) = language st.
Proof.
  unfold deliver, unmount.
  assert (Hfile : language (if file_mounted st
                            then file_handleWorkerMessage m st else st)
                  = language st).
  { destruct (file_mounted st); [| reflexivity].
    destruct m; try reflexivity. cbn [file_handleWorkerMessage].
    destruct (isProcessingFullFile st); [| reflexivity].
    destruct output; [reflexivity |]. now rewrite resolve_chunk_language. }
  set (st1 := if file_mounted st then _ else st) in *.
  assert (Hreal : language (if realtime_mounted st
                            then realtime_handleWorkerMessage m st1 else st1)
                  = language st).
  { destruct (realtime_mounted st); [| exact Hfile].
    destruct m; try exact Hfile; cbn [realtime_handleWorkerMessage];
      destruct id; try exact Hfile. destruct output; exact Hfile. }
  set (st2 := if realtime_mounted st then _ else st1) in *.
  assert (Happ : language (onMessageReceived m st2) = language st).
  { destruct m; try exact Hreal. cbn [onMessageReceived].
    now rewrite resolve_chunk_language. }
  now destruct (file_mounted st && _).
Qed.

Lemma deliver_posts audio N m st :
  session_inv audio N st →
  posts_chunks_of audio (language st) (log st) →
  posts_chunks_of audio (language st) (log (deliver m st)).
Proof.
  intros Hinv Hst. unfold deliver.
  rewrite (realtime_not_mounted audio N st Hinv).
  set (st1 := if file_mounted st then file_handleWorkerMessage m st else st).
  assert (H1 : session_inv audio N st1 ∧ language st1 = language st ∧
               posts_chunks_of audio (language st) (log st1)).
  { unfold st1.
    destruct (file_mounted st);
      [| split; [exact Hinv | split; [reflexivity | exact Hst]]].
    split; [now apply session_inv_file_handler |].
    destruct m; try (split; [reflexivity | exact Hst]).
    cbn [file_handleWorkerMessage].
    destruct (isProcessingFullFile st); [| split; [reflexivity | exact Hst]].
    destruct output as [| o rest]; [split; [reflexivity | exact Hst] |].
    split; [now rewrite resolve_chunk_language |].
    match goal with |- context [resolve_chunk ?i ?u] =>
      change (language st) with (language u);
      apply (resolve_chunk_posts audio N i u)
    end; [now apply (session_inv_ext audio N st) | exact Hst]. }
  destruct H1 as (Hinv1 & Hlang1 & Hposts1).
  assert (H2 : posts_chunks_of audio (language st) (log (onMessageReceived m st1))).
  { destruct m; try exact Hposts1. cbn [onMessageReceived].
    rewrite <- Hlang1 in Hposts1 |- *.
    set (u := set_text _ (set_status StatusError st1)).
    change (language st1) with (language u).
    apply (resolve_chunk_posts audio N id u);
      [now apply (session_inv_ext audio N st1) | exact Hposts1]. }
  unfold unmount. now destruct (file_mounted st && _).
Qed.


Lemma exec_posts audio N ms : ∀ st,
  session_inv audio N st →
  posts_chunks_of audio (language st) (log st) →
  posts_chunks_of audio (language st) (log (exec ms st)).
Proof.
  induction ms as [| m ms IH]; intros st Hinv Hst; [exact Hst |].
  cbn [exec foldl]. fold (exec ms (deliver m st)).
  rewrite <- (deliver_language m st).
  apply IH; [now apply session_inv_deliver |].
  rewrite deliver_language. now apply (deliver_posts audio N).
Qed.

Lemma requests_of_chunks audio lang l :
  posts_chunks_of audio lang l →
  requests l = List.map (request_of audio lang) (sent l).
Proof.
  induction l as [| a l IH]; intros Hl; [reflexivity |].
  assert (Hrest : posts_chunks_of audio lang l).
  { intros r Hr. apply Hl. now right. }
  destruct a as [p | r | p]; cbn; try (now apply IH).
  destruct (Hl r) as (k & _ & ->); [left |]. cbn. f_equal. now apply IH.
Qed.

Lemma session_posts (recording : list JS.number) (N : Z) (ms : list message) :
  posts_chunks_of recording (language file_page)
    (log (exec ms (processChunks recording N file_page))).
Proof.
  rewrite <- (processChunks_keeps language recording N file_page) by reflexivity.
  apply (exec_posts recording N); [apply session_inv_processChunks |].
  rewrite (processChunks_keeps language) by reflexivity.
  apply (loop_posts recording N 0 file_page); [lia |].
  intros r Hr. now apply elem_of_nil in Hr.
Qed.




(** ** The real-time component *)

(** X12.  The request of the real-time component carries the most recent
    samples only: the last [MAX_SAMPLES] of a longer capture, and the whole
    of a capture that is not longer, under the id ['realtime']. *)
Theorem realtime_request_keeps_recent (captured : list JS.number) (lang : string) :
  ∃ recent,
    realtime_request captured lang = Request recent lang Realtime ∧
    recent `suffix_of` captured ∧
    Z.of_nat (length recent) = Z.min (Z.of_nat (length captured)) MAX_SAMPLES ∧
    (Z.of_nat (length captured) ≤ MAX_SAMPLES → recent = captured) ∧
    (MAX_SAMPLES < Z.of_nat (length captured) →
     recent = drop (length captured - Z.to_nat MAX_SAMPLES) captured).
Proof.
  unfold realtime_request.
  destruct (MAX_SAMPLES <? Z.of_nat (length captured)) eqn:Hlong.
  - apply Z.ltb_lt in Hlong.
    assert (Hslice : slice captured (- MAX_SAMPLES) (Z.of_nat (length captured))
                     = drop (length captured - Z.to_nat MAX_SAMPLES) captured).
    { unfold slice, clamp. rewrite MAX_SAMPLES_value in *.
      rewrite (proj2 (Z.ltb_lt (Z.opp 480000) 0)) by lia.
      rewrite (proj2 (Z.ltb_ge (Z.of_nat (length captured)) 0)) by lia.
      rewrite take_ge by (rewrite length_drop; lia). f_equal. lia. }
    rewrite Hslice. eexists. split; [reflexivity |].
    split; [apply suffix_drop |]. rewrite length_drop.
    rewrite MAX_SAMPLES_value in *. repeat split; lia.
  - apply Z.ltb_ge in Hlong. exists captured. split; [reflexivity |].
    split; [reflexivity |]. repeat split; lia.
Qed.

(** What the transcript is once a result has been accepted. *)
Lemma accepted_result t r :
  JS.trim r ≠ "" → JS.trim r ≠ BLANK_AUDIO →
  JS.trim (realtime_text t r) = realtime_text t r ∧
  realtime_text t r ≠ "" ∧
  JS.endsWith (realtime_text t r) (JS.trim r) = true.
Proof.
  intros Hr Hblank. unfold realtime_text, merge.
  rewrite (proj2 (truthy_spec _) Hr), (proj2 (String.eqb_neq _ _) Hblank).
  cbn [andb negb].
  destruct (JS.truthy (JS.trim t)) eqn:Ht; cbn [negb].
  - apply truthy_spec in Ht.
    destruct (JS.endsWith (JS.trim t) (JS.trim r)) eqn:He; cbn [negb].
    + split; [apply trim_idem | split; [exact Ht | exact He]].
    + split; [apply trim_joined; auto using trim_idem |].
      split.
      * destruct (JS.trim t); [congruence | discriminate].
      * apply endsWith_spec. exists (JS.trim t +:+ " ").
        now rewrite string_app_assoc.
  - split; [apply trim_idem | split; [exact Hr |]].
    apply endsWith_spec. now exists "".
Qed.

(** X13.  The real-time merge suppresses an exact repeat: the same result
    merged a second time leaves the transcript as it is after the first
    time.  A transcript to which a result has been merged has no white
    space at either end and ends with the trimmed result. *)
Theorem realtime_merge_idempotent (t r : string) :
  realtime_text (realtime_text t r) r = realtime_text t r ∧
  (JS.trim r ≠ "" → JS.trim r ≠ BLANK_AUDIO →
   JS.trim (realtime_text t r) = realtime_text t r ∧
   ∃ pre, realtime_text t r = pre +:+ JS.trim r).
Proof.
  assert (Hcases : (JS.trim r = "" ∨ JS.trim r = BLANK_AUDIO) ∨
                   (JS.trim r ≠ "" ∧ JS.trim r ≠ BLANK_AUDIO)).
  { destruct (decide (JS.trim r = "")); [now left; left |].
    destruct (decide (JS.trim r = BLANK_AUDIO)); [now left; right | now right]. }
  split.
  - destruct Hcases as [Hskip | [Hr Hblank]].
    + assert (Hsame : ∀ u, realtime_text u r = u).
      { intros u. unfold realtime_text. destruct Hskip as [-> | ->]; [reflexivity |].
        now rewrite (proj2 (String.eqb_eq _ _) eq_refl), andb_false_r. }
      now rewrite !Hsame.
    + destruct (accepted_result t r Hr Hblank) as (Htrim & Hne & Hends).
      set (u := realtime_text t r) in *.
      unfold realtime_text at 1, merge.
      rewrite (proj2 (truthy_spec _) Hr), (proj2 (String.eqb_neq _ _) Hblank).
      cbn [andb negb]. rewrite Htrim, (proj2 (truthy_spec _) Hne), Hends.
      reflexivity.
  - intros Hr Hblank.
    destruct (accepted_result t r Hr Hblank) as (Htrim & _ & Hends).
    split; [exact Htrim | now apply endsWith_spec].
Qed.


(** ** A session after the component is unmounted *)

Lemma resolve_chunk_closed id st :
  chunkResolvers st = None → resolve_chunk id st = st.
Proof. intros H. unfold resolve_chunk. now rewrite H. Qed.

(** With [window.chunkResolvers] null, a message changes at most what App
    shows and the flag of the real-time component. *)
Lemma closed_deliver m st :
  chunkResolvers st = None →
  ∃ s lm items t b,
    deliver m st
    = {| status := s; loadingMessage := lm; progressItems := items; text := t;
         language := language st; mode := mode st; chunkResolvers := None;
         processingProgress := processingProgress st;
         isProcessingFullFile := isProcessingFullFile st;
         file_isProcessing := file_isProcessing st; suspended := suspended st;
         realtime_isProcessing := b; log := log st |}.
Proof.
  destruct st as [s lm items t lang md res pp flag fp sus rp lg].
  cbn [chunkResolvers]. intros ->.
  destruct m as [d | f | f p | f | | c | o n c | o c | d c];
    destruct s, md, flag; try destruct c; try destruct o;
    cbv [deliver unmount file_mounted realtime_mounted file_handleWorkerMessage
         realtime_handleWorkerMessage onMessageReceived resolve_chunk
         set_text set_status set_loading set_progressItems set_chunkResolvers
         set_realtime_isProcessing status mode chunkResolvers text
         isProcessingFullFile loadingMessage progressItems language
         processingProgress file_isProcessing suspended realtime_isProcessing
         log andb negb];
    repeat eexists.
Qed.

Lemma unmount_mounted before after :
  file_mounted (unmount before after) = file_mounted after.
Proof. unfold unmount. now destruct (_ && _). Qed.

(** Whenever AudioFileComponent is not rendered, its clean-up has run. *)
Lemma unmounted_closed_deliver m st :
  (file_mounted st = false → chunkResolvers st = None) →
  file_mounted (deliver m st) = false → chunkResolvers (deliver m st) = None.
Proof.
  intros Hst Hafter. destruct (file_mounted st) eqn:Hm.
  - unfold deliver in *. rewrite unmount_mounted in Hafter.
    unfold unmount. now rewrite Hafter, Hm.
  - destruct (closed_deliver m st (Hst eq_refl)) as (s & lm & items & t & b & Heq).
    now rewrite Heq.
Qed.

Lemma unmounted_closed_exec ms : ∀ st,
  (file_mounted st = false → chunkResolvers st = None) →
  file_mounted (exec ms st) = false → chunkResolvers (exec ms st) = None.
Proof.
  induction ms as [| m ms IH]; intros st Hst; [exact Hst |].
  change (exec (m :: ms) st) with (exec ms (deliver m st)).
  apply IH. now apply unmounted_closed_deliver.
Qed.

Lemma error_unmounts data id st :
  file_mounted (deliver (Error data id) st) = false.
Proof.
  unfold deliver. rewrite unmount_mounted. unfold file_mounted.
  cbn [onMessageReceived]. rewrite resolve_chunk_status. reflexivity.
Qed.

Lemma error_status data id st : status (deliver (Error data id) st) = StatusError.
Proof.
  unfold deliver, unmount. destruct (_ && _); fields;
    cbn [onMessageReceived]; now rewrite resolve_chunk_status.
Qed.

Lemma error_text data id st :
  text (deliver (Error data id) st) = "Error: " +:+ data.
Proof.
  unfold deliver, unmount. destruct (_ && _); fields;
    cbn [onMessageReceived]; now rewrite resolve_chunk_text.
Qed.

(** With the status ['error'] no component listens: a message of
    [generate] changes nothing but the error text. *)
Lemma failed_deliver m st :
  chunkResolvers st = None → status st = StatusError →
  is_generate_message m = true →
  deliver m st = st ∨ ∃ data, deliver m st = set_text ("Error: " +:+ data) st.
Proof.
  destruct st as [s lm items t lang md res pp flag fp sus rp lg].
  cbn [chunkResolvers status]. intros -> -> Hm.
  destruct m as [d | f | f p | f | | c | o n c | o c | d [c |]];
    try discriminate Hm; destruct md;
    cbv [deliver unmount file_mounted realtime_mounted file_handleWorkerMessage
         realtime_handleWorkerMessage onMessageReceived resolve_chunk
         set_text set_status set_chunkResolvers status mode chunkResolvers text
         isProcessingFullFile loadingMessage progressItems language
         processingProgress file_isProcessing suspended realtime_isProcessing
         log andb negb];
    eauto.
Qed.

Lemma failed_exec later : ∀ st,
  chunkResolvers st = None → status st = StatusError →
  (∃ data, text st = "Error: " +:+ data) →
  Forall (fun m => is_generate_message m = true) later →
  status (exec later st) = StatusError ∧
  chunkResolvers (exec later st) = None ∧
  log (exec later st) = log st ∧
  suspended (exec later st) = suspended st ∧
  ∃ data, text (exec later st) = "Error: " +:+ data.
Proof.
  induction later as [| m later IH]; intros st Hres Hstatus Htext Hall; [now cbn |].
  pose proof (Forall_inv Hall) as Hm. apply Forall_inv_tail in Hall.
  change (exec (m :: later) st) with (exec later (deliver m st)).
  destruct (failed_deliver m st Hres Hstatus Hm) as [-> | [data ->]].
  - now apply IH.
  - destruct (IH (set_text ("Error: " +:+ data) st)) as (H1 & H2 & H3 & H4 & H5);
      try assumption; [now exists data |].
    repeat split; assumption.
Qed.

(** X14.  An error of [generate] ends a batch session for good.  In a
    session that receives the messages of [generate], once an error is
    handled the status is ['error'], no component is rendered and
    [window.chunkResolvers] is null; and whatever [generate] posts later,
    this stays so, the text stays an error text, the page posts no further
    chunk and resolves no promise, and the suspended loop of
    [processChunks] stays where it is. *)
Theorem session_abandoned_after_error
    (recording : list JS.number) (N : Z) (ms later : list message)
    (data : string) (id : option chunk_id) :
  Forall (fun m => is_generate_message m = true) (ms ++ later) →
  let st := deliver (Error data id) (exec ms (processChunks recording N file_page)) in
  status st = StatusError ∧ text st = "Error: " +:+ data ∧
  chunkResolvers st = None ∧
  status (exec later st) = StatusError ∧
  file_mounted (exec later st) = false ∧
  realtime_mounted (exec later st) = false ∧
  chunkResolvers (exec later st) = None ∧
  log (exec later st) = log st ∧
  suspended (exec later st) = suspended st ∧
  ∃ data', text (exec later st) = "Error: " +:+ data'.
Proof.
  intros Hlater st. apply Forall_app in Hlater as [_ Hlater].
  assert (Hclosed : chunkResolvers st = None).
  { unfold st. apply unmounted_closed_deliver; [| apply error_unmounts].
    apply unmounted_closed_exec. intros Hm.
    rewrite (processChunks_keeps file_mounted) in Hm by reflexivity.
    discriminate. }
  assert (Hstatus : status st = StatusError) by apply error_status.
  assert (Htext : text st = "Error: " +:+ data) by apply error_text.
  destruct (failed_exec later st Hclosed Hstatus (ex_intro _ data Htext) Hlater)
    as (H1 & H2 & H3 & H4 & H5).
  unfold file_mounted, realtime_mounted. rewrite H1.
  repeat split; assumption.
Qed.

(** X15.  A completion that arrives a second time finds no waiter: its
    text is appended to the transcript once more, and nothing else
    changes. *)
Theorem repeated_completion
    (recording : list JS.number) (N : Z) (ms : list message)
    (o : string) (rest : list string) (id : chunk_id) :
  let st := exec ms (processChunks recording N file_page) in
  let once := deliver (Complete (o :: rest) id) st in
  file_mounted st = true →
  isProcessingFullFile once = true →
  deliver (Complete (o :: rest) id) once
  = set_text (if JS.truthy (JS.trim o)
              then text once +:+ " " +:+ JS.trim o else text once) once.
Proof.
  intros st once Hmounted Hflag.
  assert (Hflag0 : isProcessingFullFile st = true).
  { destruct (isProcessingFullFile st) eqn:Hf; [reflexivity |].
    unfold once in Hflag. now rewrite flag_stays_false in Hflag. }
  destruct (deliver_complete st (o :: rest) id Hmounted Hflag0) as [Hm1 _].
  fold once in Hm1.
  rewrite (deliver_complete_eq once o rest id Hm1 Hflag).
  assert (Hnone : ∀ m, chunkResolvers once = Some m → m !! id = None).
  { unfold once. rewrite (deliver_complete_eq st o rest id Hmounted Hflag0).
    set (st1 := set_text _ st).
    assert (Hinv : session_inv recording N st1).
    { apply session_inv_ext with (st := st); try reflexivity.
      apply session_inv_reachable. }
    destruct (chunkResolvers st1) as [m0 |] eqn:Hres.
    - destruct (m0 !! id) as [p |] eqn:Hlook.
      + now destruct (resolve_effect recording N st1 m0 id p Hinv Hres Hlook)
          as (_ & _ & Hgone).
      + unfold resolve_chunk. rewrite Hres, Hlook, Hres. now intros m [= <-].
    - rewrite resolve_chunk_closed by exact Hres. now rewrite Hres. }
  unfold resolve_chunk at 1. fields.
  destruct (chunkResolvers once) as [m |] eqn:Hres; [| reflexivity].
  now rewrite (Hnone m eq_refl).
Qed.


(** ** Loading the model *)

Lemma progress_deliver m st :
  Loader.is_progress_event m = true →
  ∃ items, deliver m st = set_progressItems items st.
Proof.
  destruct st as [s lm items t lang md res pp flag fp sus rp lg].
  destruct m; try discriminate; intros _; destruct s, md;
    cbv [deliver unmount file_mounted realtime_mounted file_handleWorkerMessage
         realtime_handleWorkerMessage onMessageReceived
         set_progressItems set_chunkResolvers status mode chunkResolvers text
         isProcessingFullFile loadingMessage progressItems language
         processingProgress file_isProcessing suspended realtime_isProcessing
         log andb negb];
    eexists; reflexivity.
Qed.

Lemma progress_exec events :
  Forall (fun m => Loader.is_progress_event m = true) events →
  ∀ st, ∃ items, exec events st = set_progressItems items st.
Proof.
  induction 1 as [| m events Hm _ IH]; intros st.
  - exists (progressItems st). now destruct st.
  - change (exec (m :: events) st) with (exec events (deliver m st)).
    destruct (progress_deliver m st Hm) as [items1 ->].
    destruct (IH (set_progressItems items1 st)) as [items ->].
    now exists items.
Qed.

Lemma page_exec_app ms1 ms2 st : exec (ms1 ++ ms2) st = exec ms2 (exec ms1 st).
Proof. unfold exec. apply foldl_app. Qed.

(** X16.  What the page shows when [load] has run: it is ready, with the
    real-time component rendered, exactly when the instances were loaded
    and the warm-up run succeeded; otherwise its status is ['error'] and
    its text names the error.  The events of the progress callback change
    neither. *)
Theorem load_outcome (events : list message) (res : Loader.load_result) :
  Forall (fun m => Loader.is_progress_event m = true) events →
  let st := exec (Loader.load events res) initial in
  status st = match res with
              | Loader.Loaded => StatusReady
              | _ => StatusError
              end ∧
  text st = match res with
            | Loader.Loaded => ""
            | Loader.InstanceFailed error | Loader.WarmupFailed error =>
                "Error: Error loading model: " +:+ error
            end ∧
  loadingMessage st = match res with
                      | Loader.InstanceFailed _ => "Loading model..."
                      | _ => "Compiling shaders and warming up model..."
                      end ∧
  realtime_mounted st = match res with
                        | Loader.Loaded => true
                        | _ => false
                        end ∧
  file_mounted st = false ∧ log st = [] ∧ chunkResolvers st = None.
Proof.
  intros Hevents st. unfold st, Loader.load. rewrite !page_exec_app.
  destruct (progress_exec events Hevents
              (exec [Loading "Loading model..."] initial)) as [items ->].
  destruct res; repeat split; reflexivity.
Qed.

Lemma unmount_items before after :
  progressItems (unmount before after) = progressItems after.
Proof. unfold unmount. now destruct (_ && _). Qed.

Lemma handlers_items m st :
  progressItems
    (if realtime_mounted st
     then realtime_handleWorkerMessage m
            (if file_mounted st then file_handleWorkerMessage m st else st)
     else if file_mounted st then file_handleWorkerMessage m st else st)
  = progressItems st.
Proof.
  assert (Hfile : progressItems (file_handleWorkerMessage m st) = progressItems st).
  { destruct m; try reflexivity. cbn [file_handleWorkerMessage].
    destruct (isProcessingFullFile st); [| reflexivity].
    destruct output; [reflexivity |].
    now rewrite (resolve_chunk_keeps progressItems). }
  assert (Hreal : ∀ u, progressItems (realtime_handleWorkerMessage m u)
                       = progressItems u).
  { intros u. destruct m; try reflexivity; destruct id; try reflexivity.
    cbn [realtime_handleWorkerMessage]. now destruct output. }
  destruct (realtime_mounted st), (file_mounted st);
    rewrite ?Hreal, ?Hfile; reflexivity.
Qed.

Lemma filter_files g (items : list (string * option Z)) :
  (List.filter (fun item => negb (String.eqb (fst item) g)) items).*1
  = List.filter (fun x => negb (String.eqb x g)) items.*1.
Proof.
  induction items as [| item items IH]; [reflexivity |]. cbn.
  destruct (negb _); cbn; now rewrite IH.
Qed.

Lemma files_deliver m st :
  files (deliver m st)
  = match m with
    | Initiate g => files st ++ [g]
    | Done g => List.filter (fun x => negb (String.eqb x g)) (files st)
    | _ => files st
    end.
Proof.
  unfold files, deliver. rewrite unmount_items.
  destruct m; cbn [onMessageReceived]; fields;
    rewrite ?(resolve_chunk_keeps progressItems) by reflexivity; fields;
    rewrite ?handlers_items; try reflexivity.
  - now rewrite fmap_app.
  - rewrite <- list_fmap_compose. apply list_fmap_ext. intros i item _. cbn.
    destruct (String.eqb (fst item) file) eqn:He; [| reflexivity].
    apply String.eqb_eq in He. now rewrite He.
  - apply filter_files.
Qed.

Lemma pending_snoc {A} (l : list A) (a d x : A) :
  (∃ i, (l ++ [x]) !! i = Some a ∧ ∀ j, (i < j)%nat → (l ++ [x]) !! j ≠ Some d) ↔
  x = a ∨ ((∃ i, l !! i = Some a ∧ ∀ j, (i < j)%nat → l !! j ≠ Some d) ∧ x ≠ d).
Proof.
  assert (Hlast : (l ++ [x]) !! length l = Some x) by now apply list_lookup_middle.
  split.
  - intros (i & Hi & Hlater). destruct (decide (i < length l)%nat) as [Hlt | Hge].
    + right. rewrite lookup_app_l in Hi by exact Hlt. split.
      * exists i. split; [exact Hi |]. intros j Hj Hd.
        apply (Hlater j Hj). rewrite lookup_app_l; [exact Hd |].
        now apply lookup_lt_Some in Hd.
      * intros ->. now apply (Hlater (length l) Hlt).
    + left. rewrite lookup_app_r in Hi by lia.
      destruct (i - length l)%nat; cbn in Hi; [now injection Hi |].
      rewrite ?lookup_nil in Hi. discriminate.
  - intros [-> | [(i & Hi & Hlater) Hx]].
    + exists (length l). split; [exact Hlast |]. intros j Hj.
      rewrite lookup_ge_None_2; [discriminate |]. rewrite length_app. cbn. lia.
    + pose proof (lookup_lt_Some _ _ _ Hi) as Hlt.
      exists i. split; [now rewrite lookup_app_l |]. intros j Hj.
      destruct (decide (j < length l)%nat) as [Hjl | Hjl].
      * rewrite lookup_app_l by exact Hjl. now apply Hlater.
      * destruct (decide (j = length l)) as [-> | Hne].
        -- rewrite Hlast. congruence.
        -- rewrite lookup_ge_None_2; [discriminate |]. rewrite length_app. cbn. lia.
Qed.

(** X17.  The progress list names exactly the files whose loading has
    been initiated and not reported done since. *)
Theorem progress_items_pending (ms : list message) (f : string) :
  f ∈ files (exec ms initial) ↔
  ∃ i, ms !! i = Some (Initiate f) ∧
       ∀ j, (i < j)%nat → ms !! j ≠ Some (Done f).
Proof.
  revert f. induction ms as [| m ms IH] using rev_ind; intros f.
  - cbn. split; [intros Hin; inversion Hin |].
    intros (i & Hi & _). now rewrite lookup_nil in Hi.
  - rewrite exec_snoc, files_deliver, pending_snoc, <- (IH f).
    destruct m; try (split; [intros Hin; right; now split | now intros [? | [? _]]]).
    + rewrite elem_of_app, list_elem_of_singleton. split.
      * intros [Hin | ->]; [right; now split | now left].
      * intros [[= ->] | [Hin _]]; [now right | now left].
    + rewrite list_elem_of_In, filter_In, <- list_elem_of_In,
        negb_true_iff, String.eqb_neq.
      split.
      * intros [Hin Hne]. right. split; [exact Hin | congruence].
      * intros [? | [Hin Hne]]; [discriminate |]. split; [exact Hin | congruence].
Qed.

(** ** The properties above at concrete inputs *)

Lemma repeated_completion_witness :
  file_mounted (exec [] (processChunks silence 2 file_page)) = true ∧
  isProcessingFullFile
    (deliver (Complete ["zero"] (Index 0))
             (exec [] (processChunks silence 2 file_page))) = true ∧
  deliver (Complete ["zero"] (Index 0))
    (deliver (Complete ["zero"] (Index 0))
             (exec [] (processChunks silence 2 file_page)))
  = set_text
      (if JS.truthy (JS.trim "zero")
       then text (deliver (Complete ["zero"] (Index 0))
                          (exec [] (processChunks silence 2 file_page)))
            +:+ " " +:+ JS.trim "zero"
       else text (deliver (Complete ["zero"] (Index 0))
                          (exec [] (processChunks silence 2 file_page))))
      (deliver (Complete ["zero"] (Index 0))
               (exec [] (processChunks silence 2 file_page))).
Proof.
  assert (Hmounted : file_mounted (exec [] (processChunks silence 2 file_page)) = true)
    by reflexivity.
  assert (Hflag : isProcessingFullFile
                    (deliver (Complete ["zero"] (Index 0))
                             (exec [] (processChunks silence 2 file_page))) = true)
    by (vm_compute; reflexivity).
  split; [exact Hmounted | split; [exact Hflag |]].
  exact (repeated_completion silence 2 [] "zero" [] (Index 0) Hmounted Hflag).
Defined.

Lemma session_abandoned_after_error_witness :
  Forall (fun m => is_generate_message m = true)
         ([Start (Index 0)]
          ++ [Complete ["two"] (Index 2); Start (Index 1); Complete ["one"] (Index 1)]) ∧
  suspended
    (exec [Complete ["two"] (Index 2); Start (Index 1); Complete ["one"] (Index 1)]
       (deliver (Error "Error processing audio segment 0: Error: device lost"
                       (Some (Index 0)))
                (exec [Start (Index 0)] (processChunks silence 7 file_page))))
  = suspended
      (deliver (Error "Error processing audio segment 0: Error: device lost"
                      (Some (Index 0)))
               (exec [Start (Index 0)] (processChunks silence 7 file_page))) ∧
  log
    (exec [Complete ["two"] (Index 2); Start (Index 1); Complete ["one"] (Index 1)]
       (deliver (Error "Error processing audio segment 0: Error: device lost"
                       (Some (Index 0)))
                (exec [Start (Index 0)] (processChunks silence 7 file_page))))
  = log
      (deliver (Error "Error processing audio segment 0: Error: device lost"
                      (Some (Index 0)))
               (exec [Start (Index 0)] (processChunks silence 7 file_page))).
Proof.
  assert (Hlater : Forall (fun m => is_generate_message m = true)
                     ([Start (Index 0)]
                      ++ [Complete ["two"] (Index 2); Start (Index 1);
                          Complete ["one"] (Index 1)]))
    by (repeat constructor).
  split; [exact Hlater |].
  destruct (session_abandoned_after_error silence 7 [Start (Index 0)]
              [Complete ["two"] (Index 2); Start (Index 1); Complete ["one"] (Index 1)]
              "Error processing audio segment 0: Error: device lost"
              (Some (Index 0)) Hlater)
    as (_ & _ & _ & _ & _ & _ & _ & Hlog & Hsuspended & _).
  split; [exact Hsuspended | exact Hlog].
Defined.

Lemma load_outcome_witness :
  Forall (fun m => Loader.is_progress_event m = true)
         [Initiate "model.onnx"; Progress "model.onnx" 50; Done "model.onnx"] ∧
  status (exec (Loader.load [Initiate "model.onnx"; Progress "model.onnx" 50;
                             Done "model.onnx"] Loader.Loaded) initial)
  = StatusReady.
Proof.
  assert (Hevents : Forall (fun m => Loader.is_progress_event m = true)
                      [Initiate "model.onnx"; Progress "model.onnx" 50;
                       Done "model.onnx"])
    by (repeat constructor).
  split; [exact Hevents |].
  exact (proj1 (load_outcome _ Loader.Loaded Hevents)).
Defined.

End PageMore.


(** * The page and the worker together *)

Module SystemFacts.
Import Page PageFacts PageMore WorkerFacts WorkerMore Session Drain Examples System.

Lemma run_app mvs1 : ∀ mvs2 s,
  run (mvs1 ++ mvs2) s
  = match run mvs1 s with Some s' => run mvs2 s' | None => None end.
Proof.
  induction mvs1 as [| mv mvs1 IH]; intros mvs2 s; [reflexivity |].
  cbn. destruct (step s mv); [apply IH | reflexivity].
Qed.

Lemma run_posts rs : ∀ s pre post,
  requests (log (page s)) = pre ++ rs ++ post →
  length pre = taken s →
  run (replicate (length rs) Post) s
  = Some {| page := page s;
            worker := foldl (fun w r => Worker.generate r w) (worker s) rs;
            taken := taken s + length rs; shown := shown s |}.
Proof.
  induction rs as [| r rs IH]; intros s pre post Hreq Hlen.
  - cbn. rewrite Nat.add_0_r. now destruct s.
  - assert (Hlook : requests (log (page s)) !! taken s = Some r).
    { rewrite Hreq. now apply list_lookup_middle. }
    cbn [length replicate run step]. rewrite Hlook.
    rewrite (IH _ (pre ++ [r]) post); cbn [page taken worker shown].
    + do 2 f_equal. lia.
    + now rewrite Hreq, <- app_assoc.
    + rewrite length_app. cbn. lia.
Qed.

Lemma run_tells ms : ∀ s pre post,
  Worker.posted (worker s) = pre ++ ms ++ post →
  length pre = shown s →
  run (replicate (length ms) Tell) s
  = Some {| page := exec ms (page s); worker := worker s;
            taken := taken s; shown := shown s + length ms |}.
Proof.
  induction ms as [| m ms IH]; intros s pre post Hposted Hlen.
  - cbn. rewrite Nat.add_0_r. now destruct s.
  - assert (Hlook : Worker.posted (worker s) !! shown s = Some m).
    { rewrite Hposted. now apply list_lookup_middle. }
    cbn [length replicate run step]. rewrite Hlook.
    rewrite (IH _ (pre ++ [m]) post); cbn [page taken worker shown].
    + do 2 f_equal. lia.
    + now rewrite Hposted, <- app_assoc.
    + rewrite length_app. cbn. lia.
Qed.

Lemma run_drain os : ∀ o s,
  run (drain_moves o os) s = with_worker s (Worker.exec (drain o os) (worker s)).
Proof.
  induction os as [| o1 os IH]; intros o s.
  - cbn. destruct (Worker.calls (worker s) !! 0%nat); [| reflexivity].
    cbn. now destruct s.
  - change (drain_moves o (o1 :: os)) with (Finish 0 o :: Tick :: drain_moves o1 os).
    change (drain o (o1 :: os))
      with (Worker.Settle 0 o :: Worker.Timeout :: drain o1 os).
    cbn [run step Worker.exec].
    destruct (Worker.step (worker s) (Worker.Settle 0 o)) as [w1 |];
      [| reflexivity].
    cbn [with_worker worker].
    destruct (Worker.step w1 Worker.Timeout) as [w2 |]; [| reflexivity].
    cbn [with_worker page taken shown]. rewrite IH. cbn [worker].
    now destruct (Worker.exec (drain o1 os) w2).
Qed.

(** *** The requests of a batch arrive at the worker at rest *)

Lemma not_queued_above audio lang (k a c : Z) :
  a + c ≤ k →
  Worker.queued (Index k) (List.map (request_of audio lang) (seqZ a c)) = false.
Proof.
  intros Hk. destruct (Worker.queued _ _) eqn:Hq; [| reflexivity].
  unfold Worker.queued in Hq. apply existsb_exists in Hq as (x & Hx & Heq).
  apply in_map_iff in Hx as (j & <- & Hj).
  apply list_elem_of_In, elem_of_seqZ in Hj. cbn in Heq.
  apply Z.eqb_eq in Heq. lia.
Qed.

Lemma enqueue_all audio lang (n : nat) : ∀ w i c,
  Worker.isCurrentlyProcessing w = true →
  Worker.lastProcessedChunkId w = Index i →
  Worker.processingQueue w = List.map (request_of audio lang) (seqZ (i + 1) c) →
  0 ≤ c →
  foldl (fun w r => Worker.generate r w) w
        (List.map (request_of audio lang) (seqZ (i + 1 + c) (Z.of_nat n)))
  = {| Worker.isCurrentlyProcessing := true;
       Worker.lastProcessedChunkId := Index i;
       Worker.processingQueue :=
         List.map (request_of audio lang) (seqZ (i + 1) (c + Z.of_nat n));
       Worker.calls := Worker.calls w;
       Worker.timers := Worker.timers w;
       Worker.posted := Worker.posted w |}.
Proof.
  induction n as [| n IH]; intros w i c Hbusy Hlast Hq Hc.
  - cbn. rewrite Z.add_0_r, <- Hq, <- Hbusy, <- Hlast. now destruct w.
  - rewrite seqZ_cons by lia. cbn [List.map foldl].
    replace (Z.pred (Z.of_nat (S n))) with (Z.of_nat n) by lia.
    replace (Z.succ (i + 1 + c)) with (i + 1 + (c + 1)) by lia.
    assert (Hgen : Worker.generate (request_of audio lang (i + 1 + c)) w
                   = Worker.enqueue (request_of audio lang (i + 1 + c)) w).
    { unfold Worker.generate. rewrite Hbusy, Hlast, Hq. cbn [request_of chunkId js_le].
      rewrite (proj2 (Z.leb_gt _ _)) by lia.
      now rewrite not_queued_above by lia. }
    rewrite Hgen, (IH _ i (c + 1)); cbn [Worker.enqueue Worker.isCurrentlyProcessing
      Worker.lastProcessedChunkId Worker.processingQueue Worker.calls
      Worker.timers Worker.posted]; try assumption; try lia.
    + now replace (c + 1 + Z.of_nat n) with (c + Z.of_nat (S n)) by lia.
    + rewrite Hq. rewrite (seqZ_app (i + 1) c 1) by lia.
      now rewrite List.map_app.
Qed.

Lemma wave_arrives audio lang (w : Worker.state) (i b : Z) :
  Worker.isCurrentlyProcessing w = false →
  Worker.processingQueue w = [] →
  1 ≤ b →
  foldl (fun w r => Worker.generate r w) w
        (List.map (request_of audio lang) (seqZ i b))
  = {| Worker.isCurrentlyProcessing := true;
       Worker.lastProcessedChunkId := Index i;
       Worker.processingQueue :=
         List.map (request_of audio lang) (seqZ (i + 1) (b - 1));
       Worker.calls := Worker.calls w ++ [request_of audio lang i];
       Worker.timers := Worker.timers w;
       Worker.posted := Worker.posted w ++ [Start (Index i)] |}.
Proof.
  intros Hidle Hq Hb. rewrite seqZ_cons by lia. cbn [List.map foldl].
  rewrite (generate_idle _ w Hidle).
  replace (Z.succ i) with (i + 1 + 0) by lia.
  replace (Z.pred b) with (Z.of_nat (Z.to_nat (b - 1))) by lia.
  rewrite (enqueue_all audio lang _ _ i 0); cbn [Worker.begin
    Worker.isCurrentlyProcessing Worker.lastProcessedChunkId
    Worker.processingQueue Worker.calls Worker.timers Worker.posted
    request_of chunkId]; try reflexivity; try lia; [| exact Hq].
  now replace (0 + Z.of_nat (Z.to_nat (b - 1))) with (b - 1) by lia.
Qed.

(** *** The messages of a batch arrive at the page *)

Lemma deliver_start c st :
  realtime_mounted st = false → deliver (Start c) st = st.
Proof.
  intros Hreal. unfold deliver, unmount. rewrite Hreal.
  cbn [file_handleWorkerMessage onMessageReceived].
  destruct (file_mounted st) eqn:Hfile; rewrite ?Hfile; reflexivity.
Qed.

Lemma exec_exchanges audio N t ks : ∀ st,
  session_inv audio N st →
  exec (flat_map (exchange_of t) ks) st
  = exec (List.map (fun k => Complete [t k] (Index k)) ks) st.
Proof.
  induction ks as [| k ks IH]; intros st Hinv; [reflexivity |].
  cbn [flat_map exchange_of app List.map exec foldl].
  rewrite (deliver_start _ st (realtime_not_mounted audio N st Hinv)).
  apply IH. now apply session_inv_deliver.
Qed.

Lemma exchanges_length t ks : length (flat_map (exchange_of t) ks) = (2 * length ks)%nat.
Proof. induction ks as [| k ks IH]; cbn; [reflexivity | rewrite IH; lia]. Qed.

Lemma zip_exchanges audio lang t ks :
  flat_map (fun d => [Start (chunkId (fst d)); Worker.terminal (fst d) (snd d)])
           (zip (List.map (request_of audio lang) ks)
                (List.map (fun k => Decoded [t k]) ks))
  = flat_map (exchange_of t) ks.
Proof. induction ks as [| k ks IH]; [reflexivity |]. cbn. now rewrite IH. Qed.

Lemma last_request audio lang (i c : Z) :
  0 ≤ c →
  default (Index i)
    (last (List.map chunkId (List.map (request_of audio lang) (seqZ (i + 1) c))))
  = Index (i + c).
Proof.
  intros Hc. destruct (decide (c = 0)) as [-> | Hpos].
  - rewrite seqZ_nil by lia. cbn [List.map last default]. f_equal. lia.
  - replace c with (Z.of_nat (S (Z.to_nat (c - 1)))) at 1 by lia.
    rewrite seqZ_S, !List.map_app. cbn [List.map]. rewrite last_snoc.
    cbn. f_equal. lia.
Qed.

(** *** One batch *)

Lemma wave_step recording N t i s :
  0 ≤ i < N → (∃ q, i = MAX_PARALLEL_CHUNKS * q) →
  settled recording N t i s →
  ∃ s', run (wave_moves t (wave N i)) s = Some s' ∧
        settled recording N t (i + Z.min MAX_PARALLEL_CHUNKS (N - i)) s'.
Proof.
  intros Hi Hq
    (Hpage & Hidle & Hqueue & Htimers & Hcalls & Hlast & Hposted & Htaken & Hshown).
  set (b := Z.min MAX_PARALLEL_CHUNKS (N - i)).
  assert (Hb : 1 ≤ b ≤ 3) by (unfold b, MAX_PARALLEL_CHUNKS; lia).
  set (lang := language file_page).
  assert (Htrack : on_track recording N i (page s)).
  { rewrite Hpage.
    pose proof (on_track_run recording N t (Z.to_nat i) 0
                  (processChunks recording N file_page)) as Hrun.
    rewrite Z2Nat.id in Hrun by lia. cbn [Z.add] in Hrun.
    apply Hrun; [lia | apply on_track_start]. }
  destruct Htrack as (Hinv & _ & Htr).
  destruct (suspended (page s)) as [f |] eqn:Hf; [| lia].
  destruct Htr as (Hik & _ & _).
  assert (Hfront : frontier N (page s) = i + b).
  { destruct (inv_frame _ _ _ Hinv f Hf) as (_ & _ & Hfi & (q' & Hq') & _ & _).
    destruct Hq as [q Hq]. unfold frontier in *. rewrite Hf in *.
    unfold b, MAX_PARALLEL_CHUNKS in *. lia. }
  assert (Hreq : requests (log (page s))
                 = List.map (request_of recording lang) (seqZ 0 i)
                   ++ List.map (request_of recording lang) (seqZ i b) ++ []).
  { pose proof (session_posts recording N (completions t i)) as Hposts.
    rewrite <- Hpage in Hposts.
    rewrite (requests_of_chunks _ _ _ Hposts), (inv_sent _ _ _ Hinv), Hfront.
    rewrite seqZ_app, List.map_app, app_nil_r by lia. reflexivity. }
  assert (Hchunks : seqZ i b = i :: seqZ (i + 1) (b - 1)).
  { now rewrite seqZ_cons by lia. }
  assert (Hmoves : wave_moves t (wave N i)
                   = replicate (length (List.map (request_of recording lang) (seqZ i b)))
                               Post
                     ++ drain_moves (Decoded [t i])
                          (List.map (fun k => Decoded [t k]) (seqZ (i + 1) (b - 1)))
                     ++ replicate (length (flat_map (exchange_of t) (seqZ i b))) Tell).
  { unfold wave. fold b. rewrite exchanges_length, length_map, Hchunks. reflexivity. }
  rewrite Hmoves, run_app.
  rewrite (run_posts _ s _ _ Hreq) by (rewrite length_map, length_seqZ; lia).
  rewrite (wave_arrives recording lang (worker s) i b Hidle Hqueue) by lia.
  rewrite Hcalls, Htimers. cbn [app].
  rewrite run_app, run_drain. cbn [worker].
  match goal with |- context [Worker.exec _ ?w] => set (w1 := w) end.
  rewrite (drain_state
             (List.map (request_of recording lang) (seqZ (i + 1) (b - 1)))
             (List.map (fun k => Decoded [t k]) (seqZ (i + 1) (b - 1)))
             w1 (request_of recording lang i) (Decoded [t i]))
    by (try reflexivity; now rewrite !length_map).
  match goal with |- context [with_worker _ (Some ?w)] => set (w2 := w) end.
  assert (Hposted2 : Worker.posted w2
                     = Worker.posted w1
                       ++ [Worker.terminal (request_of recording lang i) (Decoded [t i])]
                       ++ flat_map
                            (fun d => [Start (chunkId (fst d));
                                       Worker.terminal (fst d) (snd d)])
                            (zip (List.map (request_of recording lang)
                                           (seqZ (i + 1) (b - 1)))
                                 (List.map (fun k => Decoded [t k])
                                           (seqZ (i + 1) (b - 1)))))
    by reflexivity.
  assert (Hlast2 : Worker.lastProcessedChunkId w2
                   = default (Worker.lastProcessedChunkId w1)
                       (last (List.map chunkId
                                (List.map (request_of recording lang)
                                          (seqZ (i + 1) (b - 1))))))
    by reflexivity.
  cbn [with_worker page taken shown].
  assert (Hposted' : Worker.posted w2
                     = flat_map (exchange_of t) (seqZ 0 i)
                       ++ flat_map (exchange_of t) (seqZ i b) ++ []).
  { rewrite Hposted2, zip_exchanges. unfold w1. cbn [Worker.posted].
    rewrite Hposted, Hchunks, app_nil_r, <- !app_assoc. reflexivity. }
  match goal with |- context [run _ ?u] => set (s2 := u) end.
  rewrite (run_tells _ s2 _ _ Hposted')
    by (rewrite exchanges_length, length_seqZ; unfold s2; cbn [shown]; lia).
  eexists. split; [reflexivity |].
  unfold settled, s2. cbn [page worker taken shown].
  repeat split; try assumption; try reflexivity.
  - rewrite (exec_exchanges recording N t _ _ Hinv), Hpage, <- page_exec_app.
    f_equal. unfold completions. now rewrite seqZ_app, List.map_app by lia.
  - rewrite Hlast2. unfold w1. cbn [Worker.lastProcessedChunkId].
    rewrite last_request by lia. f_equal. lia.
  - rewrite Hposted', app_nil_r, <- flat_map_app. now rewrite seqZ_app by lia.
  - rewrite length_map, length_seqZ. lia.
  - rewrite exchanges_length, length_seqZ. lia.
Qed.

Lemma waves_run recording N t (n : nat) :
  0 ≤ N → Z.of_nat n ≤ JS.ceil_div N MAX_PARALLEL_CHUNKS →
  ∃ s, run (flat_map (fun q => wave_moves t (wave N (MAX_PARALLEL_CHUNKS * q)))
                     (seqZ 0 (Z.of_nat n)))
           {| page := processChunks recording N file_page;
              worker := Worker.init; taken := 0; shown := 0 |}
       = Some s ∧
       settled recording N t (Z.min (MAX_PARALLEL_CHUNKS * Z.of_nat n) N) s.
Proof.
  intros HN. unfold JS.ceil_div, MAX_PARALLEL_CHUNKS.
  induction n as [| n IH]; intros Hn.
  - eexists. split; [reflexivity |].
    replace (Z.min (3 * Z.of_nat 0) N) with 0 by lia.
    repeat split.
  - destruct IH as (s & Hrun & Hs); [lia |].
    assert (Hlt : 3 * Z.of_nat n < N) by (revert Hn; Z.div_mod_to_equations; lia).
    replace (Z.min (3 * Z.of_nat n) N) with (3 * Z.of_nat n) in Hs by lia.
    destruct (wave_step recording N t (3 * Z.of_nat n) s) as (s' & Hrun' & Hs');
      [lia | now exists (Z.of_nat n) | exact Hs |].
    exists s'. split.
    + rewrite seqZ_S, flat_map_app, run_app, Hrun. cbn [flat_map Z.add].
      now rewrite app_nil_r.
    + replace (Z.min (3 * Z.of_nat (S n)) N)
        with (3 * Z.of_nat n + Z.min MAX_PARALLEL_CHUNKS (N - 3 * Z.of_nat n))
        by (unfold MAX_PARALLEL_CHUNKS; lia).
      exact Hs'.
Qed.

(** X19.  The page and the worker together transcribe a recording: when
    each batch reaches the worker before its first chunk is decoded and
    no inference fails, the session runs to its end; the transcript holds
    the texts of the chunks in the order of the chunks, the progress is
    100, every request posted has been taken by the worker and every
    message of the worker has been shown to the page, and the worker is at
    rest with nothing queued. *)
Theorem recording_is_transcribed (recording : list JS.number) (t : Z → string) :
  let N := JS.ceil_div (Z.of_nat (length recording)) MAX_SAMPLES in
  ∃ s, run (schedule t N) (start recording) = Some s ∧
       isProcessingFullFile (page s) = false ∧
       suspended (page s) = None ∧
       processingProgress (page s) = JS.of_Z 100 ∧
       text (page s)
       = foldr String.app ""
           (List.map (String.app " ")
              (List.filter JS.truthy (List.map (fun k => JS.trim (t k)) (seqZ 0 N)))) ∧
       List.map chunkId (requests (log (page s))) = List.map Index (seqZ 0 N) ∧
       taken s = length (requests (log (page s))) ∧
       shown s = length (Worker.posted (worker s)) ∧
       Worker.isCurrentlyProcessing (worker s) = false ∧
       Worker.processingQueue (worker s) = [] ∧
       Worker.timers (worker s) = [] ∧
       Worker.calls (worker s) = [].
Proof.
  intros N.
  destruct (totalChunks_bounds (Z.of_nat (length recording))) as (HN & _); [lia |].
  fold N in HN.
  assert (Hwaves : 0 ≤ JS.ceil_div N MAX_PARALLEL_CHUNKS ∧
                   N ≤ 3 * JS.ceil_div N MAX_PARALLEL_CHUNKS).
  { unfold JS.ceil_div, MAX_PARALLEL_CHUNKS. Z.div_mod_to_equations. lia. }
  destruct (waves_run recording N t
              (Z.to_nat (JS.ceil_div N MAX_PARALLEL_CHUNKS)) HN) as (s & Hrun & Hs);
    [lia |].
  rewrite Z2Nat.id in Hrun, Hs by lia.
  replace (Z.min _ N) with N in Hs by (unfold MAX_PARALLEL_CHUNKS in *; lia).
  destruct Hs as
    (Hpage & Hidle & Hqueue & Htimers & Hcalls & _ & Hposted & Htaken & Hshown).
  exists s. split; [exact Hrun |].
  destruct (session_completes recording N t HN) as [Hnone Hsent].
  pose proof (session_inv_reachable recording N (completions t N)) as Hinv.
  pose proof (session_posts recording N (completions t N)) as Hposts.
  rewrite <- Hpage in Hnone, Hsent, Hinv, Hposts.
  pose proof (requests_of_chunks _ _ _ Hposts) as Hreq. rewrite Hsent in Hreq.
  repeat split; try assumption.
  - now rewrite (inv_flag _ _ _ Hinv), Hnone.
  - now apply (inv_final _ _ _ Hinv).
  - rewrite Hpage. now apply transcript_in_order.
  - rewrite Hreq, List.map_map. reflexivity.
  - rewrite Hreq, length_map, length_seqZ. exact Htaken.
  - rewrite Hposted, exchanges_length, length_seqZ. exact Hshown.
Qed.

End SystemFacts.
